(** * The pawn game of ps3/utils.py: board model and match driver

    A shallow embedding of [ps3/utils.py].  A Python [Board] is a list of
    row objects, each a list of one-character strings; both levels are
    mutable objects, so the embedding keeps an explicit store with one
    table for the outer lists and one for the rows.  Every function of
    the source is a computation over that store which either returns a
    value or raises a Python exception. *)

From stdpp Require Import base option list gmap strings.
From Stdlib Require Import ZArith Lia.

Local Open Scope string_scope.
Local Open Scope list_scope.
Local Open Scope Z_scope.

(** ** Constants of the module *)

Definition ROW : Z := 6.
Definition COL : Z := 6.

Abbreviation Move := ((Z * Z) * (Z * Z))%type.

Definition MOVE_NONE : Move := ((-1, -1), (-1, -1)).

(** The three cell values. *)
Definition BLACK_PAWN : string := "B".
Definition WHITE_PAWN : string := "W".
Definition EMPTY : string := "_".

(** ** Python objects: the store *)

Definition loc := positive.

(** A grid is the value a board denotes: the rows, top to bottom. *)
Abbreviation grid := (list (list string)).

Record store := Store {
  outers : gmap loc (list loc);      (* list objects holding row references *)
  rows : gmap loc (list string)      (* row objects *)
}.

Inductive exn :=
  | IndexError
  | ValueError (msg : string)
  | KeyboardInterrupt
  | SystemExit.

(** Whether the exception derives from [Exception], so that
    [except Exception] catches it; [KeyboardInterrupt] and [SystemExit]
    derive from [BaseException] only. *)
Definition is_Exception (e : exn) : bool :=
  match e with
  | IndexError | ValueError _ => true
  | KeyboardInterrupt | SystemExit => false
  end.

Inductive outcome (A : Type) :=
  | Ok (a : A) (σ : store)
  | Raise (e : exn) (σ : store).
Arguments Ok {A} a σ.
Arguments Raise {A} e σ.

Definition M (A : Type) : Type := store → outcome A.

Definition ret {A} (a : A) : M A := λ σ, Ok a σ.
Definition raise {A} (e : exn) : M A := λ σ, Raise e σ.
Definition bind {A B} (m : M A) (k : A → M B) : M B :=
  λ σ, match m σ with
       | Ok a σ' => k a σ'
       | Raise e σ' => Raise e σ'
       end.

(** [try: m except Exception: h]; an exception that does not derive from
    [Exception] passes through. *)
Definition try_except {A} (m : M A) (h : exn → M A) : M A :=
  λ σ, match m σ with
       | Ok a σ' => Ok a σ'
       | Raise e σ' => if is_Exception e then h e σ' else Raise e σ'
       end.

(** [try: m except KeyboardInterrupt: exit()]; [exit()] raises
    [SystemExit]. *)
Definition exit_on_interrupt {A} (m : M A) : M A :=
  λ σ, match m σ with
       | Raise KeyboardInterrupt σ' => Raise SystemExit σ'
       | o => o
       end.

Declare Scope py_scope.
Delimit Scope py_scope with py.
Notation "x <~ m ;; k" := (bind m (λ x, k))
  (at level 100, m at next level, right associativity) : py_scope.
Notation "m ;;; k" := (bind m (λ _, k))
  (at level 100, right associativity) : py_scope.
Local Open Scope py_scope.

(** ** Python list indexing *)

(** [l[i]]: a negative index counts from the end; [None] stands for
    [IndexError]. *)
Definition py_norm (n : nat) (i : Z) : option nat :=
  if i <? 0 then (if - i <=? Z.of_nat n then Some (Z.to_nat (Z.of_nat n + i)) else None)
  else (if i <? Z.of_nat n then Some (Z.to_nat i) else None).

Definition py_index {A} (l : list A) (i : Z) : option A :=
  k ← py_norm (length l) i; l !! k.

Definition py_setitem {A} (l : list A) (i : Z) (x : A) : option (list A) :=
  k ← py_norm (length l) i; Some (<[k := x]> l).

(** Objects are never dangling in Python; a location absent from the
    store reads as the empty list, which no well-formed store exercises. *)
Definition load_outer (b : loc) : M (list loc) :=
  λ σ, Ok (default [] (outers σ !! b)) σ.

Definition load_row (l : loc) : M (list string) :=
  λ σ, Ok (default [] (rows σ !! l)) σ.

Definition store_outer (b : loc) (ls : list loc) : M unit :=
  λ σ, Ok () (Store (<[b := ls]> (outers σ)) (rows σ)).

Definition store_row (l : loc) (ts : list string) : M unit :=
  λ σ, Ok () (Store (outers σ) (<[l := ts]> (rows σ))).

Definition alloc_outer (ls : list loc) : M loc :=
  λ σ, let b := fresh (dom (outers σ)) in
       Ok b (Store (<[b := ls]> (outers σ)) (rows σ)).

Definition alloc_row (ts : list string) : M loc :=
  λ σ, let l := fresh (dom (rows σ)) in
       Ok l (Store (outers σ) (<[l := ts]> (rows σ))).

Definition lift_index {A} (o : option A) : M A :=
  match o with Some a => ret a | None => raise IndexError end.

(** [board[r]] *)
Definition getrow (b : loc) (r : Z) : M loc :=
  ls <~ load_outer b;; lift_index (py_index ls r).

(** [row[c]] *)
Definition getcell (l : loc) (c : Z) : M string :=
  ts <~ load_row l;; lift_index (py_index ts c).

(** [board[r][c]] *)
Definition getitem2 (b : loc) (r c : Z) : M string :=
  l <~ getrow b r;; getcell l c.

(** [board[r][c] = v] *)
Definition setitem2 (b : loc) (r c : Z) (v : string) : M unit :=
  l <~ getrow b r;;
  ts <~ load_row l;;
  ts' <~ lift_index (py_setitem ts c v);;
  store_row l ts'.

(** ** Loops

    [for i, x in enumerate(obj): body], where [obj] is a list object the
    body may write to but never resizes (no function of the module appends
    or removes).  As in Python the element is read when its turn comes, so
    the loop sees what earlier iterations wrote.  The body carries the
    local variables it updates ([St]) and may leave the function with a
    [return] ([Rt]). *)
Fixpoint for_from {A St Rt} (load : M (list A)) (body : nat → A → St → M (St + Rt))
    (n i : nat) (s : St) : M (St + Rt) :=
  match n with
  | O => ret (inl s)
  | S n' =>
      xs <~ load;;
      match xs !! i with
      | None => ret (inl s)
      | Some x =>
          r <~ body i x s;;
          match r with
          | inl s' => for_from load body n' (S i) s'
          | inr v => ret (inr v)
          end
      end
  end.

Definition for_in {A St Rt} (load : M (list A)) (body : nat → A → St → M (St + Rt))
    (s : St) : M (St + Rt) :=
  xs <~ load;; for_from load body (length xs) 0%nat s.

(** ** The board model *)

Fixpoint alloc_rows (g : grid) : M (list loc) :=
  match g with
  | [] => ret []
  | ts :: g' => l <~ alloc_row ts;; ls <~ alloc_rows g';; ret (l :: ls)
  end.

(** [list("BBBBBB")] *)
Fixpoint chars (s : string) : list string :=
  match s with
  | EmptyString => []
  | String a s' => String a EmptyString :: chars s'
  end.

Definition init_grid : grid :=
  [ chars "BBBBBB"; chars "BBBBBB"; chars "______";
    chars "______"; chars "WWWWWW"; chars "WWWWWW" ].

Definition generate_init_state : M loc :=
  ls <~ alloc_rows init_grid;; alloc_outer ls.

(** [copy.deepcopy(board)]: a new outer list and a new object for every
    row; the memo makes a row object that occurs twice be copied once.
    The cells are immutable strings and are shared. *)
Fixpoint deepcopy_rows (ls : list loc) (memo : gmap loc loc) : M (list loc) :=
  match ls with
  | [] => ret []
  | l :: ls' =>
      match memo !! l with
      | Some l' => ls'' <~ deepcopy_rows ls' memo;; ret (l' :: ls'')
      | None =>
          ts <~ load_row l;;
          l' <~ alloc_row ts;;
          ls'' <~ deepcopy_rows ls' (<[l := l']> memo);;
          ret (l' :: ls'')
      end
  end.

Definition deepcopy (b : loc) : M loc :=
  ls <~ load_outer b;;
  ls' <~ deepcopy_rows ls ∅;;
  alloc_outer ls'.

(** [board.reverse()] *)
Definition reverse_in_place (b : loc) : M unit :=
  ls <~ load_outer b;; store_outer b (reverse ls).

Definition invert_board (b : loc) (in_place : bool) : M loc :=
  b <~ (if negb in_place then deepcopy b else ret b);;
  reverse_in_place b;;;
  for_in (Rt := Empty_set) (load_outer b) (λ r row _,
    for_in (load_row row) (λ c tile _,
      (if bool_decide (tile = "W") then setitem2 b (Z.of_nat r) (Z.of_nat c) "B"
       else if bool_decide (tile = "B") then setitem2 b (Z.of_nat r) (Z.of_nat c) "W"
       else ret ());;;
      ret (inl ())) ()) ();;;
  ret b.

(** [c and m], evaluated left to right: [m] runs only when [c] holds. *)
Definition short_and (c : bool) (m : M bool) : M bool :=
  if c then m else ret false.

Definition is_valid_move (b : loc) (src dst : Z * Z) : M bool :=
  let '(sr, sc) := src in
  let '(dr, dc) := dst in
  t <~ getitem2 b sr sc;;
  if bool_decide (t ≠ "B") then ret false
  else if (dr <? 0) || (dr >=? ROW) || (dc <? 0) || (dc >=? COL) then ret false
  else if bool_decide (dr ≠ sr + 1) then ret false
  else if (dc >? sc + 1) || (dc <? sc - 1) then ret false
  else
    blocked <~ short_and (bool_decide (dc = sc))
                 (t' <~ getitem2 b dr dc;; ret (bool_decide (t' ≠ "_")));;
    if blocked then ret false
    else
      own <~ short_and (bool_decide (dc = sc + 1) || bool_decide (dc = sc - 1))
               (t' <~ getitem2 b dr dc;; ret (bool_decide (t' = "B")));;
      if own then ret false else ret true.

Definition generate_rand_move (b : loc) : M Move :=
  found <~ for_in (load_outer b) (λ r row _,
    for_in (load_row row) (λ c tile _,
      if bool_decide (tile ≠ "B") then ret (inl ())
      else
        let src := (Z.of_nat r, Z.of_nat c) in
        for_in (ret [-1; 0; 1]) (λ _ d _,
          let dst := (Z.of_nat r + 1, Z.of_nat c + d) in
          ok <~ is_valid_move b src dst;;
          if ok then ret (inr (src, dst)) else ret (inl ())) ()) ()) ();;
  match found with
  | inr mv => ret mv
  | inl _ => raise (ValueError "no valid move")
  end.

Definition state_change (b : loc) (src dst : Z * Z) (in_place : bool) : M loc :=
  b <~ (if negb in_place then deepcopy b else ret b);;
  ok <~ is_valid_move b src dst;;
  (if ok then
     let '(sr, sc) := src in
     let '(dr, dc) := dst in
     setitem2 b sr sc "_";;;
     setitem2 b dr dc "B"
   else ret ());;;
  ret b.

(** [any(tile == t for tile in board[r])] *)
Definition any_in_row (b : loc) (r : Z) (t : string) : M bool :=
  l <~ getrow b r;;
  ts <~ load_row l;;
  ret (existsb (λ tile, bool_decide (tile = t)) ts).

Definition is_game_over (b : loc) : M bool :=
  b5 <~ any_in_row b 5 "B";;
  w0 <~ (if b5 then ret true else any_in_row b 0 "W");;
  if w0 then ret true
  else
    counts <~ for_in (Rt := Empty_set) (load_outer b) (λ _ row wb,
      for_in (load_row row) (λ _ tile '(wcount, bcount),
        if bool_decide (tile = "B") then ret (inl (wcount, bcount + 1))
        else if bool_decide (tile = "W") then ret (inl (wcount + 1, bcount))
        else ret (inl (wcount, bcount))) wb) (0, 0);;
    match counts with
    | inl (wcount, bcount) => ret ((bcount =? 0) || (wcount =? 0))
    | inr e => match e with end
    end.

(** ** The match driver *)

Inductive side := Black | White.

#[global] Instance side_eq_dec : EqDecision side.
Proof. solve_decision. Defined.

(** [colors = (black, white)] *)
Definition side_name (c : side) : string :=
  match c with
  | Black => "Black(Student agent)"
  | White => "White(Test agent)"
  end.

(** What [play] returns: [color == black], or a failure string. *)
Inductive play_result :=
  | PBool (v : bool)
  | PStr (msg : string).

(** How the process running Black's [make_move] is found after
    [mp.join(timeout=3)], and what [result_queue.get()] then finds.
    [exitcode] is [None] when the process is still running.  It is 1 when
    [make_move_job_func] caught an exception, queued it and called
    [exit(1)]; [queued] is then the text of that exception.  It is 0 when
    [make_move_job_func] queued the move and returned.  The process can
    also end with code 0 or 1 and nothing queued ([queued] is [None]):
    [make_move] called [sys.exit], or was interrupted, and
    [make_move_job_func] catches neither [SystemExit] nor, other than to
    call [exit()], [KeyboardInterrupt].  Any other code is
    [ExitedOther]. *)
Inductive job_exit :=
  | StillRunning
  | Exited1 (queued : option string)
  | Exited0 (queued : option Move)
  | ExitedOther (code : Z).

(** How a pass through the loop body that does not go on to the next pass
    ends: [play] returns a value, or it waits in [result_queue.get()] for
    an item that no process will put, and never returns. *)
Inductive stop :=
  | Returns (res : play_result)
  | Blocks.

(** The two agents.  Black's runs in another process on a pickled copy of
    the board, so the driver only sees how the process ended; White's runs
    in the driver's process on the board object itself and may write to
    the store or raise.  Both are given the move number, which stands for
    whatever else their answer depends on. *)
Record agents := Agents {
  black_job : nat → grid → job_exit;
  white_make_move : nat → loc → M Move
}.

Fixpoint load_rows (ls : list loc) : M grid :=
  match ls with
  | [] => ret []
  | l :: ls' => ts <~ load_row l;; g <~ load_rows ls';; ret (ts :: g)
  end.

(** The value of a board, as it is pickled for the other process. *)
Definition snapshot (b : loc) : M grid :=
  ls <~ load_outer b;; load_rows ls.

(** The local variables of [play]; [asked] is a ghost log of the calls to
    an agent's [make_move]. *)
Record locals := Locals {
  move : nat;
  random_moves : nat;
  color : option side;
  asked : list side
}.

(** [src, dst = MOVE_NONE], overwritten when the process queued a move. *)
Definition obtained (ex : job_exit) : Move :=
  match ex with Exited0 (Some mv) => mv | _ => MOVE_NONE end.

(** The [else: # black] branch: the move to apply and the new value of
    [random_moves], or how the pass stops: with the string [play]
    returns, or in a [result_queue.get()] on an empty queue. *)
Definition ask_black (ag : agents) (b : loc) (st : locals)
    : M (Move * nat + stop) :=
  board_copy <~ deepcopy b;;
  g <~ snapshot board_copy;;
  match black_job ag (move st) g with
  | Exited1 None | Exited0 None => ret (inr Blocks)
  | Exited1 (Some e) =>
      ret (inr (Returns
        (PStr (side_name Black +:+ " returned err=" +:+ e +:+ " during move"))))
  | ex =>
      let mv := obtained ex in
      is_valid <~ try_except (exit_on_interrupt (is_valid_move b mv.1 mv.2))
                             (λ _, ret false);;
      if negb is_valid
      then mv' <~ generate_rand_move b;; ret (inl (mv', S (random_moves st)))
      else ret (inl (mv, random_moves st))
  end.

(** The [if color == white] branch. *)
Definition ask_white (ag : agents) (b : loc) (st : locals)
    : M (Move * nat + stop) :=
  invert_board b true;;;
  mv <~ white_make_move ag (move st) b;;
  ret (inl (mv, random_moves st)).

(** One pass through the body of [while not is_game_over(board)]:
    either the locals for the next pass, or how the pass stops and the
    locals it stops with. *)
Definition turn (ag : agents) (b : loc) (st : locals)
    : M (locals + stop * locals) :=
  let c := if Nat.even (move st) then Black else White in
  r <~ (if bool_decide (c = White) then ask_white ag b st else ask_black ag b st);;
  match r with
  | inr how =>
      ret (inr (how, Locals (move st) (random_moves st) (Some c) (asked st ++ [c])))
  | inl (mv, rnd) =>
      state_change b mv.1 mv.2 true;;;
      (if bool_decide (c = White) then invert_board b true else ret b);;;
      ret (inl (Locals (S (move st)) rnd (Some c) (asked st ++ [c])))
  end.

(** The loop of [play]; [None] when [play] has not returned: the fuel ran
    out before the game was over, or the driver waits for ever in
    [result_queue.get()].  The two [players.append] before the loop cannot
    raise, so [play] never returns one of its two initialisation failure
    strings. *)
Fixpoint play_loop (fuel : nat) (ag : agents) (b : loc) (st : locals)
    : M (option (play_result * locals)) :=
  over <~ is_game_over b;;
  if over then ret (Some (PBool (bool_decide (color st = Some Black)), st))
  else
    match fuel with
    | O => ret None
    | S fuel' =>
        r <~ turn ag b st;;
        match r with
        | inl st' => play_loop fuel' ag b st'
        | inr (Returns res, st') => ret (Some (res, st'))
        | inr (Blocks, _) => ret None
        end
    end.

Definition play (fuel : nat) (ag : agents) (b : loc) : M (option (play_result * locals)) :=
  play_loop fuel ag b (Locals 0 0 None []).

(** The self-play loop: while the game is not over, take the move of
    [generate_rand_move] and apply it; returns the number of moves made. *)
Fixpoint self_play (fuel : nat) (b : loc) (n : nat) : M (option nat) :=
  over <~ is_game_over b;;
  if over then ret (Some n)
  else
    match fuel with
    | O => ret None
    | S fuel' =>
        mv <~ generate_rand_move b;;
        state_change b mv.1 mv.2 true;;;
        self_play fuel' b (S n)
    end.

Definition empty_store : store := Store ∅ ∅.

(** * The vocabulary of the properties *)

(** ** What a board denotes *)

(** [board_at σ b ls g]: in store [σ] the object [b] is the list [ls] of
    pairwise distinct row objects whose contents, top to bottom, are [g]. *)
Definition board_at (σ : store) (b : loc) (ls : list loc) (g : grid) : Prop :=
  outers σ !! b = Some ls ∧ NoDup ls ∧
  Forall2 (λ l ts, rows σ !! l = Some ts) ls g.

Definition is_board (σ : store) (b : loc) (g : grid) : Prop :=
  ∃ ls, board_at σ b ls g.

(** Every object of [σ] is in [σ'], unchanged. *)
Definition extends (σ σ' : store) : Prop :=
  outers σ ⊆ outers σ' ∧ rows σ ⊆ rows σ'.

(** From [σ] to [σ'] nothing was written but the outer list [b] and the
    rows [ls]. *)
Definition touches_only (b : loc) (ls : list loc) (σ σ' : store) : Prop :=
  (∀ o, o ≠ b → outers σ' !! o = outers σ !! o) ∧
  (∀ l, l ∉ ls → rows σ' !! l = rows σ !! l).

(** A fully populated 6x6 grid. *)
Definition grid6 (g : grid) : Prop :=
  length g = 6%nat ∧ Forall (λ ts, length ts = 6%nat) g.

(** The cell [g[r][c]], with Python's indexing. *)
Definition cell (g : grid) (r c : Z) : option string :=
  ts ← py_index g r; py_index ts c.

Definition in_grid (p : Z * Z) : Prop :=
  0 ≤ p.1 < ROW ∧ 0 ≤ p.2 < COL.

(** The rule of the game, as the specification words it. *)
Definition legal (g : grid) (src dst : Z * Z) : Prop :=
  cell g src.1 src.2 = Some BLACK_PAWN ∧
  in_grid dst ∧
  dst.1 = src.1 + 1 ∧
  Z.abs (dst.2 - src.2) ≤ 1 ∧
  (dst.2 = src.2 → cell g dst.1 dst.2 = Some EMPTY) ∧
  (dst.2 ≠ src.2 → cell g dst.1 dst.2 ≠ Some BLACK_PAWN).

#[global] Instance in_grid_dec p : Decision (in_grid p).
Proof. unfold in_grid. apply _. Defined.

#[global] Instance legal_dec g src dst : Decision (legal g src dst).
Proof. unfold legal. apply _. Defined.

#[global] Instance grid6_dec g : Decision (grid6 g).
Proof. unfold grid6. apply _. Defined.

(** ** Loops on the value of a board *)

(** The run of a loop whose body does not touch the store: the local
    variables are threaded through the elements until a [return]. *)
Fixpoint run_pure {A St Rt} (f : nat → A → St → St + Rt) (i : nat) (xs : list A)
    (s : St) : St + Rt :=
  match xs with
  | [] => inl s
  | x :: xs' =>
      match f i x s with
      | inl s' => run_pure f (S i) xs' s'
      | inr v => inr v
      end
  end.

(** The first element, in order, on which [f] answers. *)
Fixpoint first_some {A Rt} (f : nat → A → option Rt) (i : nat) (xs : list A)
    : option Rt :=
  match xs with
  | [] => None
  | x :: xs' =>
      match f i x with
      | Some v => Some v
      | None => first_some f (S i) xs'
      end
  end.

Definition found {Rt} (o : option Rt) : unit + Rt :=
  match o with Some v => inr v | None => inl () end.

(** The candidate of pawn [(r, c)] at column offset [d], when the rule
    accepts it. *)
Definition try_from (g : grid) (r c : nat) (d : Z) : option Move :=
  let src := (Z.of_nat r, Z.of_nat c) in
  let dst := (Z.of_nat r + 1, Z.of_nat c + d) in
  if bool_decide (legal g src dst) then Some (src, dst) else None.

(** The scan of [generate_rand_move] on the value of the board. *)
Definition first_move (g : grid) : option Move :=
  first_some (λ r row,
    first_some (λ c tile,
      if bool_decide (tile ≠ "B") then None
      else first_some (λ _ d, try_from g r c d) 0 [-1; 0; 1]) 0 row) 0 g.

(** ** The end of the game *)

(** The number of cells holding [t]. *)
Definition count_tile (t : string) (g : grid) : nat :=
  length (filter (λ x, x = t) (concat g)).

(** Some cell of row [r] holds [t]. *)
Definition reached (t : string) (g : grid) (r : Z) : bool :=
  match py_index g r with
  | Some ts => existsb (λ x, bool_decide (x = t)) ts
  | None => false
  end.

Definition game_over (g : grid) : bool :=
  reached "B" g 5 || reached "W" g 0 ||
  (count_tile "B" g =? 0)%nat || (count_tile "W" g =? 0)%nat.

Definition count_step (tile : string) (wb : Z * Z) : Z * Z :=
  if bool_decide (tile = "B") then (wb.1, wb.2 + 1)
  else if bool_decide (tile = "W") then (wb.1 + 1, wb.2)
  else wb.

(** ** Writes to a grid *)

(** The grid after [g[r][c] = v]. *)
Definition set_cell (g : grid) (r c : Z) (v : string) : grid :=
  match py_norm (length g) r with
  | Some i =>
      match g !! i with
      | Some ts =>
          match py_setitem ts c v with
          | Some ts' => <[i := ts']> g
          | None => g
          end
      | None => g
      end
  | None => g
  end.

(** ** Inversion *)

(** What the loop of [invert_board] does to a cell. *)
Definition swap (t : string) : string :=
  if bool_decide (t = "W") then "B"
  else if bool_decide (t = "B") then "W"
  else t.

(** The inverted grid: rows in reverse order, colours exchanged. *)
Definition inverted (g : grid) : grid := fmap (M := list) swap <$> reverse g.

(** The body of the loops of [invert_board]. *)
Definition invert_tile (b : loc) (r c : nat) (tile : string) : M unit :=
  if bool_decide (tile = "W") then setitem2 b (Z.of_nat r) (Z.of_nat c) "B"
  else if bool_decide (tile = "B") then setitem2 b (Z.of_nat r) (Z.of_nat c) "W"
  else ret ().

(** ** Moves on a 6x6 grid *)

(** The row or column an index of [-6 .. 5] denotes. *)
Definition wrap (i : Z) : Z := if i <? 0 then i + 6 else i.

Ltac case_cmp :=
  repeat match goal with
  | |- context [?a <? ?b] => destruct (Z.ltb_spec a b)
  | |- context [?a <=? ?b] => destruct (Z.leb_spec a b)
  end.

(** The grid after a move: the source emptied, a black pawn on the
    destination. *)
Definition moved (g : grid) (src dst : Z * Z) : grid :=
  set_cell (set_cell g src.1 src.2 "_") dst.1 dst.2 "B".

(** The grid [state_change] leaves. *)
Definition state_after (g : grid) (src dst : Z * Z) : grid :=
  if bool_decide (legal g src dst) then moved g src dst else g.

(** ** The scan of [generate_rand_move], move by move *)

(** The move of the pawn on [(r, c)] at column offset [d]. *)
Definition candidate (r c d : Z) : Move := ((r, c), (r + 1, c + d)).

(** The order in which the moves are tried: the cells in row-major
    order, and for each cell the offsets -1, 0, 1. *)
Definition scan_before (p q : Z * Z * Z) : Prop :=
  p.1.1 < q.1.1 ∨
  (p.1.1 = q.1.1 ∧ (p.1.2 < q.1.2 ∨ (p.1.2 = q.1.2 ∧ p.2 < q.2))).

(** [mv] is the first move in that order that [accepts] holds of. *)
Definition scan_first_of (accepts : Z * Z → Z * Z → Prop) (mv : Move) : Prop :=
  ∃ r c d, in_grid (r, c) ∧ -1 ≤ d ≤ 1 ∧ mv = candidate r c d ∧
           accepts mv.1 mv.2 ∧
           ∀ r' c' d', in_grid (r', c') → -1 ≤ d' ≤ 1 →
                       scan_before (r', c', d') (r, c, d) →
                       ¬ accepts (r', c') (r' + 1, c' + d').

Definition scan_first (g : grid) (mv : Move) : Prop :=
  scan_first_of (legal g) mv.

(** ** Stores and boards of the examples *)

(** The store and the board the examples start from. *)
Definition init_store : store :=
  match generate_init_state empty_store with
  | Ok _ σ | Raise _ σ => σ
  end.

Definition init_board : loc :=
  match generate_init_state empty_store with
  | Ok b _ => b
  | Raise _ _ => 1%positive
  end.

(** [b1 == b2] on boards: the two lists of rows have equal contents. *)
Definition board_eq (b1 b2 : loc) : M bool :=
  g1 <~ snapshot b1;; g2 <~ snapshot b2;; ret (bool_decide (g1 = g2)).

(** ** Self-play on the value of a board *)

(** The self-play loop on the value of the board. *)
Fixpoint self_play_grid (fuel : nat) (g : grid) (n : nat) : option (nat * grid) :=
  if game_over g then Some (n, g)
  else
    match fuel with
    | O => None
    | S fuel' =>
        match first_move g with
        | Some mv => self_play_grid fuel' (state_after g mv.1 mv.2) (S n)
        | None => None
        end
    end.

(** ** Computations that leave the store alone *)

Definition readonly {A} (m : M A) : Prop :=
  ∀ σ, match m σ with Ok _ σ' | Raise _ σ' => σ' = σ end.

(** The store the self-play from [init_store] ends in. *)
Definition final_store : store :=
  match self_play 200 init_board 0 init_store with
  | Ok _ σ | Raise _ σ => σ
  end.

(** ** The match driver *)

(** The agents of the examples: Black's process hands over the opening
    move [(1, 0) -> (2, 0)], White's agent answers [(0, 0) -> (0, 0)]. *)
Definition example_agents : agents :=
  Agents (λ _ _, Exited0 (Some ((1, 0), (2, 0)))) (λ _ _, ret ((0, 0), (0, 0))).

(** The store after Black's opening turn from [init_store]. *)
Definition opened_store : store :=
  match turn example_agents init_board (Locals 0 0 None []) init_store with
  | Ok _ σ | Raise _ σ => σ
  end.


(** Whether the driver finds the queue empty where it reads it: the
    process ended with code 0 or 1 and queued nothing. *)
Definition leaves_queue_empty (ex : job_exit) : Prop :=
  match ex with
  | Exited0 None | Exited1 None => True
  | _ => False
  end.

(** A board of one row, too short for the constants [ROW] and [COL]. *)
Definition one_row_store : store :=
  Store {[ 1%positive := [2%positive] ]} {[ 2%positive := chars "B_" ]}.


(** ** Counting pawns *)

(** The number of cells of a row holding [t]. *)
Definition cnt (t : string) (ts : list string) : nat :=
  length (filter (λ x, x = t) ts).

(** The cells holding [t], each counted [f r] times for its row [r]. *)
Fixpoint weigh (f : nat → nat) (t : string) (i : nat) (g : grid) : nat :=
  match g with
  | [] => 0
  | ts :: g' => f i * cnt t ts + weigh f t (S i) g'
  end.

(** The rows the black pawns are away from the last row, summed. *)
Definition to_go (g : grid) : nat := weigh (λ r, 5 - r)%nat "B" 0 g.

(** [1] when the cell read holds [t]. *)
Definition holds (o : option string) (t : string) : nat :=
  if decide (o = Some t) then 1 else 0.


(** The grid after Black's opening move. *)
Definition opened_grid : grid := moved init_grid (1, 0) (2, 0).


(** ** The course of a match *)

(** [colors[move % 2]] *)
Definition side_to_move (n : nat) : side := if Nat.even n then Black else White.

(** The sides of the first [n] turns of a match. *)
Definition turns_taken (n : nat) : list side := side_to_move <$> seq 0 n.

(** The run came to an end within its fuel: it returned a value or
    raised, and neither ran out of fuel nor waits on an empty queue. *)
Definition finished {A} (o : outcome (option A)) : Prop :=
  match o with
  | Ok None _ => False
  | _ => True
  end.


(** * More of ps3/utils.py *)

(** ** [print_state] *)

(** [s * n] *)
Fixpoint str_repeat (s : string) (n : nat) : string :=
  match n with
  | O => ""
  | S n' => s +:+ str_repeat s n'
  end.

(** [sep.join(items)] *)
Fixpoint str_join (sep : string) (items : list string) : string :=
  match items with
  | [] => ""
  | x :: rest =>
      match rest with
      | [] => x
      | _ => x +:+ sep +:+ str_join sep rest
      end
  end.

(** ["+" + ("-" * 5 + "+") * COL] *)
Definition horizontal_rule : string :=
  "+" +:+ str_repeat (str_repeat "-" 5 +:+ "+") (Z.to_nat COL).

(** [' ' if tile == '_' else tile] *)
Definition render_tile (tile : string) : string :=
  if bool_decide (tile = "_") then " " else tile.

(** The f-string of the row. *)
Definition render_row (ts : list string) : string :=
  "|  " +:+ str_join "  |  " (render_tile <$> ts) +:+ "  |".

(** [print_state]; the value is the lines written to standard output, in
    the order they are written. *)
Definition print_state (b : loc) : M (list string) :=
  out <~ for_in (Rt := Empty_set) (load_outer b) (λ _ row out,
    ts <~ load_row row;;
    ret (inl (out ++ [horizontal_rule; render_row ts]))) [];;
  match out with
  | inl out => ret (out ++ [horizontal_rule])
  | inr e => match e with end
  end.

(** What [print_state] writes for a grid. *)
Definition board_lines (g : grid) : list string :=
  concat ((λ ts, [horizontal_rule; render_row ts]) <$> g) ++ [horizontal_rule].

(** ** [wrap_test] and [test_move] *)

(** What a function decorated with [wrap_test] returns: the value of the
    function, or the string [f"FAILED, reason: {e}"] for the exception [e]
    it raised.  [exn] keeps the class of an [IndexError] and not its text,
    which is not the same for every index out of range, so the string is
    kept as the exception it is formatted from. *)
Inductive tested (A : Type) :=
  | Passed (a : A)
  | Failed (e : exn).
Arguments Passed {A} a.
Arguments Failed {A} e.

(** [wrap_test(func)]: [except Exception] turns an exception that derives
    from [Exception] into the failure string and lets any other through.
    The traceback it prints is left out. *)
Definition wrap_test {A} (func : M A) : M (tested A) :=
  try_except (a <~ func;; ret (Passed a)) (λ e, ret (Failed e)).

(** The body of [test_move], for the runs that the [timeout] decorator
    between it and [wrap_test] does not interrupt, under the decorator of
    [timeout_decorator] that the module takes when [os.name] is not
    ["nt"]: it then returns what the body returns and raises what the
    body raises.  [in_time] is the outcome of [move_time <= 3], a
    comparison of clock readings. *)
Definition test_move_body (make_move : loc → M Move) (in_time : bool) (b : loc)
    : M bool :=
  board_copy <~ deepcopy b;;
  mv <~ make_move board_copy;;
  valid <~ is_valid_move b mv.1 mv.2;;
  ret (valid && in_time).

Definition test_move (make_move : loc → M Move) (in_time : bool) (b : loc)
    : M (tested bool) :=
  wrap_test (test_move_body make_move in_time b).

(** From [σ] to [σ'] every object other than the outer list [b] and the
    rows [ls] is kept as it was; new objects may have been made. *)
Definition keeps_others (b : loc) (ls : list loc) (σ σ' : store) : Prop :=
  (∀ o x, o ≠ b → outers σ !! o = Some x → outers σ' !! o = Some x) ∧
  (∀ l x, l ∉ ls → rows σ !! l = Some x → rows σ' !! l = Some x).

(** An agent that writes to no object but the board it is given. *)
Definition confined (make_move : loc → M Move) : Prop :=
  ∀ b ls g σ, board_at σ b ls g →
    match make_move b σ with
    | Ok _ σ' | Raise _ σ' => keeps_others b ls σ σ'
    end.

(** An agent that inverts the board it is given and answers the opening
    move. *)
Definition inverting_agent (b : loc) : M Move :=
  invert_board b true;;; ret ((1, 0), (2, 0)).


(** The row after its colours were exchanged [k] times. *)
Definition flips (k : nat) (ts : list string) : list string :=
  if Nat.even k then ts else swap <$> ts.

(** The number of times the row object [l] occurs in the list [ls]. *)
Definition occurrences (l : loc) (ls : list loc) : nat :=
  length (filter (λ x, x = l) ls).

(** A board whose six rows are one and the same object. *)
Definition shared_store : store :=
  Store {[ 1%positive := replicate 6 2%positive ]} {[ 2%positive := chars "BW_BW_" ]}.


(** * Lemmas *)

(** ** The monad *)

Lemma bind_ok {A B} (m : M A) (k : A → M B) σ a σ' :
  m σ = Ok a σ' → bind m k σ = k a σ'.
Proof. unfold bind. by intros ->. Qed.

Lemma bind_raise {A B} (m : M A) (k : A → M B) σ e σ' :
  m σ = Raise e σ' → bind m k σ = Raise e σ'.
Proof. unfold bind. by intros ->. Qed.

(** ** Indexing *)

Lemma py_norm_lt n i k : py_norm n i = Some k → (k < n)%nat.
Proof.
  unfold py_norm. repeat case_match; intros; simplify_eq; lia.
Qed.

Lemma py_norm_nonneg n i : 0 ≤ i < Z.of_nat n → py_norm n i = Some (Z.to_nat i).
Proof.
  intros. unfold py_norm.
  destruct (Z.ltb_spec i 0); [lia|].
  destruct (Z.ltb_spec i (Z.of_nat n)); [done|lia].
Qed.

Lemma py_norm_of_nat n (k : nat) : (k < n)%nat → py_norm n (Z.of_nat k) = Some k.
Proof. intros. rewrite py_norm_nonneg by lia. by rewrite Nat2Z.id. Qed.

Lemma py_index_of_nat {A} (l : list A) (k : nat) x :
  l !! k = Some x → py_index l (Z.of_nat k) = Some x.
Proof.
  intros Hk. unfold py_index.
  rewrite py_norm_of_nat by (by eapply lookup_lt_Some). done.
Qed.

Lemma py_index_Forall2 {A B} (R : A → B → Prop) (xs : list A) (ys : list B) i :
  Forall2 R xs ys →
  option_Forall2 R (py_index xs i) (py_index ys i).
Proof.
  intros HF. unfold py_index. rewrite <-(Forall2_length _ _ _ HF).
  destruct (py_norm (length xs) i) as [k|]; simpl; [|constructor].
  by apply Forall2_lookup.
Qed.
Lemma is_board_lookup σ b g :
  is_board σ b g → ∃ ls, outers σ !! b = Some ls ∧ length ls = length g.
Proof.
  intros (ls & Hb & _ & HF). exists ls. split; [done|]. by eapply Forall2_length.
Qed.

Lemma getrow_spec σ b g r :
  is_board σ b g →
  match py_index g r with
  | Some ts => ∃ l, getrow b r σ = Ok l σ ∧ rows σ !! l = Some ts
  | None => getrow b r σ = Raise IndexError σ
  end.
Proof.
  intros (ls & Hb & _ & HF).
  unfold getrow, load_outer, bind. rewrite Hb. simpl.
  destruct (py_index_Forall2 _ ls g r HF) as [l ts Hl|]; simpl; eauto.
Qed.

Lemma getitem2_spec σ b g r c :
  is_board σ b g →
  getitem2 b r c σ =
    match cell g r c with
    | Some t => Ok t σ
    | None => Raise IndexError σ
    end.
Proof.
  intros Hb. unfold getitem2, cell.
  pose proof (getrow_spec σ b g r Hb) as Hr.
  destruct (py_index g r) as [ts|]; simpl.
  - destruct Hr as (l & Hr & Hl). rewrite (bind_ok _ _ _ _ _ Hr).
    unfold getcell, load_row, bind. rewrite Hl. simpl.
    by destruct (py_index ts c).
  - by rewrite (bind_raise _ _ _ _ _ Hr).
Qed.

Lemma cell_in_grid g r c :
  grid6 g → 0 ≤ r < 6 → 0 ≤ c < 6 → is_Some (cell g r c).
Proof.
  intros [Hlen Hrows] Hr Hc. unfold cell, py_index.
  rewrite py_norm_nonneg by lia. simpl.
  destruct (lookup_lt_is_Some_2 g (Z.to_nat r)) as [ts Hts]; [lia|].
  rewrite Hts. simpl.
  rewrite Forall_lookup in Hrows. specialize (Hrows _ _ Hts).
  rewrite py_norm_nonneg by lia. simpl.
  apply lookup_lt_is_Some_2. lia.
Qed.

Lemma is_valid_move_spec σ b g src dst :
  is_board σ b g → grid6 g →
  is_valid_move b src dst σ =
    match cell g src.1 src.2 with
    | Some _ => Ok (bool_decide (legal g src dst)) σ
    | None => Raise IndexError σ
    end.
Proof.
  intros Hb Hg. destruct src as [sr sc], dst as [dr dc]. simpl.
  unfold is_valid_move.
  unfold bind at 1. rewrite (getitem2_spec _ _ g) by done.
  destruct (cell g sr sc) as [t|] eqn:Ht; [|done].
  case_bool_decide as Hsrc.
  { unfold ret. f_equal. symmetry. apply bool_decide_eq_false.
    unfold legal; simpl. rewrite Ht. intros (? & _). by simplify_eq. }
  subst t.
  destruct ((dr <? 0) || (dr >=? ROW) || (dc <? 0) || (dc >=? COL)) eqn:Hoob.
  { unfold ret. f_equal. symmetry. apply bool_decide_eq_false.
    unfold legal, in_grid, ROW, COL; simpl. intros (_ & ? & _).
    unfold ROW, COL in Hoob. lia. }
  assert (0 ≤ dr < 6 ∧ 0 ≤ dc < 6) as [Hdr Hdc] by (unfold ROW, COL in Hoob; lia).
  case_bool_decide as Hrow.
  { unfold ret. f_equal. symmetry. apply bool_decide_eq_false.
    unfold legal; simpl. intros (_ & _ & ? & _). lia. }
  destruct ((dc >? sc + 1) || (dc <? sc - 1)) eqn:Hlat.
  { unfold ret. f_equal. symmetry. apply bool_decide_eq_false.
    unfold legal; simpl. intros (_ & _ & _ & ? & _). lia. }
  destruct (cell_in_grid g dr dc Hg Hdr Hdc) as [t' Ht'].
  unfold short_and.
  case_bool_decide as Hstraight.
  - subst dc. unfold bind at 1. unfold bind at 1. rewrite (getitem2_spec _ _ g) by done.
    rewrite Ht'. unfold ret at 1.
    case_bool_decide as He.
    + unfold ret. f_equal. symmetry. apply bool_decide_eq_false.
      unfold legal; simpl. intros (_ & _ & _ & _ & He' & _).
      rewrite Ht' in He'. specialize (He' eq_refl). by simplify_eq.
    + rewrite !bool_decide_eq_false_2 by lia. simpl.
      unfold bind, ret. f_equal. symmetry. apply bool_decide_eq_true.
      unfold legal, in_grid, ROW, COL; simpl. rewrite Ht, Ht'.
      repeat split; try lia; try done. by rewrite He.
  - unfold bind at 1. unfold ret at 1.
    assert (bool_decide (dc = sc + 1) || bool_decide (dc = sc - 1) = true) as ->.
    { apply orb_true_iff. rewrite !bool_decide_eq_true. lia. }
    unfold bind at 1. unfold bind at 1. rewrite (getitem2_spec _ _ g) by done.
    rewrite Ht'. unfold ret at 1.
    case_bool_decide as He.
    + unfold ret. f_equal. symmetry. apply bool_decide_eq_false.
      unfold legal; simpl. intros (_ & _ & _ & _ & _ & He').
      apply He'; [done|]. by rewrite Ht', He.
    + unfold ret. f_equal. symmetry. apply bool_decide_eq_true.
      unfold legal, in_grid, ROW, COL; simpl. rewrite Ht, Ht'.
      repeat split; try lia; try done. intros _ ?. by simplify_eq.
Qed.

Lemma for_from_readonly {A B St Rt} (R : A → B → Prop) (load : M (list A))
    (body : nat → A → St → M (St + Rt)) (f : nat → B → St → St + Rt) σ xs ys :
  load σ = Ok xs σ →
  Forall2 R xs ys →
  (∀ i x y s, xs !! i = Some x → ys !! i = Some y → R x y →
              body i x s σ = Ok (f i y s) σ) →
  ∀ n i s, (i + n = length xs)%nat →
    for_from load body n i s σ = Ok (run_pure f i (drop i ys) s) σ.
Proof.
  intros Hload HF Hbody n. induction n as [|n IH]; intros i s Hlen; simpl.
  - rewrite drop_ge; [done|]. rewrite <-(Forall2_length _ _ _ HF). lia.
  - rewrite (bind_ok _ _ _ _ _ Hload).
    destruct (lookup_lt_is_Some_2 xs i) as [x Hx]; [lia|].
    destruct (Forall2_lookup_l _ _ _ _ _ HF Hx) as (y & Hy & Hxy).
    rewrite Hx. rewrite (drop_S _ _ _ Hy). simpl.
    rewrite (bind_ok _ _ _ _ _ (Hbody i x y s Hx Hy Hxy)).
    destruct (f i y s) as [s'|v]; [|done].
    apply IH. lia.
Qed.

Lemma for_in_readonly {A B St Rt} (R : A → B → Prop) (load : M (list A))
    (body : nat → A → St → M (St + Rt)) (f : nat → B → St → St + Rt) σ xs ys s :
  load σ = Ok xs σ →
  Forall2 R xs ys →
  (∀ i x y s, xs !! i = Some x → ys !! i = Some y → R x y →
              body i x s σ = Ok (f i y s) σ) →
  for_in load body s σ = Ok (run_pure f 0 ys s) σ.
Proof.
  intros Hload HF Hbody. unfold for_in. rewrite (bind_ok _ _ _ _ _ Hload).
  by rewrite (for_from_readonly R load body f σ xs ys Hload HF Hbody).
Qed.

Lemma run_pure_first {A Rt} (f : nat → A → option Rt) i xs :
  run_pure (λ i x _, found (f i x)) i xs () = found (first_some f i xs).
Proof.
  revert i. induction xs as [|x xs IH]; intros i; simpl; [done|].
  destruct (f i x); simpl; [done|]. apply IH.
Qed.

Lemma for_in_first {A B Rt} (R : A → B → Prop) (load : M (list A))
    (body : nat → A → unit → M (unit + Rt)) (f : nat → B → option Rt) σ xs ys :
  load σ = Ok xs σ →
  Forall2 R xs ys →
  (∀ i x y, xs !! i = Some x → ys !! i = Some y → R x y →
            body i x () σ = Ok (found (f i y)) σ) →
  for_in load body () σ = Ok (found (first_some f 0 ys)) σ.
Proof.
  intros Hload HF Hbody. rewrite <-run_pure_first.
  eapply (for_in_readonly R); [done..|]. intros i x y []. apply Hbody.
Qed.

Lemma first_some_Some {A Rt} (f : nat → A → option Rt) i xs v :
  first_some f i xs = Some v ↔
  ∃ k x, xs !! k = Some x ∧ f (i + k)%nat x = Some v ∧
         ∀ k' x', (k' < k)%nat → xs !! k' = Some x' → f (i + k')%nat x' = None.
Proof.
  revert i. induction xs as [|x xs IH]; intros i; simpl.
  - split; [done|]. by intros (k & x & ? & _).
  - destruct (f i x) as [w|] eqn:Hf.
    + split.
      * intros [= ->]. exists 0%nat, x. rewrite Nat.add_0_r.
        split_and!; [done..|]. intros; lia.
      * intros (k & x' & Hk & Hv & Hmin). destruct k as [|k].
        -- simpl in Hk. rewrite Nat.add_0_r in Hv. congruence.
        -- specialize (Hmin 0%nat x ltac:(lia) eq_refl).
           rewrite Nat.add_0_r in Hmin. congruence.
    + rewrite IH. split.
      * intros (k & x' & Hk & Hv & Hmin). exists (S k), x'.
        rewrite Nat.add_succ_r. split_and!; [done..|].
        intros [|k'] x'' Hlt Hk'; simpl in Hk'.
        -- rewrite Nat.add_0_r. congruence.
        -- rewrite Nat.add_succ_r. apply (Hmin k' x''); [lia|done].
      * intros (k & x' & Hk & Hv & Hmin). destruct k as [|k].
        -- simpl in Hk. rewrite Nat.add_0_r in Hv. congruence.
        -- exists k, x'. rewrite Nat.add_succ_r in Hv. split_and!; [done..|].
           intros k' x'' Hlt Hk'. specialize (Hmin (S k') x'' ltac:(lia) Hk').
           by rewrite Nat.add_succ_r in Hmin.
Qed.

Lemma first_some_None {A Rt} (f : nat → A → option Rt) i xs :
  first_some f i xs = None ↔
  ∀ k x, xs !! k = Some x → f (i + k)%nat x = None.
Proof.
  revert i. induction xs as [|x xs IH]; intros i; simpl.
  - split; [|done]. intros _ k x. by rewrite lookup_nil.
  - destruct (f i x) as [w|] eqn:Hf.
    + split; [done|]. intros H. specialize (H 0%nat x eq_refl).
      rewrite Nat.add_0_r in H. congruence.
    + rewrite IH. split.
      * intros H [|k] x' Hk; simpl in Hk.
        -- rewrite Nat.add_0_r. congruence.
        -- rewrite Nat.add_succ_r. by apply H.
      * intros H k x' Hk. specialize (H (S k) x' Hk).
        by rewrite Nat.add_succ_r in H.
Qed.

(** ** [is_valid_move], [generate_rand_move] and [is_game_over] *)

Lemma cell_of_lookup (g : grid) (r c : nat) ts t :
  g !! r = Some ts → ts !! c = Some t →
  cell g (Z.of_nat r) (Z.of_nat c) = Some t.
Proof.
  intros Hr Hc. unfold cell.
  rewrite (py_index_of_nat _ _ _ Hr). simpl. by apply py_index_of_nat.
Qed.

Lemma load_outer_board σ b g :
  is_board σ b g →
  ∃ ls, load_outer b σ = Ok ls σ ∧ NoDup ls ∧ outers σ !! b = Some ls ∧
        Forall2 (λ l ts, rows σ !! l = Some ts) ls g.
Proof.
  intros (ls & Hb & Hnd & HF). exists ls. unfold load_outer. by rewrite Hb.
Qed.

Lemma load_row_lookup σ l ts :
  rows σ !! l = Some ts → load_row l σ = Ok ts σ.
Proof. intros H. unfold load_row. by rewrite H. Qed.

Lemma generate_rand_move_spec σ b g :
  is_board σ b g → grid6 g →
  generate_rand_move b σ =
    match first_move g with
    | Some mv => Ok mv σ
    | None => Raise (ValueError "no valid move") σ
    end.
Proof.
  intros Hb Hg. destruct (load_outer_board _ _ _ Hb) as (ls & Hload & _ & _ & HF).
  unfold generate_rand_move.
  erewrite bind_ok; last first.
  { eapply (for_in_first _ _ _
      (λ r row, first_some (λ c tile,
         if bool_decide (tile ≠ "B") then None
         else first_some (λ _ d, try_from g r c d) 0 [-1; 0; 1]) 0 row));
      [exact Hload|exact HF|].
    intros r l row Hl Hrow Hlrow. simpl in Hlrow.
    eapply (for_in_first eq); [by apply load_row_lookup|reflexivity|].
    intros c tile ? Htile _ <-.
    case_bool_decide; [done|].
    eapply (for_in_first eq); [done|reflexivity|].
    intros _ d ? _ _ <-.
    unfold bind. rewrite (is_valid_move_spec σ b g) by done.
    simpl. rewrite (cell_of_lookup _ _ _ _ _ Hrow Htile).
    unfold try_from. by case_bool_decide. }
  fold (first_move g). by destruct (first_move g).
Qed.

Lemma count_row (ts : list string) i (wb : Z * Z) :
  run_pure (Rt := Empty_set) (λ _ tile wb, inl (count_step tile wb)) i ts wb =
    inl (wb.1 + Z.of_nat (length (filter (λ x, x = "W") ts)),
         wb.2 + Z.of_nat (length (filter (λ x, x = "B") ts))).
Proof.
  revert i wb. induction ts as [|t ts IH]; intros i [w k]; simpl.
  - f_equal. f_equal; lia.
  - rewrite IH. unfold count_step. rewrite !filter_cons.
    repeat case_bool_decide; repeat case_decide; simplify_eq; simpl;
      f_equal; f_equal; lia.
Qed.

Lemma count_grid (g : grid) i (wb : Z * Z) :
  run_pure (Rt := Empty_set)
    (λ _ row wb, inl (wb.1 + Z.of_nat (length (filter (λ x, x = "W") row)),
                      wb.2 + Z.of_nat (length (filter (λ x, x = "B") row)))) i g wb =
    inl (wb.1 + Z.of_nat (count_tile "W" g), wb.2 + Z.of_nat (count_tile "B" g)).
Proof.
  unfold count_tile.
  revert i wb. induction g as [|ts g IH]; intros i [w k]; simpl.
  - f_equal. f_equal; lia.
  - rewrite IH. simpl. rewrite !filter_app, !length_app. f_equal. f_equal; lia.
Qed.

Lemma any_in_row_spec σ b g r t :
  is_board σ b g →
  any_in_row b r t σ =
    match py_index g r with
    | Some ts => Ok (existsb (λ x, bool_decide (x = t)) ts) σ
    | None => Raise IndexError σ
    end.
Proof.
  intros Hb. unfold any_in_row.
  pose proof (getrow_spec σ b g r Hb) as Hr.
  destruct (py_index g r) as [ts|].
  - destruct Hr as (l & Hr & Hl). rewrite (bind_ok _ _ _ _ _ Hr).
    by rewrite (bind_ok _ _ _ _ _ (load_row_lookup _ _ _ Hl)).
  - by rewrite (bind_raise _ _ _ _ _ Hr).
Qed.

Lemma py_index_grid6 (g : grid) r :
  grid6 g → 0 ≤ r < 6 → ∃ ts, py_index g r = Some ts ∧ length ts = 6%nat.
Proof.
  intros [Hlen Hrows] Hr. unfold py_index. rewrite py_norm_nonneg by lia. simpl.
  destruct (lookup_lt_is_Some_2 g (Z.to_nat r)) as [ts Hts]; [lia|].
  exists ts. split; [done|]. rewrite Forall_lookup in Hrows. eauto.
Qed.

Lemma is_game_over_spec σ b g :
  is_board σ b g → grid6 g →
  is_game_over b σ = Ok (game_over g) σ.
Proof.
  intros Hb Hg. destruct (load_outer_board _ _ _ Hb) as (ls & Hload & _ & _ & HF).
  unfold is_game_over, game_over, reached.
  destruct (py_index_grid6 g 5 Hg) as (r5 & Hr5 & _); [lia|].
  destruct (py_index_grid6 g 0 Hg) as (r0 & Hr0 & _); [lia|].
  erewrite bind_ok; last by (rewrite (any_in_row_spec _ _ g) by done; rewrite Hr5).
  rewrite Hr5, Hr0.
  destruct (existsb _ r5); simpl; [done|].
  erewrite bind_ok; last by (rewrite (any_in_row_spec _ _ g) by done; rewrite Hr0).
  destruct (existsb _ r0); simpl; [done|].
  erewrite bind_ok; last first.
  { eapply (for_in_readonly _ _ _
      (λ _ row wb, inl (wb.1 + Z.of_nat (length (filter (λ x, x = "W") row)),
                        wb.2 + Z.of_nat (length (filter (λ x, x = "B") row)))));
      [exact Hload|exact HF|].
    intros r l row wb Hl Hrow Hlrow. simpl in Hlrow.
    rewrite <-count_row with (i := 0%nat).
    eapply (for_in_readonly eq); [by apply load_row_lookup|reflexivity|].
    intros c tile ? [w k] _ _ <-. unfold count_step. simpl.
    by repeat case_bool_decide. }
  rewrite count_grid. simpl. unfold ret. f_equal. f_equal.
  - by destruct (count_tile "B" g).
  - by destruct (count_tile "W" g).
Qed.

Lemma touches_only_refl b ls σ : touches_only b ls σ σ.
Proof. by split. Qed.

Lemma touches_only_trans b ls σ1 σ2 σ3 :
  touches_only b ls σ1 σ2 → touches_only b ls σ2 σ3 → touches_only b ls σ1 σ3.
Proof.
  intros [Ho1 Hr1] [Ho2 Hr2]. split.
  - intros o Ho. by rewrite Ho2, Ho1.
  - intros l Hl. by rewrite Hr2, Hr1.
Qed.

Lemma extends_refl σ : extends σ σ.
Proof. by split. Qed.

Lemma extends_trans σ1 σ2 σ3 : extends σ1 σ2 → extends σ2 σ3 → extends σ1 σ3.
Proof. intros [??] [??]. split; by etrans. Qed.

Lemma board_at_extends σ σ' b ls g :
  extends σ σ' → board_at σ b ls g → board_at σ' b ls g.
Proof.
  intros [Ho Hr] (Hb & Hnd & HF). split_and!; [|done|].
  - eapply lookup_weaken; [exact Hb|exact Ho].
  - eapply Forall2_impl; [exact HF|]. intros l ts Hl. simpl in *.
    eapply lookup_weaken; [exact Hl|exact Hr].
Qed.

Lemma setitem2_spec σ b ls g r c v :
  board_at σ b ls g → is_Some (cell g r c) →
  ∃ σ', setitem2 b r c v σ = Ok () σ' ∧
        board_at σ' b ls (set_cell g r c v) ∧
        touches_only b ls σ σ'.
Proof.
  intros (Hb & Hnd & HF) [t Ht]. unfold cell, py_index in Ht.
  destruct (py_norm (length g) r) as [i|] eqn:Hi; [|done]. simpl in Ht.
  destruct (g !! i) as [ts|] eqn:Hts; [|done]. simpl in Ht.
  destruct (py_norm (length ts) c) as [k|] eqn:Hk; [|done]. simpl in Ht.
  destruct (Forall2_lookup_r _ _ _ _ _ HF Hts) as (l & Hl & Hlts).
  exists (Store (outers σ) (<[l := <[k := v]> ts]> (rows σ))).
  split_and!.
  - unfold setitem2, getrow, load_outer, bind. rewrite Hb. simpl.
    unfold py_index. rewrite (Forall2_length _ _ _ HF), Hi. simpl. rewrite Hl.
    simpl. unfold load_row. rewrite Hlts. simpl.
    unfold py_setitem. rewrite Hk. done.
  - unfold set_cell. rewrite Hi, Hts. unfold py_setitem. rewrite Hk. simpl.
    split_and!; [done..|].
    apply Forall2_same_length_lookup. split.
    { rewrite length_insert. by eapply Forall2_length. }
    intros j l' ts' Hl' Hts'.
    destruct (decide (j = i)) as [->|Hne].
    + rewrite list_lookup_insert_eq in Hts' by (eapply lookup_lt_Some, Hts).
      simplify_eq. simpl. by rewrite lookup_insert_eq.
    + rewrite list_lookup_insert_ne in Hts' by done. simpl.
      rewrite lookup_insert_ne.
      * exact (Forall2_lookup_lr _ _ _ _ _ _ HF Hl' Hts').
      * intros <-. apply Hne. by apply (NoDup_lookup ls j i l).
  - split; [done|]. intros l' Hl'. simpl.
    rewrite lookup_insert_ne; [done|]. intros <-. apply Hl'.
    by apply (list_elem_of_lookup_2 ls i l).
Qed.

(** ** Loops that write *)

(** A loop over a list object the body writes to: [Inv i s σ] holds
    before element [i] is visited, and the elements not yet visited are
    still those of [xs]. *)
Lemma for_from_inv {A St Rt} (Inv : nat → St → store → Prop) (load : M (list A))
    (body : nat → A → St → M (St + Rt)) (xs : list A) :
  (∀ i s σ, Inv i s σ → ∃ cur, load σ = Ok cur σ ∧ cur !! i = xs !! i) →
  (∀ i x s σ, Inv i s σ → xs !! i = Some x →
     ∃ s' σ', body i x s σ = Ok (inl s') σ' ∧ Inv (S i) s' σ') →
  ∀ n i s σ, (i + n = length xs)%nat → Inv i s σ →
    ∃ s' σ', for_from load body n i s σ = Ok (inl s') σ' ∧ Inv (length xs) s' σ'.
Proof.
  intros Hload Hbody n. induction n as [|n IH]; intros i s σ Hlen HI; simpl.
  - exists s, σ. split; [done|]. by replace (length xs) with i by lia.
  - destruct (Hload _ _ _ HI) as (cur & Hcur & Hi).
    rewrite (bind_ok _ _ _ _ _ Hcur).
    destruct (lookup_lt_is_Some_2 xs i) as [x Hx]; [lia|].
    rewrite Hi, Hx.
    destruct (Hbody _ _ _ _ HI Hx) as (s' & σ' & Hb & HI').
    rewrite (bind_ok _ _ _ _ _ Hb).
    apply IH; [lia|done].
Qed.

Lemma for_in_inv {A St Rt} (Inv : nat → St → store → Prop) (load : M (list A))
    (body : nat → A → St → M (St + Rt)) (xs : list A) s σ :
  load σ = Ok xs σ →
  (∀ i s σ, Inv i s σ → ∃ cur, load σ = Ok cur σ ∧ cur !! i = xs !! i) →
  (∀ i x s σ, Inv i s σ → xs !! i = Some x →
     ∃ s' σ', body i x s σ = Ok (inl s') σ' ∧ Inv (S i) s' σ') →
  Inv 0%nat s σ →
  ∃ s' σ', for_in load body s σ = Ok (inl s') σ' ∧ Inv (length xs) s' σ'.
Proof.
  intros Hxs Hload Hbody HI. unfold for_in. rewrite (bind_ok _ _ _ _ _ Hxs).
  by apply (for_from_inv Inv load body xs).
Qed.

Lemma swap_swap t : swap (swap t) = t.
Proof. unfold swap. repeat case_bool_decide; simplify_eq; done. Qed.

Lemma inverted_inverted g : inverted (inverted g) = g.
Proof.
  unfold inverted. rewrite <-fmap_reverse, reverse_involutive.
  rewrite <-list_fmap_compose. rewrite <-(list_fmap_id g) at 2.
  apply list_fmap_ext. intros _ ts _. simpl.
  rewrite <-list_fmap_compose. rewrite <-(list_fmap_id ts) at 2.
  apply list_fmap_ext. intros _ t _. apply swap_swap.
Qed.

Lemma visited_lookup {A} (f : A → A) (ts : list A) c :
  ((f <$> take c ts) ++ drop c ts) !! c = ts !! c.
Proof.
  revert c. induction ts as [|t ts IH]; intros [|c]; simpl; done.
Qed.

Lemma visited_step {A} (f : A → A) (ts : list A) c t :
  ts !! c = Some t →
  <[c := f t]> ((f <$> take c ts) ++ drop c ts) = (f <$> take (S c) ts) ++ drop (S c) ts.
Proof.
  revert c. induction ts as [|t' ts IH]; intros [|c] Hc; simplify_eq/=; try done.
  f_equal. by apply IH.
Qed.

Lemma visited_length {A} (f : A → A) (ts : list A) c :
  length ((f <$> take c ts) ++ drop c ts) = length ts.
Proof. by rewrite length_app, length_fmap, <-length_app, take_drop. Qed.

Lemma setitem2_at σ b L (r c : nat) l cur v :
  outers σ !! b = Some L → L !! r = Some l → rows σ !! l = Some cur →
  (c < length cur)%nat →
  setitem2 b (Z.of_nat r) (Z.of_nat c) v σ =
    Ok () (Store (outers σ) (<[l := <[c := v]> cur]> (rows σ))).
Proof.
  intros Hb Hl Hcur Hc.
  unfold setitem2, getrow, load_outer, bind. rewrite Hb. simpl.
  rewrite (py_index_of_nat _ _ _ Hl). simpl.
  unfold load_row. rewrite Hcur. simpl.
  unfold py_setitem. by rewrite py_norm_of_nat.
Qed.

Lemma invert_tile_at σ b L (r c : nat) l cur tile :
  outers σ !! b = Some L → L !! r = Some l → rows σ !! l = Some cur →
  cur !! c = Some tile →
  invert_tile b r c tile σ =
    Ok () (Store (outers σ) (<[l := <[c := swap tile]> cur]> (rows σ))).
Proof.
  intros Hb Hl Hcur Hc.
  assert (c < length cur)%nat by (by eapply lookup_lt_Some).
  unfold invert_tile, swap. repeat case_bool_decide; simplify_eq.
  - by apply setitem2_at with (L := L).
  - by apply setitem2_at with (L := L).
  - unfold ret. destruct σ as [os rs]. simpl in *. f_equal.
    rewrite list_insert_id by done. by rewrite insert_id.
Qed.

Lemma invert_row σ b L (r : nat) l ts :
  outers σ !! b = Some L → L !! r = Some l → rows σ !! l = Some ts →
  ∃ σ', for_in (Rt := Empty_set) (load_row l)
          (λ c tile _, invert_tile b r c tile;;; ret (inl ())) () σ = Ok (inl ()) σ' ∧
        outers σ' = outers σ ∧
        rows σ' = <[l := swap <$> ts]> (rows σ).
Proof.
  intros Hb Hl Hts.
  set (Inv := λ (c : nat) (_ : unit) (σ' : store),
    outers σ' = outers σ ∧
    rows σ' = <[l := (swap <$> take c ts) ++ drop c ts]> (rows σ)).
  destruct (for_in_inv (Rt := Empty_set) Inv (load_row l)
    (λ c tile _, invert_tile b r c tile;;; ret (inl ())) ts () σ)
    as ([] & σ' & Hrun & Ho & Hr).
  - by apply load_row_lookup.
  - intros c [] σ' [Ho Hr]. eexists. split.
    + apply load_row_lookup. rewrite Hr. apply lookup_insert_eq.
    + apply visited_lookup.
  - intros c tile [] σ' [Ho Hr] Hc. eexists (), _. split.
    + erewrite bind_ok; [done|].
      eapply invert_tile_at with (L := L); [by rewrite Ho|done| |].
      * rewrite Hr. apply lookup_insert_eq.
      * by rewrite visited_lookup.
    + split; simpl; [done|]. rewrite Hr, insert_insert_eq.
      by rewrite visited_step.
  - split; [done|]. simpl. by rewrite insert_id.
  - exists σ'. split_and!; [done..|].
    by rewrite Hr, take_ge, drop_ge, app_nil_r.
Qed.

Lemma not_in_take {A} (L : list A) r l :
  NoDup L → L !! r = Some l → l ∉ take r L.
Proof.
  intros Hnd Hl (i & Hi & Hlt)%elem_of_take.
  assert (i = r) by (by apply (NoDup_lookup L i r l)). lia.
Qed.

Lemma invert_rows σ b L G :
  outers σ !! b = Some L → NoDup L →
  Forall2 (λ l ts, rows σ !! l = Some ts) L G →
  ∃ σ', for_in (Rt := Empty_set) (load_outer b) (λ r row _,
          for_in (load_row row)
            (λ c tile _, invert_tile b r c tile;;; ret (inl ())) ()) () σ
          = Ok (inl ()) σ' ∧
        outers σ' = outers σ ∧
        Forall2 (λ l ts, rows σ' !! l = Some ts) L (fmap (M := list) swap <$> G) ∧
        (∀ l, l ∉ L → rows σ' !! l = rows σ !! l).
Proof.
  intros Hb Hnd HF.
  set (Inv := λ (r : nat) (_ : unit) (σ' : store),
    outers σ' = outers σ ∧
    ∀ l, rows σ' !! l =
         if decide (l ∈ take r L) then fmap (M := list) swap <$> rows σ !! l
         else rows σ !! l).
  destruct (for_in_inv (Rt := Empty_set) Inv (load_outer b) (λ r row _,
      for_in (load_row row)
        (λ c tile _, invert_tile b r c tile;;; ret (inl ())) ()) L () σ)
    as ([] & σ' & Hrun & Ho & Hr).
  - unfold load_outer. by rewrite Hb.
  - intros r [] σ' [Ho Hr]. exists L. split; [|done].
    unfold load_outer. by rewrite Ho, Hb.
  - intros r l [] σ' [Ho Hr] Hl.
    destruct (Forall2_lookup_l _ _ _ _ _ HF Hl) as (ts & Hts & Hlts).
    simpl in Hlts.
    destruct (invert_row σ' b L r l ts) as (σ'' & Hrun & Ho' & Hr').
    { by rewrite Ho. }
    { done. }
    { rewrite Hr. rewrite decide_False; [done|]. by apply not_in_take. }
    exists (), σ''. split; [done|]. split; [congruence|].
    intros l'. rewrite Hr', (take_S_r _ _ _ Hl).
    destruct (decide (l' = l)) as [->|Hne].
    + rewrite lookup_insert_eq, decide_True by set_solver.
      by rewrite Hlts.
    + rewrite lookup_insert_ne, Hr by done.
      destruct (decide (l' ∈ take r L)).
      * rewrite decide_True; [done|set_solver].
      * rewrite decide_False; [done|].
        rewrite elem_of_app, list_elem_of_singleton. tauto.
  - split; [done|]. intros l. rewrite decide_False; [done|]. simpl. set_solver.
  - exists σ'. split_and!; [done..| |].
    + rewrite take_ge in Hr by done.
      apply Forall2_fmap_r. apply Forall2_same_length_lookup.
      split; [by eapply Forall2_length|].
      intros i l ts Hl Hts. rewrite Hr.
      rewrite decide_True by (by apply (list_elem_of_lookup_2 L i l)).
      by rewrite (Forall2_lookup_lr _ _ _ _ _ _ HF Hl Hts).
    + intros l Hl. rewrite Hr. rewrite take_ge in * by done.
      by rewrite decide_False.
Qed.

Lemma invert_board_in_place σ b ls g :
  board_at σ b ls g →
  ∃ σ', invert_board b true σ = Ok b σ' ∧
        board_at σ' b (reverse ls) (inverted g) ∧
        touches_only b ls σ σ'.
Proof.
  intros (Hb & Hnd & HF).
  set (σ1 := Store (<[b := reverse ls]> (outers σ)) (rows σ)).
  destruct (invert_rows σ1 b (reverse ls) (reverse g)) as (σ2 & Hrun & Ho & HF2 & Hr).
  { simpl. apply lookup_insert_eq. }
  { by rewrite reverse_Permutation. }
  { by apply Forall2_reverse. }
  exists σ2. split_and!.
  - unfold invert_board. simpl. unfold bind at 1. unfold ret at 1.
    unfold bind at 1. unfold reverse_in_place at 1.
    unfold bind at 1. unfold load_outer at 1. rewrite Hb. simpl.
    unfold store_outer. fold σ1.
    unfold invert_tile in Hrun. by rewrite (bind_ok _ _ _ _ _ Hrun).
  - split_and!.
    + rewrite Ho. simpl. apply lookup_insert_eq.
    + by rewrite reverse_Permutation.
    + done.
  - split.
    + intros o Hne. rewrite Ho. simpl. by rewrite lookup_insert_ne.
    + intros l Hl. rewrite Hr; [done|]. by rewrite elem_of_reverse.
Qed.

(** ** [copy.deepcopy] *)

Lemma fresh_row σ : rows σ !! fresh (dom (rows σ)) = None.
Proof. apply not_elem_of_dom, is_fresh. Qed.

Lemma fresh_outer σ : outers σ !! fresh (dom (outers σ)) = None.
Proof. apply not_elem_of_dom, is_fresh. Qed.

Lemma deepcopy_rows_spec ls : ∀ memo σ g,
  NoDup ls →
  Forall2 (λ l ts, rows σ !! l = Some ts) ls g →
  (∀ l, l ∈ ls → memo !! l = None) →
  ∃ ls' σ', deepcopy_rows ls memo σ = Ok ls' σ' ∧
            outers σ' = outers σ ∧
            rows σ ⊆ rows σ' ∧
            NoDup ls' ∧
            (∀ l, l ∈ ls' → rows σ !! l = None) ∧
            Forall2 (λ l ts, rows σ' !! l = Some ts) ls' g.
Proof.
  induction ls as [|l ls IH]; intros memo σ g Hnd HF Hmemo.
  - apply Forall2_nil_inv_l in HF as ->. exists [], σ. simpl.
    split_and!; try done; try constructor. by intros ? ?%elem_of_nil.
  - apply Forall2_cons_inv_l in HF as (ts & g' & Hl & HF & ->).
    apply NoDup_cons in Hnd as [Hnotin Hnd].
    simpl. rewrite (Hmemo l) by set_solver.
    rewrite (bind_ok _ _ _ _ _ (load_row_lookup _ _ _ Hl)).
    unfold bind at 1. unfold alloc_row at 1.
    set (l' := fresh (dom (rows σ))).
    set (σ1 := Store (outers σ) (<[l' := ts]> (rows σ))).
    assert (rows σ !! l' = None) as Hfresh by apply fresh_row.
    assert (rows σ ⊆ rows σ1) as Hsub by (by apply insert_subseteq).
    destruct (IH (<[l := l']> memo) σ1 g') as (ls' & σ' & Hrun & Ho & Hr & Hnd' & Hnew & HF').
    { done. }
    { eapply Forall2_impl; [exact HF|]. intros x xs Hx. simpl in *.
      eapply lookup_weaken; [exact Hx|exact Hsub]. }
    { intros x Hx. rewrite lookup_insert_ne; [apply Hmemo; set_solver|].
      intros ->. done. }
    rewrite (bind_ok _ _ _ _ _ Hrun).
    exists (l' :: ls'), σ'. split_and!.
    + done.
    + done.
    + by etrans.
    + apply NoDup_cons. split; [|done]. intros Hin.
      specialize (Hnew _ Hin). simpl in Hnew. by rewrite lookup_insert_eq in Hnew.
    + intros x [->|Hx]%elem_of_cons; [done|].
      specialize (Hnew _ Hx). eapply lookup_weaken_None; [exact Hnew|exact Hsub].
    + constructor; [|done].
      eapply lookup_weaken; [|exact Hr]. simpl. apply lookup_insert_eq.
Qed.

Lemma deepcopy_spec σ b ls g :
  board_at σ b ls g →
  ∃ b' ls' σ', deepcopy b σ = Ok b' σ' ∧
               outers σ !! b' = None ∧
               (∀ l, l ∈ ls' → rows σ !! l = None) ∧
               extends σ σ' ∧
               board_at σ' b' ls' g.
Proof.
  intros (Hb & Hnd & HF).
  destruct (deepcopy_rows_spec ls ∅ σ g Hnd HF) as (ls' & σ1 & Hrun & Ho & Hr & Hnd' & Hnew & HF').
  { intros. apply lookup_empty. }
  set (b' := fresh (dom (outers σ1))).
  exists b', ls', (Store (<[b' := ls']> (outers σ1)) (rows σ1)).
  assert (outers σ !! b' = None) as Hfresh.
  { rewrite <-Ho. apply fresh_outer. }
  split_and!.
  - unfold deepcopy, load_outer, bind. rewrite Hb. simpl. by rewrite Hrun.
  - done.
  - done.
  - split; simpl; [|done]. rewrite Ho. by apply insert_subseteq.
  - split_and!; simpl; [apply lookup_insert_eq|done..].
Qed.

Lemma py_norm_wrap i k : py_norm 6 i = Some k → Z.of_nat k = wrap i ∧ -6 ≤ i < 6.
Proof.
  unfold py_norm, wrap. case_cmp; intros; simplify_eq; lia.
Qed.

Lemma py_norm_is_Some i : -6 ≤ i < 6 → py_norm 6 i = Some (Z.to_nat (wrap i)).
Proof.
  intros. unfold py_norm, wrap.
  destruct (Z.ltb_spec i 0).
  - destruct (Z.leb_spec (- i) (Z.of_nat 6)); [|lia]. f_equal. lia.
  - destruct (Z.ltb_spec i (Z.of_nat 6)); [done|lia].
Qed.

Lemma wrap_in_range i : -6 ≤ i < 6 → 0 ≤ wrap i < 6.
Proof. unfold wrap. case_cmp; lia. Qed.

Lemma wrap_id i : 0 ≤ i → wrap i = i.
Proof. unfold wrap. intros. destruct (Z.ltb_spec i 0); [lia|done]. Qed.

Lemma cell_is_Some g r c :
  grid6 g → is_Some (cell g r c) ↔ -6 ≤ r < 6 ∧ -6 ≤ c < 6.
Proof.
  intros [Hlen Hrows]. unfold cell, py_index. rewrite Hlen. split.
  - intros [t Ht].
    destruct (py_norm 6 r) as [i|] eqn:Hi; [|done]. simpl in Ht.
    destruct (g !! i) as [ts|] eqn:Hts; [|done]. simpl in Ht.
    rewrite Forall_lookup in Hrows. rewrite (Hrows _ _ Hts) in Ht.
    destruct (py_norm 6 c) as [k|] eqn:Hk; [|done].
    apply py_norm_wrap in Hi, Hk. lia.
  - intros [Hr Hc]. rewrite (py_norm_is_Some r Hr). simpl.
    pose proof (wrap_in_range r Hr).
    destruct (lookup_lt_is_Some_2 g (Z.to_nat (wrap r))) as [ts Hts]; [lia|].
    rewrite Hts. simpl.
    rewrite Forall_lookup in Hrows. rewrite (Hrows _ _ Hts).
    rewrite (py_norm_is_Some c Hc). simpl.
    pose proof (wrap_in_range c Hc).
    apply lookup_lt_is_Some_2. rewrite (Hrows _ _ Hts). lia.
Qed.

Lemma cell_lookup g r c :
  grid6 g → -6 ≤ r < 6 → -6 ≤ c < 6 →
  cell g r c = ts ← g !! Z.to_nat (wrap r); ts !! Z.to_nat (wrap c).
Proof.
  intros [Hlen Hrows] Hr Hc. unfold cell, py_index.
  rewrite Hlen, (py_norm_is_Some r Hr). simpl.
  destruct (g !! Z.to_nat (wrap r)) as [ts|] eqn:Hts; [|done]. simpl.
  rewrite Forall_lookup in Hrows. rewrite (Hrows _ _ Hts).
  by rewrite (py_norm_is_Some c Hc).
Qed.

Lemma cell_wrap g r c :
  grid6 g → -6 ≤ r < 6 → -6 ≤ c < 6 →
  cell g (wrap r) (wrap c) = cell g r c.
Proof.
  intros Hg Hr Hc.
  pose proof (wrap_in_range r Hr). pose proof (wrap_in_range c Hc).
  rewrite !(cell_lookup g) by (done || lia).
  by rewrite !(wrap_id (wrap _)) by lia.
Qed.

Lemma grid6_set_cell g r c v : grid6 g → grid6 (set_cell g r c v).
Proof.
  intros [Hlen Hrows]. unfold set_cell.
  destruct (py_norm (length g) r) as [i|]; [|done].
  destruct (g !! i) as [ts|] eqn:Hts; [|done].
  unfold py_setitem.
  destruct (py_norm (length ts) c) as [k|]; [|done]. simpl.
  split.
  - by rewrite length_insert.
  - apply Forall_insert; [done|]. rewrite length_insert.
    rewrite Forall_lookup in Hrows. eauto.
Qed.

Lemma cell_set_cell g r c v r' c' :
  grid6 g → -6 ≤ r < 6 → -6 ≤ c < 6 → 0 ≤ r' < 6 → 0 ≤ c' < 6 →
  cell (set_cell g r c v) r' c' =
    if decide ((r', c') = (wrap r, wrap c)) then Some v else cell g r' c'.
Proof.
  intros Hg Hr Hc Hr' Hc'.
  pose proof (grid6_set_cell g r c v Hg) as Hg'.
  rewrite !(cell_lookup _ r' c') by (done || lia).
  rewrite !wrap_id by lia.
  destruct Hg as [Hlen Hrows]. unfold set_cell.
  rewrite Hlen, (py_norm_is_Some r Hr).
  pose proof (wrap_in_range r Hr). pose proof (wrap_in_range c Hc).
  destruct (lookup_lt_is_Some_2 g (Z.to_nat (wrap r))) as [ts Hts]; [lia|].
  rewrite Hts. unfold py_setitem.
  rewrite Forall_lookup in Hrows. rewrite (Hrows _ _ Hts).
  rewrite (py_norm_is_Some c Hc). simpl.
  destruct (decide (Z.to_nat r' = Z.to_nat (wrap r))) as [Heq|Hne].
  - rewrite Heq, list_lookup_insert_eq by lia. simpl. rewrite Hts. simpl.
    destruct (decide (Z.to_nat c' = Z.to_nat (wrap c))) as [Heq'|Hne'].
    + rewrite Heq', list_lookup_insert_eq by (rewrite (Hrows _ _ Hts); lia).
      rewrite decide_True; [done|]. f_equal; lia.
    + rewrite list_lookup_insert_ne by done.
      rewrite decide_False; [done|]. intros [= ??]. lia.
  - rewrite list_lookup_insert_ne by done.
    rewrite decide_False; [done|]. intros [= ??]. lia.
Qed.

Lemma grid6_moved g src dst : grid6 g → grid6 (moved g src dst).
Proof. intros. unfold moved. by do 2 apply grid6_set_cell. Qed.

Lemma grid6_state_after g src dst : grid6 g → grid6 (state_after g src dst).
Proof. intros. unfold state_after. case_bool_decide; [by apply grid6_moved|done]. Qed.

Lemma legal_distinct g src dst :
  grid6 g → legal g src dst → (wrap src.1, wrap src.2) ≠ dst.
Proof.
  intros Hg (Hsrc & [Hdr Hdc] & _ & _ & Hstraight & Hdiag) Heq.
  assert (-6 ≤ src.1 < 6 ∧ -6 ≤ src.2 < 6) as [??].
  { apply (cell_is_Some g); [done|]. by rewrite Hsrc. }
  destruct dst as [dr dc]. simplify_eq/=.
  rewrite cell_wrap in Hstraight, Hdiag by done.
  unfold BLACK_PAWN, EMPTY in *.
  destruct (decide (wrap src.2 = src.2)) as [He|Hne].
  - specialize (Hstraight He). congruence.
  - by apply Hdiag.
Qed.

Lemma cell_moved g src dst r c :
  grid6 g → legal g src dst → 0 ≤ r < 6 → 0 ≤ c < 6 →
  cell (moved g src dst) r c =
    if decide ((r, c) = dst) then Some BLACK_PAWN
    else if decide ((r, c) = (wrap src.1, wrap src.2)) then Some EMPTY
    else cell g r c.
Proof.
  intros Hg Hlegal Hr Hc.
  pose proof Hlegal as (Hsrc & [Hdr Hdc] & _).
  assert (-6 ≤ src.1 < 6 ∧ -6 ≤ src.2 < 6) as [??].
  { apply (cell_is_Some g); [done|]. by rewrite Hsrc. }
  unfold moved, ROW, COL in *.
  rewrite cell_set_cell by (lia || by apply grid6_set_cell).
  rewrite !wrap_id by lia.
  destruct dst as [dr dc]; simpl in *.
  case_decide; [done|].
  by rewrite cell_set_cell by (lia || done).
Qed.

(** ** [state_change] and the copies *)

Lemma extends_touches σ σ1 σ2 b' ls' :
  extends σ σ1 → touches_only b' ls' σ1 σ2 →
  outers σ !! b' = None → (∀ l, l ∈ ls' → rows σ !! l = None) →
  extends σ σ2.
Proof.
  intros [Ho Hr] [Ho' Hr'] Hb' Hls'. split; apply map_subseteq_spec.
  - intros o x Hx. rewrite Ho'.
    + eapply lookup_weaken; [exact Hx|exact Ho].
    + intros ->. congruence.
  - intros l x Hx. rewrite Hr'.
    + eapply lookup_weaken; [exact Hx|exact Hr].
    + intros Hl. specialize (Hls' _ Hl). congruence.
Qed.

Lemma state_change_in_place σ b ls g src dst :
  board_at σ b ls g → grid6 g → is_Some (cell g src.1 src.2) →
  ∃ σ', state_change b src dst true σ = Ok b σ' ∧
        board_at σ' b ls (state_after g src dst) ∧
        touches_only b ls σ σ' ∧
        (¬ legal g src dst → σ' = σ).
Proof.
  intros Hb Hg [t Ht]. unfold state_change, state_after. simpl.
  unfold bind at 1. unfold ret at 1.
  unfold bind at 1. rewrite (is_valid_move_spec σ b g) by (done || by exists ls).
  rewrite Ht.
  case_bool_decide as Hlegal.
  - destruct src as [sr sc], dst as [dr dc]. simpl in *.
    destruct (setitem2_spec σ b ls g sr sc "_" Hb) as (σ1 & Hset1 & Hb1 & Ht1).
    { by rewrite Ht. }
    destruct (setitem2_spec σ1 b ls (set_cell g sr sc "_") dr dc "B" Hb1)
      as (σ2 & Hset2 & Hb2 & Ht2).
    { destruct Hlegal as (_ & [??] & _). unfold ROW, COL in *. simpl in *.
      apply cell_in_grid; [by apply grid6_set_cell|lia..]. }
    exists σ2. split_and!.
    + erewrite bind_ok; [done|]. erewrite bind_ok; [exact Hset2|exact Hset1].
    + done.
    + by eapply touches_only_trans.
    + done.
  - exists σ. split_and!; [done|done|apply touches_only_refl|done].
Qed.

Lemma state_change_raises σ b g src dst :
  is_board σ b g → grid6 g → cell g src.1 src.2 = None →
  state_change b src dst true σ = Raise IndexError σ.
Proof.
  intros Hb Hg Hnone. unfold state_change. simpl.
  unfold bind at 1. unfold ret at 1.
  unfold bind at 1. rewrite (is_valid_move_spec σ b g) by done.
  by rewrite Hnone.
Qed.

Lemma state_change_copy σ b ls g src dst :
  board_at σ b ls g → grid6 g → is_Some (cell g src.1 src.2) →
  ∃ b' ls' σ', state_change b src dst false σ = Ok b' σ' ∧
               outers σ !! b' = None ∧
               (∀ l, l ∈ ls' → rows σ !! l = None) ∧
               extends σ σ' ∧
               board_at σ' b' ls' (state_after g src dst).
Proof.
  intros Hb Hg Hsrc.
  destruct (deepcopy_spec σ b ls g Hb) as (b' & ls' & σ1 & Hcopy & Hb' & Hls' & Hext & Hb1).
  destruct (state_change_in_place σ1 b' ls' g src dst Hb1 Hg Hsrc)
    as (σ2 & Hrun & Hb2 & Ht & _).
  exists b', ls', σ2. split_and!; [|done|done| |done].
  - unfold state_change in *. simpl in *.
    rewrite (bind_ok _ _ _ _ _ Hcopy).
    unfold bind at 1 in Hrun. unfold ret at 1 in Hrun. done.
  - by eapply extends_touches.
Qed.

Lemma state_change_copy_raises σ b ls g src dst :
  board_at σ b ls g → grid6 g → cell g src.1 src.2 = None →
  ∃ σ', state_change b src dst false σ = Raise IndexError σ' ∧ extends σ σ'.
Proof.
  intros Hb Hg Hnone.
  destruct (deepcopy_spec σ b ls g Hb) as (b' & ls' & σ1 & Hcopy & Hb' & Hls' & Hext & Hb1).
  exists σ1. split; [|done].
  unfold state_change. simpl. rewrite (bind_ok _ _ _ _ _ Hcopy).
  unfold bind at 1. rewrite (is_valid_move_spec σ1 b' g) by (done || by exists ls').
  by rewrite Hnone.
Qed.

Lemma invert_board_copy σ b ls g :
  board_at σ b ls g →
  ∃ b' ls' σ', invert_board b false σ = Ok b' σ' ∧
               outers σ !! b' = None ∧
               (∀ l, l ∈ ls' → rows σ !! l = None) ∧
               extends σ σ' ∧
               board_at σ' b' ls' (inverted g).
Proof.
  intros Hb.
  destruct (deepcopy_spec σ b ls g Hb) as (b' & ls' & σ1 & Hcopy & Hb' & Hls' & Hext & Hb1).
  destruct (invert_board_in_place σ1 b' ls' g Hb1) as (σ2 & Hrun & Hb2 & Ht).
  exists b', (reverse ls'), σ2. split_and!; [| done | | | done].
  - unfold invert_board in *. simpl in *.
    rewrite (bind_ok _ _ _ _ _ Hcopy).
    unfold bind at 1 in Hrun. unfold ret at 1 in Hrun. done.
  - intros l Hl. apply Hls'. by apply elem_of_reverse.
  - by eapply extends_touches.
Qed.

(** ** The end of the game, cell by cell *)

Lemma cell_nat (g : grid) (r c : nat) :
  grid6 g → (r < 6)%nat → (c < 6)%nat →
  cell g (Z.of_nat r) (Z.of_nat c) = ts ← g !! r; ts !! c.
Proof.
  intros Hg Hr Hc. rewrite cell_lookup by (done || lia).
  by rewrite !wrap_id, !Nat2Z.id by lia.
Qed.

Lemma reached_true t g r :
  grid6 g → 0 ≤ r < 6 →
  reached t g r = true ↔ ∃ c, 0 ≤ c < 6 ∧ cell g r c = Some t.
Proof.
  intros Hg Hr. unfold reached.
  destruct (py_index_grid6 g r Hg Hr) as (ts & Hts & Hlen).
  unfold cell. rewrite Hts. simpl. rewrite existsb_exists. split.
  - intros (x & Hin & Hx). apply bool_decide_eq_true in Hx as ->.
    apply list_elem_of_In, list_elem_of_lookup in Hin as [c Hc].
    exists (Z.of_nat c). pose proof (lookup_lt_Some _ _ _ Hc).
    split; [lia|]. by apply py_index_of_nat.
  - intros (c & Hc & Hcell). exists t. split; [|by apply bool_decide_eq_true].
    unfold py_index in Hcell. rewrite py_norm_nonneg in Hcell by lia.
    simpl in Hcell. apply list_elem_of_In. by eapply list_elem_of_lookup_2.
Qed.

Lemma count_tile_pos t g :
  grid6 g →
  count_tile t g ≠ 0%nat ↔ ∃ r c, in_grid (r, c) ∧ cell g r c = Some t.
Proof.
  intros Hg. unfold count_tile. split.
  - intros Hne.
    destruct (filter (λ x, x = t) (concat g)) as [|x xs] eqn:Hf; [done|].
    assert (x ∈ filter (λ x, x = t) (concat g)) as Hin by (rewrite Hf; left).
    apply list_elem_of_filter in Hin as [-> Hin].
    apply list_elem_of_In, in_concat in Hin as (ts & Hts & Hin).
    apply list_elem_of_In, list_elem_of_lookup in Hts as [r Hr].
    apply list_elem_of_In, list_elem_of_lookup in Hin as [c Hc].
    destruct Hg as [Hlen Hrows].
    pose proof (lookup_lt_Some _ _ _ Hr).
    pose proof (lookup_lt_Some _ _ _ Hc) as Hclt.
    rewrite Forall_lookup in Hrows. rewrite (Hrows _ _ Hr) in Hclt.
    exists (Z.of_nat r), (Z.of_nat c). split.
    + unfold in_grid, ROW, COL. simpl. lia.
    + by apply cell_of_lookup with (ts := ts).
  - intros (r & c & [Hr Hc] & Hcell). unfold ROW, COL in *. simpl in *.
    rewrite cell_lookup, !wrap_id in Hcell by (done || lia).
    destruct (g !! Z.to_nat r) as [ts|] eqn:Hts; [|done]. simpl in Hcell.
    assert (t ∈ filter (λ x, x = t) (concat g)) as Hin.
    { apply list_elem_of_filter. split; [done|].
      apply list_elem_of_In, in_concat. exists ts. split.
      - apply list_elem_of_In. by eapply list_elem_of_lookup_2.
      - apply list_elem_of_In. by eapply list_elem_of_lookup_2. }
    intros Hz. apply nil_length_inv in Hz. rewrite Hz in Hin.
    by apply elem_of_nil in Hin.
Qed.

Lemma game_over_true g :
  grid6 g →
  game_over g = true ↔
    (∃ c, 0 ≤ c < 6 ∧ cell g 5 c = Some BLACK_PAWN) ∨
    (∃ c, 0 ≤ c < 6 ∧ cell g 0 c = Some WHITE_PAWN) ∨
    count_tile BLACK_PAWN g = 0%nat ∨
    count_tile WHITE_PAWN g = 0%nat.
Proof.
  intros Hg. unfold game_over.
  rewrite !orb_true_iff, !Nat.eqb_eq.
  rewrite <-(reached_true "B" g 5), <-(reached_true "W" g 0) by (done || lia).
  unfold BLACK_PAWN, WHITE_PAWN. tauto.
Qed.

(** While the game is not over some black pawn can move: the pawn
    furthest down the board has no black pawn on the row in front of it
    and at least one diagonal inside the grid. *)
Lemma first_move_exists g :
  grid6 g → game_over g = false → is_Some (first_move g).
Proof.
  intros Hg Hover.
  destruct (first_move g) as [mv|] eqn:Hfirst; [by eexists|exfalso].
  unfold game_over in Hover. rewrite !orb_false_iff in Hover.
  destruct Hover as [[[Hlast _] Hcount] _].
  apply Nat.eqb_neq in Hcount.
  apply count_tile_pos in Hcount as (r0 & c0 & [Hr0 Hc0] & Hcell0); [|done].
  unfold ROW, COL in *. simpl in *.
  assert (∀ (r c : nat) d, (r < 6)%nat → (c < 6)%nat →
            cell g (Z.of_nat r) (Z.of_nat c) = Some "B" →
            d ∈ [-1; 0; 1] →
            ¬ legal g (Z.of_nat r, Z.of_nat c) (Z.of_nat r + 1, Z.of_nat c + d))
    as Hstuck.
  { intros r c d Hr Hc Hcell Hd Hlegal.
    rewrite cell_nat in Hcell by done.
    destruct (g !! r) as [ts|] eqn:Hts; [|done]. simpl in Hcell.
    unfold first_move in Hfirst.
    pose proof (proj1 (first_some_None _ _ _) Hfirst r ts Hts) as Hrow.
    cbv beta in Hrow.
    pose proof (proj1 (first_some_None _ _ _) Hrow c "B" Hcell) as Htile.
    cbv beta in Htile.
    rewrite bool_decide_eq_false_2 in Htile by (by intros Hne; apply Hne).
    apply list_elem_of_lookup in Hd as [k Hk].
    pose proof (proj1 (first_some_None _ _ _) Htile k d Hk) as Htry.
    change (0 + r)%nat with r in Htry. change (0 + c)%nat with c in Htry.
    unfold try_from in Htry. by rewrite bool_decide_eq_true_2 in Htry. }
  assert (∀ k (r : nat) (c : Z), (r + k = 5)%nat → 0 ≤ c < 6 →
            cell g (Z.of_nat r) c = Some "B" → False) as Hdown.
  { induction k as [|k IH]; intros r c Hrk Hc Hcell.
    - replace (Z.of_nat r) with 5 in Hcell by lia.
      assert (reached "B" g 5 = true) as Hcontra; [|congruence].
      apply reached_true; [done|lia|]. by exists c.
    - set (d := if decide (c = 5) then -1 else 1).
      assert (d ∈ [-1; 0; 1]) as Hd by (unfold d; case_decide; repeat constructor).
      assert (0 ≤ c + d < 6 ∧ c + d ≠ c ∧ Z.abs (c + d - c) ≤ 1) as (Hcd & Hne & Habs)
        by (unfold d; case_decide; lia).
      destruct (decide (cell g (Z.of_nat (S r)) (c + d) = Some "B")) as [Hfront|Hfree].
      + apply (IH (S r) (c + d)); [lia|done|done].
      + apply (Hstuck r (Z.to_nat c) d); [lia|lia|by rewrite Z2Nat.id by lia|done|].
        rewrite Z2Nat.id by lia.
        unfold legal, in_grid, ROW, COL, BLACK_PAWN, EMPTY. simpl.
        replace (Z.of_nat r + 1) with (Z.of_nat (S r)) by lia.
        split_and!; try done; lia. }
  apply (Hdown (5 - Z.to_nat r0)%nat (Z.to_nat r0) c0); [lia|done|].
  by rewrite Z2Nat.id by lia.
Qed.

Lemma offset_lookup d : -1 ≤ d ≤ 1 → [-1; 0; 1] !! Z.to_nat (d + 1) = Some d.
Proof.
  intros. assert (d = -1 ∨ d = 0 ∨ d = 1) as [->|[->| ->]] by lia; done.
Qed.

Lemma offset_lookup_inv k d : [-1; 0; 1] !! k = Some d → -1 ≤ d ≤ 1 ∧ k = Z.to_nat (d + 1).
Proof.
  destruct k as [|[|[|k]]]; simpl; intros; simplify_eq; lia.
Qed.

Lemma pawn_None g (r c : nat) tile :
  (if bool_decide (tile ≠ "B") then None
   else first_some (λ _ d, try_from g r c d) 0 [-1; 0; 1]) = None →
  cell g (Z.of_nat r) (Z.of_nat c) = Some tile →
  ∀ d, -1 ≤ d ≤ 1 →
       ¬ legal g (Z.of_nat r, Z.of_nat c) (Z.of_nat r + 1, Z.of_nat c + d).
Proof.
  intros Hnone Hcell d Hd Hlegal.
  pose proof Hlegal as (Hsrc & _). simpl in Hsrc.
  rewrite Hcell in Hsrc. unfold BLACK_PAWN in Hsrc. simplify_eq.
  rewrite bool_decide_eq_false_2 in Hnone by (by intros Hne; apply Hne).
  pose proof (proj1 (first_some_None _ _ _) Hnone _ d (offset_lookup d Hd)) as Htry.
  cbv beta in Htry.
  unfold try_from in Htry. by rewrite bool_decide_eq_true_2 in Htry.
Qed.

Lemma row_None g (r : nat) row :
  grid6 g → g !! r = Some row →
  first_some (λ c tile,
    if bool_decide (tile ≠ "B") then None
    else first_some (λ _ d, try_from g r c d) 0 [-1; 0; 1]) 0 row = None →
  ∀ c d, 0 ≤ c < 6 → -1 ≤ d ≤ 1 →
         ¬ legal g (Z.of_nat r, c) (Z.of_nat r + 1, c + d).
Proof.
  intros Hg Hrow Hnone c d Hc Hd Hlegal.
  pose proof (lookup_lt_Some _ _ _ Hrow) as Hr. rewrite (proj1 Hg) in Hr.
  pose proof Hlegal as (Hsrc & _). simpl in Hsrc.
  assert (c = Z.of_nat (Z.to_nat c)) as Hcn by lia.
  rewrite Hcn in Hsrc, Hlegal.
  pose proof Hsrc as Htile.
  rewrite cell_nat, Hrow in Htile by (done || lia). simpl in Htile.
  pose proof (proj1 (first_some_None _ _ _) Hnone _ _ Htile) as Hpawn.
  cbv beta in Hpawn. change (0 + Z.to_nat c)%nat with (Z.to_nat c) in Hpawn.
  by apply (pawn_None g r (Z.to_nat c) "B" Hpawn Hsrc d Hd).
Qed.

Lemma first_move_None g :
  grid6 g → first_move g = None →
  ∀ src dst, in_grid src → ¬ legal g src dst.
Proof.
  intros Hg Hnone [sr sc] [dr dc] [Hsr Hsc] Hlegal.
  unfold ROW, COL in *. simpl in *.
  pose proof Hlegal as (Hsrc & _ & Hdr & Hd & _). simpl in *.
  destruct (lookup_lt_is_Some_2 g (Z.to_nat sr)) as [row Hrow].
  { rewrite (proj1 Hg). lia. }
  pose proof (proj1 (first_some_None _ _ _) Hnone _ _ Hrow) as Hr.
  cbv beta in Hr. change (0 + Z.to_nat sr)%nat with (Z.to_nat sr) in Hr.
  apply (row_None g (Z.to_nat sr) row Hg Hrow Hr sc (dc - sc)); [lia..|].
  rewrite Z2Nat.id by lia. subst dr.
  by replace (sc + (dc - sc)) with dc by lia.
Qed.

Lemma first_move_Some g mv :
  grid6 g → first_move g = Some mv → scan_first g mv.
Proof.
  intros Hg Hsome. unfold first_move in Hsome.
  apply first_some_Some in Hsome as (r & row & Hrow & Hsome & Hrows).
  apply first_some_Some in Hsome as (c & tile & Htile & Hsome & Hcells).
  change (0 + r)%nat with r in *. change (0 + c)%nat with c in *.
  case_bool_decide as HB; [done|].
  apply first_some_Some in Hsome as (k & d & Hk & Hsome & Hoffs).
  apply offset_lookup_inv in Hk as [Hd ->].
  unfold try_from in Hsome. case_bool_decide as Hlegal; [|done].
  injection Hsome as <-.
  pose proof (lookup_lt_Some _ _ _ Hrow) as Hr. rewrite (proj1 Hg) in Hr.
  pose proof (lookup_lt_Some _ _ _ Htile) as Hc.
  rewrite (Forall_lookup_1 _ _ _ _ (proj2 Hg) Hrow) in Hc.
  exists (Z.of_nat r), (Z.of_nat c), d. split_and!; [|lia|lia|reflexivity|exact Hlegal|].
  { unfold in_grid, ROW, COL. simpl. lia. }
  intros r' c' d' [Hr' Hc'] Hd' Hbefore.
  unfold scan_before, ROW, COL in *. simpl in *.
  destruct Hbefore as [Hlt|[-> [Hlt|[-> Hlt]]]]; simpl in *.
  - destruct (lookup_lt_is_Some_2 g (Z.to_nat r')) as [row' Hrow'].
    { rewrite (proj1 Hg). lia. }
    specialize (Hrows (Z.to_nat r') row' ltac:(lia) Hrow').
    change (0 + Z.to_nat r')%nat with (Z.to_nat r') in Hrows.
    pose proof (row_None g _ row' Hg Hrow' Hrows c' d' Hc' Hd') as Hno.
    by rewrite Z2Nat.id in Hno by lia.
  - intros Hl. pose proof Hl as (Hsrc & _). simpl in Hsrc.
    assert (c' = Z.of_nat (Z.to_nat c')) as Hcn by lia.
    rewrite Hcn in Hsrc, Hl.
    pose proof Hsrc as Htile'.
    rewrite cell_nat, Hrow in Htile' by (done || lia). simpl in Htile'.
    specialize (Hcells (Z.to_nat c') _ ltac:(lia) Htile').
    change (0 + Z.to_nat c')%nat with (Z.to_nat c') in Hcells.
    by apply (pawn_None g r (Z.to_nat c') "B" Hcells Hsrc d' Hd').
  - intros Hl.
    specialize (Hoffs (Z.to_nat (d' + 1)) d' ltac:(lia) (offset_lookup d' Hd')).
    cbv beta in Hoffs. unfold try_from in Hoffs.
    by rewrite bool_decide_eq_true_2 in Hoffs.
Qed.

Lemma first_move_legal g mv :
  grid6 g → first_move g = Some mv → in_grid mv.1 ∧ legal g mv.1 mv.2.
Proof.
  intros Hg Hsome.
  destruct (first_move_Some g mv Hg Hsome) as (r & c & d & Hin & _ & -> & Hlegal & _).
  done.
Qed.

(** ** Fresh boards and snapshots *)

Lemma alloc_rows_spec g : ∀ σ,
  ∃ ls σ', alloc_rows g σ = Ok ls σ' ∧
           outers σ' = outers σ ∧
           rows σ ⊆ rows σ' ∧
           NoDup ls ∧
           (∀ l, l ∈ ls → rows σ !! l = None) ∧
           Forall2 (λ l ts, rows σ' !! l = Some ts) ls g.
Proof.
  induction g as [|ts g IH]; intros σ.
  - exists [], σ. simpl. split_and!; try done; try constructor.
    by intros ? ?%elem_of_nil.
  - simpl. unfold bind at 1. unfold alloc_row at 1.
    set (l := fresh (dom (rows σ))).
    set (σ1 := Store (outers σ) (<[l := ts]> (rows σ))).
    assert (rows σ !! l = None) as Hfresh by apply fresh_row.
    assert (rows σ ⊆ rows σ1) as Hsub by (by apply insert_subseteq).
    destruct (IH σ1) as (ls & σ' & Hrun & Ho & Hr & Hnd & Hnew & HF).
    rewrite (bind_ok _ _ _ _ _ Hrun).
    exists (l :: ls), σ'. split_and!.
    + done.
    + done.
    + by etrans.
    + apply NoDup_cons. split; [|done]. intros Hin.
      specialize (Hnew _ Hin). simpl in Hnew. by rewrite lookup_insert_eq in Hnew.
    + intros x [->|Hx]%elem_of_cons; [done|].
      specialize (Hnew _ Hx). eapply lookup_weaken_None; [exact Hnew|exact Hsub].
    + constructor; [|done].
      eapply lookup_weaken; [|exact Hr]. simpl. apply lookup_insert_eq.
Qed.

Lemma generate_init_state_spec σ :
  ∃ b ls σ', generate_init_state σ = Ok b σ' ∧
             outers σ !! b = None ∧
             (∀ l, l ∈ ls → rows σ !! l = None) ∧
             extends σ σ' ∧
             board_at σ' b ls init_grid.
Proof.
  destruct (alloc_rows_spec init_grid σ) as (ls & σ1 & Hrun & Ho & Hr & Hnd & Hnew & HF).
  set (b := fresh (dom (outers σ1))).
  exists b, ls, (Store (<[b := ls]> (outers σ1)) (rows σ1)).
  assert (outers σ !! b = None) as Hfresh.
  { rewrite <-Ho. apply fresh_outer. }
  split_and!.
  - unfold generate_init_state. by rewrite (bind_ok _ _ _ _ _ Hrun).
  - done.
  - done.
  - split; simpl; [|done]. rewrite Ho. by apply insert_subseteq.
  - split_and!; simpl; [apply lookup_insert_eq|done..].
Qed.

Lemma init_grid6 : grid6 init_grid.
Proof. split; [done|]. repeat constructor. Qed.

Lemma load_rows_spec σ ls g :
  Forall2 (λ l ts, rows σ !! l = Some ts) ls g →
  load_rows ls σ = Ok g σ.
Proof.
  induction 1 as [|l ts ls g Hl _ IH]; simpl; [done|].
  rewrite (bind_ok _ _ _ _ _ (load_row_lookup _ _ _ Hl)).
  by rewrite (bind_ok _ _ _ _ _ IH).
Qed.

Lemma snapshot_spec σ b g : is_board σ b g → snapshot b σ = Ok g σ.
Proof.
  intros Hb. destruct (load_outer_board _ _ _ Hb) as (ls & Hload & _ & _ & HF).
  unfold snapshot. rewrite (bind_ok _ _ _ _ _ Hload). by apply load_rows_spec.
Qed.

Lemma is_board_inj σ b g g' : is_board σ b g → is_board σ b g' → g = g'.
Proof.
  intros H1 H2. apply snapshot_spec in H1, H2. congruence.
Qed.

Lemma init_is_board : is_board init_store init_board init_grid.
Proof.
  destruct (generate_init_state_spec empty_store) as (b & ls & σ' & Hgen & _ & _ & _ & Hb).
  unfold init_store, init_board. rewrite Hgen. by exists ls.
Qed.

(** * The properties of the board model and of the driver *)

(** C1: on a fully populated 6x6 board and for a source inside the grid,
    [is_valid_move] returns a boolean, and that boolean is true exactly
    when the source cell holds a black pawn, the destination is inside
    the grid, one row further, at most one column aside, empty when the
    move is straight and not a black pawn when it is diagonal. *)
Theorem is_valid_move_iff σ b g src dst :
  is_board σ b g → grid6 g → in_grid src →
  ∃ v, is_valid_move b src dst σ = Ok v σ ∧
       (v = true ↔
          cell g src.1 src.2 = Some BLACK_PAWN ∧
          (0 ≤ dst.1 < ROW ∧ 0 ≤ dst.2 < COL) ∧
          dst.1 = src.1 + 1 ∧
          Z.abs (dst.2 - src.2) ≤ 1 ∧
          (dst.2 = src.2 → cell g dst.1 dst.2 = Some EMPTY) ∧
          (dst.2 ≠ src.2 → cell g dst.1 dst.2 ≠ Some BLACK_PAWN)).
Proof.
  intros Hb Hg [Hr Hc]. unfold ROW, COL in Hr, Hc.
  destruct (cell_in_grid g src.1 src.2 Hg Hr Hc) as [t Ht].
  exists (bool_decide (legal g src dst)). split.
  - rewrite (is_valid_move_spec σ b g) by done. by rewrite Ht.
  - rewrite bool_decide_eq_true. reflexivity.
Qed.

Lemma is_valid_move_iff_witness :
  ∃ v, is_valid_move init_board (1, 0) (2, 0) init_store = Ok v init_store ∧
       (v = true ↔ legal init_grid (1, 0) (2, 0)).
Proof.
  apply (is_valid_move_iff init_store init_board init_grid (1, 0) (2, 0)).
  - apply init_is_board.
  - apply init_grid6.
  - unfold in_grid, ROW, COL. simpl. lia.
Defined.

(** C9: on a fully populated 6x6 board [is_valid_move] returns a boolean
    for every source inside the grid and every destination whatever; a
    source whose row or column is not an index of a list of length 6
    makes it raise [IndexError], the source cell being read first and
    unguarded. *)
Theorem is_valid_move_total σ b g src dst :
  is_board σ b g → grid6 g →
  (in_grid src → ∃ v, is_valid_move b src dst σ = Ok v σ) ∧
  (¬ (-6 ≤ src.1 < 6 ∧ -6 ≤ src.2 < 6) →
     is_valid_move b src dst σ = Raise IndexError σ).
Proof.
  intros Hb Hg. rewrite (is_valid_move_spec σ b g) by done. split.
  - intros [Hr Hc]. unfold ROW, COL in Hr, Hc.
    destruct (cell_in_grid g src.1 src.2 Hg Hr Hc) as [t ->]. by eexists.
  - intros Hout. destruct (cell g src.1 src.2) eqn:Hcell; [|done].
    exfalso. apply Hout. apply (cell_is_Some g); [done|]. by rewrite Hcell.
Qed.

Lemma is_valid_move_total_witness :
  (in_grid (0, 0) →
     ∃ v, is_valid_move init_board (0, 0) (7, -3) init_store = Ok v init_store) ∧
  (¬ (-6 ≤ 6 < 6 ∧ -6 ≤ 0 < 6) →
     is_valid_move init_board (6, 0) (7, -3) init_store = Raise IndexError init_store).
Proof.
  split.
  - apply (is_valid_move_total init_store init_board init_grid (0, 0) (7, -3));
      [apply init_is_board|apply init_grid6].
  - apply (is_valid_move_total init_store init_board init_grid (6, 0) (7, -3));
      [apply init_is_board|apply init_grid6].
Defined.

(** C2: when [is_valid_move] accepts the move, [state_change] returns a
    board whose source cell is empty, whose destination cell holds a black
    pawn and whose other cells are those of the input; when it rejects the
    move, the returned board has the cells of the input, and in place the
    store is not written at all. *)
Theorem state_change_effect σ b g src dst in_place :
  is_board σ b g → grid6 g →
  (is_valid_move b src dst σ = Ok true σ →
     ∃ b' σ' g', state_change b src dst in_place σ = Ok b' σ' ∧
       is_board σ' b' g' ∧
       cell g' src.1 src.2 = Some EMPTY ∧
       cell g' dst.1 dst.2 = Some BLACK_PAWN ∧
       ∀ r c, in_grid (r, c) → (r, c) ≠ (wrap src.1, wrap src.2) → (r, c) ≠ dst →
              cell g' r c = cell g r c) ∧
  (is_valid_move b src dst σ = Ok false σ →
     ∃ b' σ', state_change b src dst in_place σ = Ok b' σ' ∧
       is_board σ' b' g ∧
       (in_place = true → b' = b ∧ σ' = σ)).
Proof.
  intros Hb Hg. pose proof Hb as [ls Hat].
  rewrite (is_valid_move_spec σ b g) by done.
  destruct (cell g src.1 src.2) as [t|] eqn:Hsrc; [|by split].
  assert (is_Some (cell g src.1 src.2)) as Hsome by (by rewrite Hsrc).
  assert (∃ b' σ', state_change b src dst in_place σ = Ok b' σ' ∧
            is_board σ' b' (state_after g src dst) ∧
            (in_place = true → b' = b ∧ (¬ legal g src dst → σ' = σ)))
    as (b' & σ' & Hrun & Hb' & Hsame).
  { destruct in_place.
    - destruct (state_change_in_place σ b ls g src dst Hat Hg Hsome)
        as (σ' & Hrun & Hb' & _ & Hsame).
      exists b, σ'. split_and!; [done|by exists ls|done].
    - destruct (state_change_copy σ b ls g src dst Hat Hg Hsome)
        as (b' & ls' & σ' & Hrun & _ & _ & _ & Hb').
      exists b', σ'. split_and!; [done|by exists ls'|done]. }
  unfold state_after in Hb'. split.
  - intros [= Hlegal%bool_decide_eq_true]. rewrite bool_decide_eq_true_2 in Hb' by done.
    exists b', σ', (moved g src dst). split_and!; [done|done|..].
    + pose proof (proj1 (cell_is_Some g src.1 src.2 Hg) Hsome) as [Hr Hc].
      pose proof (wrap_in_range _ Hr). pose proof (wrap_in_range _ Hc).
      rewrite <-(cell_wrap (moved g src dst)) by (done || by apply grid6_moved).
      rewrite cell_moved by done.
      rewrite decide_False by (intros Heq; by apply (legal_distinct g src dst)).
      by rewrite decide_True.
    + pose proof Hlegal as (_ & [Hdr Hdc] & _). unfold ROW, COL in Hdr, Hdc.
      rewrite cell_moved by done.
      rewrite decide_True; [done|by destruct dst].
    + intros r c [Hr Hc] Hnsrc Hndst. unfold ROW, COL in *. simpl in *.
      rewrite cell_moved by done.
      by rewrite !decide_False.
  - intros [= Hillegal%bool_decide_eq_false]. rewrite bool_decide_eq_false_2 in Hb' by done.
    exists b', σ'. split_and!; [done..|].
    intros Hin. destruct (Hsame Hin) as [-> Hσ]. split; [done|by apply Hσ].
Qed.

Lemma state_change_effect_witness :
  (is_valid_move init_board (1, 0) (2, 0) init_store = Ok true init_store ∧
   ∃ b' σ' g', state_change init_board (1, 0) (2, 0) true init_store = Ok b' σ' ∧
     is_board σ' b' g' ∧
     cell g' 1 0 = Some EMPTY ∧
     cell g' 2 0 = Some BLACK_PAWN ∧
     ∀ r c, in_grid (r, c) → (r, c) ≠ (wrap 1, wrap 0) → (r, c) ≠ (2, 0) →
            cell g' r c = cell init_grid r c) ∧
  (is_valid_move init_board (0, 0) (1, 0) init_store = Ok false init_store ∧
   ∃ b' σ', state_change init_board (0, 0) (1, 0) true init_store = Ok b' σ' ∧
     is_board σ' b' init_grid ∧
     (true = true → b' = init_board ∧ σ' = init_store)).
Proof.
  assert (is_valid_move init_board (1, 0) (2, 0) init_store = Ok true init_store)
    as Hvalid by (vm_compute; reflexivity).
  assert (is_valid_move init_board (0, 0) (1, 0) init_store = Ok false init_store)
    as Hinvalid by (vm_compute; reflexivity).
  split; (split; [done|]).
  - apply (proj1 (state_change_effect init_store init_board init_grid (1, 0) (2, 0) true
                    init_is_board init_grid6)).
    exact Hvalid.
  - apply (proj2 (state_change_effect init_store init_board init_grid (0, 0) (1, 0) true
                    init_is_board init_grid6)).
    exact Hinvalid.
Defined.

(** C3: on a fully populated 6x6 board [is_game_over] returns true
    exactly when a black pawn stands on row 5, or a white pawn on row 0,
    or no cell holds a black pawn, or no cell holds a white pawn; on the
    board of [generate_init_state] it returns false. *)
Theorem is_game_over_iff :
  (∀ σ b g, is_board σ b g → grid6 g →
     ∃ v, is_game_over b σ = Ok v σ ∧
          (v = true ↔
             (∃ c, 0 ≤ c < 6 ∧ cell g 5 c = Some BLACK_PAWN) ∨
             (∃ c, 0 ≤ c < 6 ∧ cell g 0 c = Some WHITE_PAWN) ∨
             count_tile BLACK_PAWN g = 0%nat ∨
             count_tile WHITE_PAWN g = 0%nat)) ∧
  (∀ σ, ∃ b σ', generate_init_state σ = Ok b σ' ∧
                is_game_over b σ' = Ok false σ').
Proof.
  split.
  - intros σ b g Hb Hg. exists (game_over g). split.
    + by apply is_game_over_spec.
    + by apply game_over_true.
  - intros σ.
    destruct (generate_init_state_spec σ) as (b & ls & σ' & Hgen & _ & _ & _ & Hb).
    exists b, σ'. split; [done|].
    rewrite (is_game_over_spec σ' b init_grid); [done|by exists ls|apply init_grid6].
Qed.

Lemma is_game_over_iff_witness :
  ∃ v, is_game_over init_board init_store = Ok v init_store ∧
       (v = true ↔
          (∃ c, 0 ≤ c < 6 ∧ cell init_grid 5 c = Some BLACK_PAWN) ∨
          (∃ c, 0 ≤ c < 6 ∧ cell init_grid 0 c = Some WHITE_PAWN) ∨
          count_tile BLACK_PAWN init_grid = 0%nat ∨
          count_tile WHITE_PAWN init_grid = 0%nat).
Proof.
  apply (proj1 is_game_over_iff init_store init_board init_grid).
  - apply init_is_board.
  - apply init_grid6.
Defined.

Lemma accepts_legal σ b g src dst :
  is_board σ b g → grid6 g → in_grid src →
  is_valid_move b src dst σ = Ok true σ ↔ legal g src dst.
Proof.
  intros Hb Hg [Hr Hc]. unfold ROW, COL in Hr, Hc.
  rewrite (is_valid_move_spec σ b g) by done.
  destruct (cell_in_grid g src.1 src.2 Hg Hr Hc) as [t ->].
  split.
  - by intros [= ?%bool_decide_eq_true].
  - intros. by rewrite bool_decide_eq_true_2.
Qed.

(** C4: on a fully populated 6x6 board [generate_rand_move] either
    returns the first move [is_valid_move] accepts, the cells taken in
    row-major order and for each cell the destinations one row down at
    column offsets -1, 0, 1 in that order, or raises
    [ValueError("no valid move")]; it raises exactly when [is_valid_move]
    accepts no move of any black pawn of the board. *)
Theorem generate_rand_move_scan σ b g :
  is_board σ b g → grid6 g →
  ((∃ mv, generate_rand_move b σ = Ok mv σ ∧
          scan_first_of (λ src dst, is_valid_move b src dst σ = Ok true σ) mv) ∨
   generate_rand_move b σ = Raise (ValueError "no valid move") σ) ∧
  (generate_rand_move b σ = Raise (ValueError "no valid move") σ ↔
     ∀ src dst, in_grid src → cell g src.1 src.2 = Some BLACK_PAWN →
                is_valid_move b src dst σ ≠ Ok true σ).
Proof.
  intros Hb Hg. rewrite (generate_rand_move_spec σ b g) by done.
  destruct (first_move g) as [mv|] eqn:Hfirst.
  - destruct (first_move_Some g mv Hg Hfirst)
      as (r & c & d & Hin & Hd & -> & Hlegal & Hmin).
    split.
    + left. eexists. split; [done|].
      exists r, c, d. do 3 (split; [done|]). split.
      * by apply (accepts_legal σ b g).
      * intros r' c' d' Hin' Hd' Hbefore Hacc.
        apply (Hmin r' c' d' Hin' Hd' Hbefore).
        by apply (accepts_legal σ b g) in Hacc.
    + split; [done|]. intros Hnone. exfalso.
      apply (Hnone (r, c) (r + 1, c + d) Hin); [by destruct Hlegal|].
      by apply (accepts_legal σ b g).
  - split; [by right|]. split; [|done]. intros _ src dst Hin _ Hacc.
    apply (first_move_None g Hg Hfirst src dst Hin).
    by apply (accepts_legal σ b g) in Hacc.
Qed.

Lemma generate_rand_move_scan_witness :
  ((∃ mv, generate_rand_move init_board init_store = Ok mv init_store ∧
          scan_first_of
            (λ src dst, is_valid_move init_board src dst init_store = Ok true init_store)
            mv) ∨
   generate_rand_move init_board init_store
     = Raise (ValueError "no valid move") init_store) ∧
  (generate_rand_move init_board init_store
     = Raise (ValueError "no valid move") init_store ↔
     ∀ src dst, in_grid src → cell init_grid src.1 src.2 = Some BLACK_PAWN →
                is_valid_move init_board src dst init_store ≠ Ok true init_store).
Proof.
  apply (generate_rand_move_scan init_store init_board init_grid).
  - apply init_is_board.
  - apply init_grid6.
Defined.

Lemma board_eq_spec σ b1 b2 g1 g2 :
  is_board σ b1 g1 → is_board σ b2 g2 →
  board_eq b1 b2 σ = Ok (bool_decide (g1 = g2)) σ.
Proof.
  intros H1 H2. unfold board_eq.
  rewrite (bind_ok _ _ _ _ _ (snapshot_spec _ _ _ H1)).
  by rewrite (bind_ok _ _ _ _ _ (snapshot_spec _ _ _ H2)).
Qed.

Lemma is_board_extends σ σ' b g : extends σ σ' → is_board σ b g → is_board σ' b g.
Proof. intros Hext [ls Hat]. exists ls. by eapply board_at_extends. Qed.

(** C6: inverting a board twice, each time into a copy, returns a board
    equal to the original one. *)
Theorem invert_board_involutive σ b g :
  is_board σ b g →
  ∃ b1 σ1 b2 σ2,
    invert_board b false σ = Ok b1 σ1 ∧
    invert_board b1 false σ1 = Ok b2 σ2 ∧
    is_board σ2 b g ∧ is_board σ2 b2 g ∧
    board_eq b2 b σ2 = Ok true σ2.
Proof.
  intros Hb. pose proof Hb as [ls Hat].
  destruct (invert_board_copy σ b ls g Hat)
    as (b1 & ls1 & σ1 & Hrun1 & _ & _ & Hext1 & Hat1).
  destruct (invert_board_copy σ1 b1 ls1 (inverted g) Hat1)
    as (b2 & ls2 & σ2 & Hrun2 & _ & _ & Hext2 & Hat2).
  rewrite inverted_inverted in Hat2.
  assert (is_board σ2 b g) as Hb2.
  { eapply is_board_extends; [exact Hext2|]. by eapply is_board_extends. }
  exists b1, σ1, b2, σ2. split_and!; [done|done|done|by exists ls2|].
  rewrite (board_eq_spec σ2 b2 b g g); [|by exists ls2|done].
  by rewrite bool_decide_eq_true_2.
Qed.

Lemma invert_board_involutive_witness :
  ∃ b1 σ1 b2 σ2,
    invert_board init_board false init_store = Ok b1 σ1 ∧
    invert_board b1 false σ1 = Ok b2 σ2 ∧
    is_board σ2 init_board init_grid ∧ is_board σ2 b2 init_grid ∧
    board_eq b2 init_board σ2 = Ok true σ2.
Proof.
  apply (invert_board_involutive init_store init_board init_grid).
  apply init_is_board.
Defined.

(** C7: with [in_place] false, [invert_board] and [state_change] return
    a board that is not the one they were given and shares no row with
    any object of the caller's store, in which every object, the given
    board among them, is as it was; with [in_place] true they return the
    board they were given, written to.  When the source cell cannot be
    read [state_change] raises, and the copy it made first has left the
    caller's objects alone. *)
Theorem in_place_contract σ b g src dst :
  is_board σ b g → grid6 g →
  (∃ b' ls' σ', invert_board b false σ = Ok b' σ' ∧
      b' ≠ b ∧ outers σ !! b' = None ∧ (∀ l, l ∈ ls' → rows σ !! l = None) ∧
      extends σ σ' ∧ is_board σ' b g ∧ board_at σ' b' ls' (inverted g)) ∧
  (∃ σ', invert_board b true σ = Ok b σ' ∧ is_board σ' b (inverted g)) ∧
  (is_Some (cell g src.1 src.2) →
     (∃ b' ls' σ', state_change b src dst false σ = Ok b' σ' ∧
        b' ≠ b ∧ outers σ !! b' = None ∧ (∀ l, l ∈ ls' → rows σ !! l = None) ∧
        extends σ σ' ∧ is_board σ' b g ∧
        board_at σ' b' ls' (state_after g src dst)) ∧
     (∃ σ', state_change b src dst true σ = Ok b σ' ∧
        is_board σ' b (state_after g src dst))) ∧
  (cell g src.1 src.2 = None →
     (∃ σ', state_change b src dst false σ = Raise IndexError σ' ∧
            extends σ σ' ∧ is_board σ' b g) ∧
     state_change b src dst true σ = Raise IndexError σ).
Proof.
  intros Hb Hg. pose proof Hb as [ls Hat].
  assert (∀ b', outers σ !! b' = None → b' ≠ b) as Hne.
  { intros b' Hnone ->. destruct Hat as [Hsome _]. congruence. }
  split_and!.
  - destruct (invert_board_copy σ b ls g Hat)
      as (b' & ls' & σ' & Hrun & Hfresh & Hrows & Hext & Hat').
    exists b', ls', σ'. split_and!; try done; [by apply Hne|].
    by eapply is_board_extends.
  - destruct (invert_board_in_place σ b ls g Hat) as (σ' & Hrun & Hat' & _).
    exists σ'. split; [done|]. by eexists.
  - intros Hsrc. split.
    + destruct (state_change_copy σ b ls g src dst Hat Hg Hsrc)
        as (b' & ls' & σ' & Hrun & Hfresh & Hrows & Hext & Hat').
      exists b', ls', σ'. split_and!; try done; [by apply Hne|].
      by eapply is_board_extends.
    + destruct (state_change_in_place σ b ls g src dst Hat Hg Hsrc)
        as (σ' & Hrun & Hat' & _).
      exists σ'. split; [done|]. by eexists.
  - intros Hnone. split.
    + destruct (state_change_copy_raises σ b ls g src dst Hat Hg Hnone)
        as (σ' & Hrun & Hext).
      exists σ'. split_and!; [done..|]. by eapply is_board_extends.
    + by apply (state_change_raises σ b g).
Qed.

Lemma in_place_contract_witness :
  ∃ b' ls' σ', invert_board init_board false init_store = Ok b' σ' ∧
    b' ≠ init_board ∧ outers init_store !! b' = None ∧
    (∀ l, l ∈ ls' → rows init_store !! l = None) ∧
    extends init_store σ' ∧ is_board σ' init_board init_grid ∧
    board_at σ' b' ls' (inverted init_grid).
Proof.
  apply (in_place_contract init_store init_board init_grid (1, 0) (2, 0)).
  - apply init_is_board.
  - apply init_grid6.
Defined.

Lemma self_play_spec fuel : ∀ σ b ls g n n' g',
  board_at σ b ls g → grid6 g →
  self_play_grid fuel g n = Some (n', g') →
  ∃ σ', self_play fuel b n σ = Ok (Some n') σ' ∧
        board_at σ' b ls g' ∧ grid6 g' ∧ game_over g' = true ∧
        (n' ≤ n + fuel)%nat.
Proof.
  induction fuel as [|fuel IH]; intros σ b ls g n n' g' Hat Hg Hrun; simpl in *.
  - rewrite (bind_ok _ _ _ _ _ (is_game_over_spec σ b g ltac:(by exists ls) Hg)).
    destruct (game_over g) eqn:Hover; [|done]. simplify_eq.
    exists σ. split_and!; [done..|lia].
  - rewrite (bind_ok _ _ _ _ _ (is_game_over_spec σ b g ltac:(by exists ls) Hg)).
    destruct (game_over g) eqn:Hover.
    { simplify_eq. exists σ. split_and!; [done..|lia]. }
    destruct (first_move g) as [mv|] eqn:Hfirst; [|done].
    destruct (first_move_legal g mv Hg Hfirst) as [_ Hlegal].
    assert (is_Some (cell g mv.1.1 mv.1.2)) as Hsrc.
    { destruct Hlegal as [-> _]. by eexists. }
    destruct (state_change_in_place σ b ls g mv.1 mv.2 Hat Hg Hsrc)
      as (σ1 & Hchange & Hat1 & _).
    destruct (IH σ1 b ls _ (S n) n' g' Hat1 (grid6_state_after g _ _ Hg) Hrun)
      as (σ' & Hplay & Hat' & Hg' & Hover' & Hle).
    exists σ'. split_and!; [|done..|lia].
    erewrite bind_ok; last first.
    { rewrite (generate_rand_move_spec σ b g) by (done || by exists ls).
      by rewrite Hfirst. }
    by rewrite (bind_ok _ _ _ _ _ Hchange).
Qed.

(** C8: from the board of [generate_init_state], checking
    [is_game_over], taking the move of [generate_rand_move] and applying
    it with [state_change] over and over raises nothing and stops on a
    board that is game over after at most 200 moves (after 37, in fact). *)
Theorem self_play_ends σ :
  ∃ b σ0 n σ',
    generate_init_state σ = Ok b σ0 ∧
    self_play 200 b 0 σ0 = Ok (Some n) σ' ∧
    (n ≤ 200)%nat ∧ n = 37%nat ∧
    is_game_over b σ' = Ok true σ'.
Proof.
  destruct (generate_init_state_spec σ) as (b & ls & σ0 & Hgen & _ & _ & _ & Hat).
  assert (∃ g', self_play_grid 200 init_grid 0 = Some (37%nat, g')) as [g' Hrun].
  { eexists. vm_compute. reflexivity. }
  destruct (self_play_spec 200 σ0 b ls init_grid 0 37 g' Hat init_grid6 Hrun)
    as (σ' & Hplay & Hat' & Hg' & Hover & _).
  exists b, σ0, 37%nat, σ'. split_and!; [done|done|lia|done|].
  rewrite (is_game_over_spec σ' b g'); [by rewrite Hover|by exists ls|done].
Qed.

Lemma readonly_ret {A} (a : A) : readonly (ret a).
Proof. by intros σ. Qed.

Lemma readonly_raise {A} e : readonly (raise (A := A) e).
Proof. by intros σ. Qed.

Lemma readonly_bind {A B} (m : M A) (k : A → M B) :
  readonly m → (∀ a, readonly (k a)) → readonly (bind m k).
Proof.
  intros Hm Hk σ. unfold bind. specialize (Hm σ).
  destruct (m σ) as [a σ1|e σ1]; subst; [apply Hk|done].
Qed.

Lemma readonly_for_from {A St Rt} (load : M (list A))
    (body : nat → A → St → M (St + Rt)) n :
  readonly load → (∀ i x s, readonly (body i x s)) →
  ∀ i s, readonly (for_from load body n i s).
Proof.
  intros Hload Hbody. induction n as [|n IH]; intros i s; simpl.
  - apply readonly_ret.
  - apply readonly_bind; [done|]. intros xs.
    destruct (xs !! i); [|apply readonly_ret].
    apply readonly_bind; [done|]. intros [s'|v]; [apply IH|apply readonly_ret].
Qed.

Lemma readonly_for_in {A St Rt} (load : M (list A))
    (body : nat → A → St → M (St + Rt)) s :
  readonly load → (∀ i x s, readonly (body i x s)) →
  readonly (for_in load body s).
Proof.
  intros Hload Hbody. apply readonly_bind; [done|]. intros xs.
  by apply readonly_for_from.
Qed.

Lemma readonly_load_outer b : readonly (load_outer b).
Proof. by intros σ. Qed.

Lemma readonly_load_row l : readonly (load_row l).
Proof. by intros σ. Qed.

Lemma readonly_lift_index {A} (o : option A) : readonly (lift_index o).
Proof. destruct o; [apply readonly_ret|apply readonly_raise]. Qed.

Lemma readonly_getitem2 b r c : readonly (getitem2 b r c).
Proof.
  apply readonly_bind.
  - apply readonly_bind; [apply readonly_load_outer|]. intros. apply readonly_lift_index.
  - intros l. apply readonly_bind; [apply readonly_load_row|].
    intros. apply readonly_lift_index.
Qed.

Lemma readonly_any_in_row b r t : readonly (any_in_row b r t).
Proof.
  apply readonly_bind.
  - apply readonly_bind; [apply readonly_load_outer|]. intros. apply readonly_lift_index.
  - intros l. apply readonly_bind; [apply readonly_load_row|].
    intros. apply readonly_ret.
Qed.

Lemma readonly_is_game_over b : readonly (is_game_over b).
Proof.
  apply readonly_bind; [apply readonly_any_in_row|]. intros b5.
  apply readonly_bind.
  { destruct b5; [apply readonly_ret|apply readonly_any_in_row]. }
  intros [|]; [apply readonly_ret|].
  apply readonly_bind.
  - apply readonly_for_in; [apply readonly_load_outer|]. intros _ row wb.
    apply readonly_for_in; [apply readonly_load_row|]. intros _ tile [w k].
    repeat case_bool_decide; apply readonly_ret.
  - intros [[w k]|[]]. apply readonly_ret.
Qed.

(** C10: called on a board on which [is_game_over] is true, [play]
    returns the boolean [False]; it has asked neither agent for a move
    and has written nothing to the store. *)
Theorem play_over_at_start fuel ag b σ σ' :
  is_game_over b σ = Ok true σ' →
  play fuel ag b σ = Ok (Some (PBool false, Locals 0 0 None [])) σ.
Proof.
  intros Hover. pose proof (readonly_is_game_over b σ) as Hro.
  rewrite Hover in Hro. subst σ'.
  unfold play. destruct fuel; simpl; by rewrite (bind_ok _ _ _ _ _ Hover).
Qed.

Lemma play_over_at_start_witness :
  play 10 (Agents (λ _ _, StillRunning) (λ _ _, ret MOVE_NONE)) init_board final_store
    = Ok (Some (PBool false, Locals 0 0 None [])) final_store.
Proof.
  apply (play_over_at_start _ _ init_board final_store final_store).
  vm_compute. reflexivity.
Defined.

(** ** One turn of the match *)

Lemma inverted_grid6 g : grid6 g → grid6 (inverted g).
Proof.
  intros [Hlen Hrows]. unfold inverted. split.
  - by rewrite length_fmap, length_reverse.
  - apply Forall_fmap. eapply Forall_impl.
    + apply Forall_reverse. exact Hrows.
    + intros ts Hts. simpl. by rewrite length_fmap.
Qed.


Lemma legal_readable g src dst : legal g src dst → is_Some (cell g src.1 src.2).
Proof. intros [-> _]. by eexists. Qed.

Lemma try_is_valid_move σ b g src dst :
  is_board σ b g → grid6 g →
  try_except (exit_on_interrupt (is_valid_move b src dst)) (λ _, ret false) σ
    = Ok (bool_decide (legal g src dst)) σ.
Proof.
  intros Hb Hg. unfold try_except, exit_on_interrupt.
  rewrite (is_valid_move_spec σ b g) by done.
  destruct (cell g src.1 src.2) eqn:Hcell; [done|].
  unfold ret. f_equal. symmetry. apply bool_decide_eq_false.
  intros [Hsrc _]. congruence.
Qed.

Lemma state_after_legal g src dst :
  legal g src dst → state_after g src dst = moved g src dst.
Proof. intros. unfold state_after. by rewrite bool_decide_eq_true_2. Qed.

Lemma state_after_illegal g src dst :
  ¬ legal g src dst → state_after g src dst = g.
Proof. intros. unfold state_after. by rewrite bool_decide_eq_false_2. Qed.

(** Black's turn when the process did not exit with code 1 and the queue
    is not found empty: the move handed over is applied when the rule
    accepts it, the move of [generate_rand_move] otherwise. *)
Lemma turn_black σ b ls g ag st :
  board_at σ b ls g → grid6 g → game_over g = false →
  Nat.even (move st) = true →
  (∀ e, black_job ag (move st) g ≠ Exited1 e) →
  black_job ag (move st) g ≠ Exited0 None →
  let mv := obtained (black_job ag (move st) g) in
  ∃ mv' σ',
    (if bool_decide (legal g mv.1 mv.2) then mv' = mv else first_move g = Some mv') ∧
    legal g mv'.1 mv'.2 ∧
    turn ag b st σ =
      Ok (inl (Locals (S (move st))
                 (if bool_decide (legal g mv.1 mv.2) then random_moves st
                  else S (random_moves st))
                 (Some Black) (asked st ++ [Black]))) σ' ∧
    board_at σ' b ls (moved g mv'.1 mv'.2).
Proof.
  intros Hat Hg Hover Heven Hexit Hqueue mv.
  destruct (deepcopy_spec σ b ls g Hat) as (bc & lsc & σ1 & Hcopy & _ & _ & Hext & Hatc).
  pose proof (board_at_extends _ _ _ _ _ Hext Hat) as Hat1.
  assert (is_board σ1 b g) as Hb1 by (by exists ls).
  assert (∃ mv', (if bool_decide (legal g mv.1 mv.2) then mv' = mv
                  else first_move g = Some mv') ∧ legal g mv'.1 mv'.2)
    as (mv' & Hpick & Hlegal).
  { case_bool_decide as Hl; [by exists mv|].
    destruct (first_move_exists g Hg Hover) as [mv' Hfirst].
    exists mv'. split; [done|]. by apply first_move_legal. }
  destruct (state_change_in_place σ1 b ls g mv'.1 mv'.2 Hat1 Hg
              (legal_readable _ _ _ Hlegal)) as (σ2 & Hchange & Hat2 & _).
  rewrite state_after_legal in Hat2 by done.
  exists mv', σ2. split_and!; [done|done| |done].
  assert (ask_black ag b st σ =
            Ok (inl (mv', if bool_decide (legal g mv.1 mv.2) then random_moves st
                          else S (random_moves st))) σ1) as Hask.
  { unfold ask_black.
    rewrite (bind_ok _ _ _ _ _ Hcopy).
    rewrite (bind_ok _ _ _ _ _ (snapshot_spec σ1 bc g ltac:(by exists lsc))).
    assert (∀ ex, obtained ex = mv →
      (is_valid <~ try_except (exit_on_interrupt
                                 (is_valid_move b (obtained ex).1 (obtained ex).2))
                     (λ _, ret false);;
       if negb is_valid
       then mv'0 <~ generate_rand_move b;;
            ret (inl (B := stop) (mv'0, S (random_moves st)))
       else ret (inl (obtained ex, random_moves st))) σ1
      = Ok (inl (mv', if bool_decide (legal g mv.1 mv.2) then random_moves st
                      else S (random_moves st))) σ1) as Hrest.
    { intros ex ->.
      rewrite (bind_ok _ _ _ _ _ (try_is_valid_move σ1 b g _ _ Hb1 Hg)).
      destruct (bool_decide (legal g mv.1 mv.2)); simpl.
      - by subst mv'.
      - erewrite bind_ok; [done|].
        rewrite (generate_rand_move_spec σ1 b g) by done. by rewrite Hpick. }
    unfold mv in *.
    destruct (black_job ag (move st) g) as [| e | [mv0|] | code] eqn:Hex;
      [by apply Hrest| by destruct (Hexit e) | by apply Hrest | done
      | by apply Hrest]. }
  unfold turn. rewrite Heven. simpl.
  rewrite (bind_ok _ _ _ _ _ Hask).
  rewrite (bind_ok _ _ _ _ _ Hchange). done.
Qed.

(** Black's turn when the process exited with code 1 and queued its
    exception. *)
Lemma turn_black_raised σ b ls g ag st e :
  board_at σ b ls g →
  Nat.even (move st) = true →
  black_job ag (move st) g = Exited1 (Some e) →
  ∃ σ', turn ag b st σ =
          Ok (inr (Returns (PStr (side_name Black +:+ " returned err=" +:+ e
                                    +:+ " during move")),
                   Locals (move st) (random_moves st) (Some Black) (asked st ++ [Black]))) σ' ∧
        board_at σ' b ls g.
Proof.
  intros Hat Heven Hex.
  destruct (deepcopy_spec σ b ls g Hat) as (bc & lsc & σ1 & Hcopy & _ & _ & Hext & Hatc).
  exists σ1. split; [|by eapply board_at_extends].
  unfold turn. rewrite Heven. simpl.
  erewrite bind_ok; last first.
  { unfold ask_black.
    rewrite (bind_ok _ _ _ _ _ Hcopy).
    rewrite (bind_ok _ _ _ _ _ (snapshot_spec σ1 bc g ltac:(by exists lsc))).
    by rewrite Hex. }
  done.
Qed.


(** White's turn, for an agent that answers [mv] and leaves the store
    alone: the move is applied unchecked to the inverted board. *)
Lemma turn_white σ b ls g ag st mv :
  board_at σ b ls g → grid6 g →
  Nat.even (move st) = false →
  (∀ σ1, white_make_move ag (move st) b σ1 = Ok mv σ1) →
  is_Some (cell (inverted g) mv.1.1 mv.1.2) →
  ∃ σ', turn ag b st σ =
          Ok (inl (Locals (S (move st)) (random_moves st) (Some White)
                     (asked st ++ [White]))) σ' ∧
        board_at σ' b ls (inverted (state_after (inverted g) mv.1 mv.2)).
Proof.
  intros Hat Hg Hodd Hagent Hsrc.
  destruct (invert_board_in_place σ b ls g Hat) as (σ1 & Hinv1 & Hat1 & _).
  pose proof (inverted_grid6 g Hg) as Hg1.
  destruct (state_change_in_place σ1 b _ _ mv.1 mv.2 Hat1 Hg1 Hsrc)
    as (σ2 & Hchange & Hat2 & _).
  destruct (invert_board_in_place σ2 b _ _ Hat2) as (σ3 & Hinv2 & Hat3 & _).
  rewrite reverse_involutive in Hat3.
  exists σ3. split; [|done].
  unfold turn. rewrite Hodd. simpl.
  erewrite bind_ok; last first.
  { unfold ask_white. rewrite (bind_ok _ _ _ _ _ Hinv1).
    by rewrite (bind_ok _ _ _ _ _ (Hagent σ1)). }
  cbv beta iota.
  rewrite (bind_ok _ _ _ _ _ Hchange).
  by rewrite (bind_ok _ _ _ _ _ Hinv2).
Qed.

(** White's turn for an agent that answers [mv] in the store [σ1] the
    first inversion leaves: the move is applied unchecked when its source
    cell can be read on the inverted board, and the turn raises there, the
    board still inverted, when it cannot. *)
Lemma turn_white_at σ b ls g ag st σ1 mv :
  board_at σ b ls g → grid6 g →
  Nat.even (move st) = false →
  invert_board b true σ = Ok b σ1 →
  white_make_move ag (move st) b σ1 = Ok mv σ1 →
  (is_Some (cell (inverted g) mv.1.1 mv.1.2) →
   ∃ σ', turn ag b st σ =
           Ok (inl (Locals (S (move st)) (random_moves st) (Some White)
                      (asked st ++ [White]))) σ' ∧
         board_at σ' b ls (inverted (state_after (inverted g) mv.1 mv.2))) ∧
  (cell (inverted g) mv.1.1 mv.1.2 = None →
   turn ag b st σ = Raise IndexError σ1).
Proof.
  intros Hat Hg Hodd Hinv1 Hagent.
  destruct (invert_board_in_place σ b ls g Hat) as (σ1' & Hinv1' & Hat1 & _).
  assert (σ1' = σ1) as -> by congruence.
  pose proof (inverted_grid6 g Hg) as Hg1.
  assert (ask_white ag b st σ = Ok (inl (mv, random_moves st)) σ1) as Hask.
  { unfold ask_white. rewrite (bind_ok _ _ _ _ _ Hinv1).
    by rewrite (bind_ok _ _ _ _ _ Hagent). }
  split.
  - intros Hsrc.
    destruct (state_change_in_place σ1 b _ _ mv.1 mv.2 Hat1 Hg1 Hsrc)
      as (σ2 & Hchange & Hat2 & _).
    destruct (invert_board_in_place σ2 b _ _ Hat2) as (σ3 & Hinv2 & Hat3 & _).
    rewrite reverse_involutive in Hat3.
    exists σ3. split; [|done].
    unfold turn. rewrite Hodd. simpl.
    rewrite (bind_ok _ _ _ _ _ Hask). cbv beta iota.
    rewrite (bind_ok _ _ _ _ _ Hchange).
    by rewrite (bind_ok _ _ _ _ _ Hinv2).
  - intros Hnone.
    unfold turn. rewrite Hodd. simpl.
    rewrite (bind_ok _ _ _ _ _ Hask). cbv beta iota.
    erewrite bind_raise; [done|].
    apply (state_change_raises σ1 b (inverted g)); [by eexists|done..].
Qed.




(** * Further properties of the board model *)

(** ** Indices outside the grid *)

Lemma is_valid_move_legal σ b g src dst :
  is_board σ b g → grid6 g → legal g src dst →
  is_valid_move b src dst σ = Ok true σ.
Proof.
  intros Hb Hg Hlegal. rewrite (is_valid_move_spec σ b g) by done.
  destruct (legal_readable _ _ _ Hlegal) as [t ->].
  by rewrite bool_decide_eq_true_2.
Qed.

Lemma cell_moved_src g src dst :
  grid6 g → legal g src dst → cell (moved g src dst) src.1 src.2 = Some EMPTY.
Proof.
  intros Hg Hlegal.
  pose proof (proj1 (cell_is_Some g src.1 src.2 Hg) (legal_readable _ _ _ Hlegal))
    as [Hr Hc].
  pose proof (wrap_in_range _ Hr). pose proof (wrap_in_range _ Hc).
  rewrite <-(cell_wrap (moved g src dst)) by (done || by apply grid6_moved).
  rewrite cell_moved by done.
  rewrite decide_False by (intros Heq; by apply (legal_distinct g src dst)).
  by rewrite decide_True.
Qed.

Lemma cell_moved_dst g src dst :
  grid6 g → legal g src dst → cell (moved g src dst) dst.1 dst.2 = Some BLACK_PAWN.
Proof.
  intros Hg Hlegal.
  pose proof Hlegal as (_ & [Hdr Hdc] & _). unfold ROW, COL in Hdr, Hdc.
  rewrite cell_moved by done.
  rewrite decide_True; [done|by destruct dst].
Qed.

(** X1: a source index may be negative, and then counts from the end as
    Python's lists do.  With source column -1 the pawn of column 5 is
    accepted on column 0 of the next row; with source row -1 a pawn of
    the last row is accepted on row 0.  [state_change] applies either
    move. *)
Theorem negative_source_wraps σ b g r c :
  is_board σ b g → grid6 g →
  (0 ≤ r < 5 →
   cell g r 5 = Some BLACK_PAWN → cell g (r + 1) 0 ≠ Some BLACK_PAWN →
   is_valid_move b (r, -1) (r + 1, 0) σ = Ok true σ ∧
   ∃ σ' g', state_change b (r, -1) (r + 1, 0) true σ = Ok b σ' ∧
            is_board σ' b g' ∧
            cell g' r 5 = Some EMPTY ∧ cell g' (r + 1) 0 = Some BLACK_PAWN) ∧
  (0 ≤ c < 6 →
   cell g 5 c = Some BLACK_PAWN → cell g 0 c = Some EMPTY →
   is_valid_move b (-1, c) (0, c) σ = Ok true σ ∧
   ∃ σ' g', state_change b (-1, c) (0, c) true σ = Ok b σ' ∧
            is_board σ' b g' ∧
            cell g' 5 c = Some EMPTY ∧ cell g' 0 c = Some BLACK_PAWN).
Proof.
  intros Hb Hg. pose proof Hb as [ls Hat].
  assert (∀ src dst, legal g src dst →
            is_valid_move b src dst σ = Ok true σ ∧
            ∃ σ' g', state_change b src dst true σ = Ok b σ' ∧
                     is_board σ' b g' ∧
                     cell g' (wrap src.1) (wrap src.2) = Some EMPTY ∧
                     cell g' dst.1 dst.2 = Some BLACK_PAWN) as Hmove.
  { intros src dst Hlegal. split; [by apply (is_valid_move_legal σ b g)|].
    destruct (state_change_in_place σ b ls g src dst Hat Hg (legal_readable _ _ _ Hlegal))
      as (σ' & Hrun & Hat' & _).
    rewrite state_after_legal in Hat' by done.
    exists σ', (moved g src dst). split_and!; [done|by exists ls| |].
    - pose proof (proj1 (cell_is_Some g src.1 src.2 Hg) (legal_readable _ _ _ Hlegal))
        as [Hr Hc].
      rewrite cell_wrap by (done || by apply grid6_moved).
      by apply cell_moved_src.
    - by apply cell_moved_dst. }
  split.
  - intros Hr Hsrc Hdst.
    destruct (Hmove (r, -1) (r + 1, 0)) as (Hv & σ' & g' & Hrun & Hb' & Hs & Hd).
    2: { simpl in Hs. rewrite (wrap_id r) in Hs by lia. eauto 10. }
    unfold legal, in_grid, ROW, COL. simpl.
    rewrite <-(cell_wrap g r (-1)) by (done || lia).
    rewrite (wrap_id r) by lia. change (wrap (-1)) with 5.
    split_and!; try done; lia.
  - intros Hc Hsrc Hdst.
    destruct (Hmove (-1, c) (0, c)) as (Hv & σ' & g' & Hrun & Hb' & Hs & Hd).
    2: { simpl in Hs. rewrite (wrap_id c) in Hs by lia. eauto 10. }
    unfold legal, in_grid, ROW, COL. simpl.
    rewrite <-(cell_wrap g (-1) c) by (done || lia).
    rewrite (wrap_id c) by lia. change (wrap (-1)) with 5.
    split_and!; try done; lia.
Qed.

Lemma negative_source_wraps_witness :
  is_valid_move init_board (1, -1) (2, 0) init_store = Ok true init_store ∧
  ∃ σ' g', state_change init_board (1, -1) (2, 0) true init_store = Ok init_board σ' ∧
           is_board σ' init_board g' ∧
           cell g' 1 5 = Some EMPTY ∧ cell g' (1 + 1) 0 = Some BLACK_PAWN.
Proof.
  apply (proj1 (negative_source_wraps init_store init_board init_grid 1 0
                  init_is_board init_grid6)).
  - lia.
  - reflexivity.
  - vm_compute. discriminate.
Defined.

Lemma one_row_is_board : is_board one_row_store 1%positive [chars "B_"].
Proof.
  exists [2%positive]. split_and!.
  - reflexivity.
  - apply NoDup_singleton.
  - repeat constructor.
Qed.

(** X2: the bounds of the module are the constants 6, not the size of
    the board it is given.  On a board of fewer than six rows
    [is_game_over] raises [IndexError], and so does [is_valid_move] when
    asked to move a black pawn of the last row one row down, to a column
    of 0..5 next to its own: the destination passes the bounds check and
    is then read. *)
Theorem short_board_raises σ b g sc dc :
  is_board σ b g → (length g < 6)%nat →
  is_game_over b σ = Raise IndexError σ ∧
  (cell g (Z.of_nat (length g) - 1) sc = Some BLACK_PAWN →
   0 ≤ dc < 6 → Z.abs (dc - sc) ≤ 1 →
   is_valid_move b (Z.of_nat (length g) - 1, sc) (Z.of_nat (length g), dc) σ
     = Raise IndexError σ).
Proof.
  intros Hb Hlen. split.
  - unfold is_game_over.
    erewrite bind_raise; [done|].
    rewrite (any_in_row_spec σ b g) by done.
    unfold py_index, py_norm.
    destruct (Z.ltb_spec 5 0); [lia|].
    destruct (Z.ltb_spec 5 (Z.of_nat (length g))); [lia|done].
  - intros Hsrc Hdc Hlat.
    assert (cell g (Z.of_nat (length g)) dc = None) as Hdst.
    { unfold cell, py_index, py_norm.
      destruct (Z.ltb_spec (Z.of_nat (length g)) 0); [lia|].
      destruct (Z.ltb_spec (Z.of_nat (length g)) (Z.of_nat (length g))); [lia|done]. }
    unfold is_valid_move.
    unfold bind at 1. rewrite (getitem2_spec σ b g) by done. rewrite Hsrc.
    rewrite bool_decide_eq_false_2 by (by intros Hne; apply Hne).
    destruct ((Z.of_nat (length g) <? 0) || (Z.of_nat (length g) >=? ROW)
              || (dc <? 0) || (dc >=? COL)) eqn:Hoob.
    { unfold ROW, COL in Hoob. lia. }
    rewrite bool_decide_eq_false_2 by lia.
    destruct ((dc >? sc + 1) || (dc <? sc - 1)) eqn:Hlateral; [lia|].
    unfold short_and.
    case_bool_decide as Hstraight.
    + unfold bind at 1. unfold bind at 1.
      rewrite (getitem2_spec σ b g) by done. by rewrite Hdst.
    + unfold bind at 1. unfold ret at 1.
      assert (bool_decide (dc = sc + 1) || bool_decide (dc = sc - 1) = true) as ->.
      { apply orb_true_iff. rewrite !bool_decide_eq_true. lia. }
      unfold bind at 1. unfold bind at 1.
      rewrite (getitem2_spec σ b g) by done. by rewrite Hdst.
Qed.

Lemma short_board_raises_witness :
  is_game_over 1%positive one_row_store = Raise IndexError one_row_store ∧
  (cell [chars "B_"] (Z.of_nat 1 - 1) 0 = Some BLACK_PAWN →
   0 ≤ 1 < 6 → Z.abs (1 - 0) ≤ 1 →
   is_valid_move 1%positive (Z.of_nat 1 - 1, 0) (Z.of_nat 1, 1) one_row_store
     = Raise IndexError one_row_store).
Proof.
  apply (short_board_raises one_row_store 1%positive [chars "B_"] 0 1).
  - apply one_row_is_board.
  - simpl. lia.
Defined.

(** ** Moves while the game is on *)

(** X3: on a fully populated 6x6 board on which [is_game_over] is false,
    [generate_rand_move] does not raise: it returns a move from a cell of
    the grid that [is_valid_move] accepts.  The [ValueError] can only
    come from a board on which the game is over. *)
Theorem rand_move_while_game_on σ b g :
  is_board σ b g → grid6 g →
  is_game_over b σ = Ok false σ →
  ∃ mv, generate_rand_move b σ = Ok mv σ ∧
        in_grid mv.1 ∧
        is_valid_move b mv.1 mv.2 σ = Ok true σ.
Proof.
  intros Hb Hg Hover.
  rewrite (is_game_over_spec σ b g) in Hover by done.
  injection Hover as Hover.
  destruct (first_move_exists g Hg Hover) as [mv Hfirst].
  destruct (first_move_legal g mv Hg Hfirst) as [Hin Hlegal].
  exists mv. split_and!; [|done|by apply (is_valid_move_legal σ b g)].
  rewrite (generate_rand_move_spec σ b g) by done. by rewrite Hfirst.
Qed.

Lemma rand_move_while_game_on_witness :
  ∃ mv, generate_rand_move init_board init_store = Ok mv init_store ∧
        in_grid mv.1 ∧
        is_valid_move init_board mv.1 mv.2 init_store = Ok true init_store.
Proof.
  apply (rand_move_while_game_on init_store init_board init_grid).
  - apply init_is_board.
  - apply init_grid6.
  - vm_compute. reflexivity.
Defined.

(** X4: applying the same move a second time changes nothing.  After an
    accepted move the source cell is empty, so the move is rejected the
    second time; a rejected move is rejected again. *)
Theorem state_change_twice σ b g src dst :
  is_board σ b g → grid6 g → is_Some (cell g src.1 src.2) →
  ∃ σ1, state_change b src dst true σ = Ok b σ1 ∧
        state_change b src dst true σ1 = Ok b σ1 ∧
        is_valid_move b src dst σ1 = Ok false σ1.
Proof.
  intros [ls Hat] Hg Hsrc.
  destruct (state_change_in_place σ b ls g src dst Hat Hg Hsrc)
    as (σ1 & Hrun1 & Hat1 & _ & _).
  pose proof (grid6_state_after g src dst Hg) as Hg1.
  assert (is_Some (cell (state_after g src dst) src.1 src.2)) as Hsrc1.
  { apply cell_is_Some; [done|]. by apply (cell_is_Some g). }
  assert (¬ legal (state_after g src dst) src dst) as Hrej.
  { destruct (decide (legal g src dst)) as [Hl|Hl].
    - rewrite state_after_legal by done. intros [Hb _].
      rewrite (cell_moved_src g src dst Hg Hl) in Hb.
      unfold EMPTY, BLACK_PAWN in Hb. discriminate.
    - by rewrite state_after_illegal. }
  destruct (state_change_in_place σ1 b ls _ src dst Hat1 Hg1 Hsrc1)
    as (σ2 & Hrun2 & _ & _ & Hsame).
  rewrite (Hsame Hrej) in Hrun2.
  exists σ1. split_and!; [done..|].
  rewrite (is_valid_move_spec σ1 b (state_after g src dst)) by (done || by exists ls).
  destruct Hsrc1 as [t ->]. by rewrite bool_decide_eq_false_2.
Qed.

Lemma state_change_twice_witness :
  ∃ σ1, state_change init_board (1, 0) (2, 0) true init_store = Ok init_board σ1 ∧
        state_change init_board (1, 0) (2, 0) true σ1 = Ok init_board σ1 ∧
        is_valid_move init_board (1, 0) (2, 0) σ1 = Ok false σ1.
Proof.
  apply (state_change_twice init_store init_board init_grid (1, 0) (2, 0)).
  - apply init_is_board.
  - apply init_grid6.
  - by eexists.
Defined.

(** ** Counting pawns *)

Lemma cnt_insert t ts k old v :
  ts !! k = Some old →
  (cnt t (<[k := v]> ts) + holds (Some old) t = cnt t ts + holds (Some v) t)%nat.
Proof.
  unfold cnt, holds. revert k. induction ts as [|x ts IH]; intros [|k] Hk; simplify_eq/=.
  - rewrite !filter_cons. repeat case_decide; simplify_eq; simpl; lia.
  - rewrite !filter_cons. specialize (IH k Hk).
    repeat case_decide; simplify_eq; simpl in *; lia.
Qed.

Lemma weigh_insert f t g : ∀ i k ts ts',
  g !! k = Some ts →
  (weigh f t i (<[k := ts']> g) + f (i + k) * cnt t ts
   = weigh f t i g + f (i + k) * cnt t ts')%nat.
Proof.
  induction g as [|x g IH]; intros i [|k] ts ts' Hk; simplify_eq/=.
  - rewrite Nat.add_0_r. lia.
  - specialize (IH (S i) k ts ts' Hk).
    replace (i + S k)%nat with (S i + k)%nat by lia. lia.
Qed.

Lemma count_tile_weigh_from t g i : count_tile t g = weigh (λ _, 1%nat) t i g.
Proof.
  unfold count_tile. revert i.
  induction g as [|ts g IH]; intros i; simpl; [done|].
  rewrite filter_app, length_app, (IH (S i)). unfold cnt. lia.
Qed.

Lemma count_tile_weigh t g : count_tile t g = weigh (λ _, 1%nat) t 0 g.
Proof. apply count_tile_weigh_from. Qed.

Lemma weigh_set_cell f t g r c v old :
  grid6 g → cell g r c = Some old →
  (weigh f t 0 (set_cell g r c v) + f (Z.to_nat (wrap r)) * holds (Some old) t
   = weigh f t 0 g + f (Z.to_nat (wrap r)) * holds (Some v) t)%nat.
Proof.
  intros Hg Hcell.
  assert (-6 ≤ r < 6 ∧ -6 ≤ c < 6) as [Hr Hc].
  { apply (cell_is_Some g); [done|]. by rewrite Hcell. }
  rewrite cell_lookup in Hcell by done.
  destruct Hg as [Hlen Hrows]. unfold set_cell.
  rewrite Hlen, (py_norm_is_Some r Hr).
  destruct (g !! Z.to_nat (wrap r)) as [ts|] eqn:Hts; [|done]. simpl in Hcell.
  unfold py_setitem.
  rewrite (Forall_lookup_1 _ _ _ _ Hrows Hts), (py_norm_is_Some c Hc). simpl.
  pose proof (weigh_insert f t g 0 _ ts (<[Z.to_nat (wrap c) := v]> ts) Hts) as Hw.
  pose proof (cnt_insert t ts _ old v Hcell) as Hc'.
  simpl in Hw. nia.
Qed.

Lemma cell_set_cell_other g r c v r' c' :
  grid6 g → is_Some (cell g r c) → 0 ≤ r' < 6 → 0 ≤ c' < 6 →
  (r', c') ≠ (wrap r, wrap c) →
  cell (set_cell g r c v) r' c' = cell g r' c'.
Proof.
  intros Hg Hsome Hr' Hc' Hne.
  pose proof (proj1 (cell_is_Some g r c Hg) Hsome) as [Hr Hc].
  rewrite cell_set_cell by done. by rewrite decide_False.
Qed.

(** What an accepted move does to the weighed count of [t]. *)
Lemma weigh_moved f t g src dst :
  grid6 g → legal g src dst →
  (weigh f t 0 (moved g src dst)
   + f (Z.to_nat (wrap src.1)) * holds (Some BLACK_PAWN) t
   + f (Z.to_nat dst.1) * holds (cell g dst.1 dst.2) t
   = weigh f t 0 g
     + f (Z.to_nat (wrap src.1)) * holds (Some EMPTY) t
     + f (Z.to_nat dst.1) * holds (Some BLACK_PAWN) t)%nat.
Proof.
  intros Hg Hlegal.
  pose proof Hlegal as (Hsrc & [Hdr Hdc] & _). unfold ROW, COL in Hdr, Hdc.
  pose proof (legal_readable _ _ _ Hlegal) as Hsome.
  pose proof (grid6_set_cell g src.1 src.2 "_" Hg) as Hg1.
  destruct (cell_in_grid g dst.1 dst.2 Hg Hdr Hdc) as [d Hd].
  assert (cell (set_cell g src.1 src.2 "_") dst.1 dst.2 = Some d) as Hd1.
  { rewrite cell_set_cell_other; [done..|].
    intros Heq. apply (legal_distinct g src dst Hg Hlegal). by destruct dst. }
  pose proof (weigh_set_cell f t g src.1 src.2 "_" _ Hg Hsrc) as H1.
  pose proof (weigh_set_cell f t _ dst.1 dst.2 "B" _ Hg1 Hd1) as H2.
  rewrite (wrap_id dst.1) in H2 by lia.
  unfold moved. rewrite Hd. unfold BLACK_PAWN, EMPTY in *. lia.
Qed.

(** X5: an accepted move keeps the number of black pawns, and takes one
    white pawn off the board exactly when the destination held one, which
    only a diagonal move can do. *)
Theorem move_keeps_pawns σ b g src dst :
  is_board σ b g → grid6 g →
  is_valid_move b src dst σ = Ok true σ →
  ∃ σ' g', state_change b src dst true σ = Ok b σ' ∧
           is_board σ' b g' ∧
           count_tile BLACK_PAWN g' = count_tile BLACK_PAWN g ∧
           (count_tile WHITE_PAWN g' + holds (cell g dst.1 dst.2) WHITE_PAWN
            = count_tile WHITE_PAWN g)%nat ∧
           (cell g dst.1 dst.2 = Some WHITE_PAWN → dst.2 ≠ src.2).
Proof.
  intros Hb Hg Hvalid. pose proof Hb as [ls Hat].
  rewrite (is_valid_move_spec σ b g) in Hvalid by done.
  destruct (cell g src.1 src.2) as [t|] eqn:Hsrc; [|done].
  injection Hvalid as Hlegal%bool_decide_eq_true.
  destruct (state_change_in_place σ b ls g src dst Hat Hg ltac:(by rewrite Hsrc))
    as (σ' & Hrun & Hat' & _).
  rewrite state_after_legal in Hat' by done.
  exists σ', (moved g src dst). split_and!; [done|by exists ls|..].
  - pose proof (weigh_moved (λ _, 1%nat) "B" g src dst Hg Hlegal) as Hw.
    rewrite <-!count_tile_weigh in Hw.
    assert (holds (cell g dst.1 dst.2) "B" = 0%nat) as Hfree.
    { unfold holds. case_decide as Hd; [|done]. exfalso.
      destruct Hlegal as (_ & _ & _ & _ & Hstraight & Hdiag).
      destruct (decide (dst.2 = src.2)) as [He|Hne].
      - rewrite (Hstraight He) in Hd. unfold EMPTY in Hd. discriminate.
      - by apply Hdiag. }
    unfold BLACK_PAWN, EMPTY, holds in *. repeat case_decide; simplify_eq; lia.
  - pose proof (weigh_moved (λ _, 1%nat) "W" g src dst Hg Hlegal) as Hw.
    rewrite <-!count_tile_weigh in Hw.
    unfold BLACK_PAWN, WHITE_PAWN, EMPTY, holds in *.
    repeat case_decide; simplify_eq; lia.
  - intros Hd He. destruct Hlegal as (_ & _ & _ & _ & Hstraight & _).
    rewrite (Hstraight He) in Hd. unfold EMPTY, WHITE_PAWN in Hd. discriminate.
Qed.

Lemma move_keeps_pawns_witness :
  ∃ σ' g', state_change init_board (1, 0) (2, 0) true init_store = Ok init_board σ' ∧
           is_board σ' init_board g' ∧
           count_tile BLACK_PAWN g' = count_tile BLACK_PAWN init_grid ∧
           (count_tile WHITE_PAWN g' + holds (cell init_grid 2 0) WHITE_PAWN
            = count_tile WHITE_PAWN init_grid)%nat ∧
           (cell init_grid 2 0 = Some WHITE_PAWN → 0 ≠ 0).
Proof.
  apply (move_keeps_pawns init_store init_board init_grid (1, 0) (2, 0)).
  - apply init_is_board.
  - apply init_grid6.
  - vm_compute. reflexivity.
Defined.

(** ** The way to the last row *)

Lemma legal_dst_free g src dst :
  legal g src dst → holds (cell g dst.1 dst.2) "B" = 0%nat.
Proof.
  intros (_ & _ & _ & _ & Hstraight & Hdiag).
  unfold holds. case_decide as Hd; [|done]. exfalso.
  destruct (decide (dst.2 = src.2)) as [He|Hne].
  - rewrite (Hstraight He) in Hd. unfold EMPTY in Hd. discriminate.
  - by apply Hdiag.
Qed.

(** While the game is on no black pawn stands on the last row, so the
    source row of an accepted move is a row of 0..4 as written. *)
Lemma legal_source_row g src dst :
  grid6 g → game_over g = false → legal g src dst → 0 ≤ src.1 < 5.
Proof.
  intros Hg Hover Hlegal.
  pose proof Hlegal as (Hsrc & [Hdr _] & Hrow & _). unfold ROW in Hdr.
  pose proof (proj1 (cell_is_Some g src.1 src.2 Hg) (legal_readable _ _ _ Hlegal))
    as [Hr Hc].
  destruct (decide (src.1 = -1)) as [Hlast|]; [|lia]. exfalso.
  unfold game_over in Hover. rewrite !orb_false_iff in Hover.
  destruct Hover as [[[Hreached _] _] _].
  assert (reached "B" g 5 = true) as Hcontra; [|congruence].
  apply reached_true; [done|lia|].
  exists (wrap src.2). split; [by apply wrap_in_range|].
  rewrite <-(cell_wrap g src.1 src.2) in Hsrc by done.
  rewrite Hlast in Hsrc. exact Hsrc.
Qed.

Lemma to_go_moved g src dst :
  grid6 g → game_over g = false → legal g src dst →
  (to_go (moved g src dst) + 1 = to_go g)%nat.
Proof.
  intros Hg Hover Hlegal.
  pose proof (legal_source_row g src dst Hg Hover Hlegal) as Hr.
  pose proof Hlegal as (_ & _ & Hrow & _).
  pose proof (weigh_moved (λ r, 5 - r)%nat "B" g src dst Hg Hlegal) as Hw.
  rewrite (legal_dst_free g src dst Hlegal) in Hw.
  rewrite (wrap_id src.1) in Hw by lia.
  change (holds (Some BLACK_PAWN) "B") with 1%nat in Hw.
  change (holds (Some EMPTY) "B") with 0%nat in Hw.
  rewrite Hrow in Hw. unfold to_go. cbv beta in Hw. lia.
Qed.

Lemma to_go_pos g :
  grid6 g → game_over g = false → (0 < to_go g)%nat.
Proof.
  intros Hg Hover.
  destruct (first_move_exists g Hg Hover) as [mv Hfirst].
  destruct (first_move_legal g mv Hg Hfirst) as [_ Hlegal].
  pose proof (to_go_moved g _ _ Hg Hover Hlegal). lia.
Qed.

Lemma cnt_le_length t ts : (cnt t ts ≤ length ts)%nat.
Proof. unfold cnt. apply length_filter. Qed.

Lemma to_go_bound g : grid6 g → (to_go g ≤ 90)%nat.
Proof.
  intros [Hlen Hrows].
  destruct g as [|r0 [|r1 [|r2 [|r3 [|r4 [|r5 [|]]]]]]]; simplify_eq/=.
  repeat (apply Forall_cons in Hrows as [? Hrows]).
  unfold to_go. simpl.
  pose proof (cnt_le_length "B" r0). pose proof (cnt_le_length "B" r1).
  pose proof (cnt_le_length "B" r2). pose proof (cnt_le_length "B" r3).
  pose proof (cnt_le_length "B" r4). lia.
Qed.

Lemma self_play_grid_ends fuel : ∀ g n,
  grid6 g → (to_go g ≤ fuel)%nat →
  ∃ n' g', self_play_grid fuel g n = Some (n', g') ∧ (n' ≤ n + to_go g)%nat.
Proof.
  induction fuel as [|fuel IH]; intros g n Hg Hfuel; simpl.
  - destruct (game_over g) eqn:Hover.
    + exists n, g. split; [done|lia].
    + pose proof (to_go_pos g Hg Hover). lia.
  - destruct (game_over g) eqn:Hover.
    { exists n, g. split; [done|lia]. }
    destruct (first_move_exists g Hg Hover) as [mv Hfirst]. rewrite Hfirst.
    destruct (first_move_legal g mv Hg Hfirst) as [_ Hlegal].
    rewrite state_after_legal by done.
    pose proof (to_go_moved g _ _ Hg Hover Hlegal) as Hstep.
    destruct (IH (moved g mv.1 mv.2) (S n)) as (n' & g' & Hrun & Hle).
    { by apply grid6_moved. }
    { lia. }
    exists n', g'. split; [done|lia].
Qed.

(** X6: from every fully populated 6x6 board, not only the initial one,
    the self-play loop raises nothing and stops on a board that is game
    over, after no more moves than the rows the black pawns are away from
    the last row, which is at most 90. *)
Theorem self_play_from_any_board σ b g fuel :
  is_board σ b g → grid6 g → (90 ≤ fuel)%nat →
  ∃ n σ', self_play fuel b 0 σ = Ok (Some n) σ' ∧
          (n ≤ to_go g)%nat ∧ (to_go g ≤ 90)%nat ∧
          is_game_over b σ' = Ok true σ'.
Proof.
  intros [ls Hat] Hg Hfuel.
  pose proof (to_go_bound g Hg) as Hbound.
  destruct (self_play_grid_ends fuel g 0 Hg ltac:(lia)) as (n & g' & Hrun & Hle).
  destruct (self_play_spec fuel σ b ls g 0 n g' Hat Hg Hrun)
    as (σ' & Hplay & Hat' & Hg' & Hover & _).
  exists n, σ'. split_and!; [done|lia|done|].
  rewrite (is_game_over_spec σ' b g'); [by rewrite Hover|by exists ls|done].
Qed.

Lemma opened_is_board : is_board opened_store init_board opened_grid.
Proof.
  destruct init_is_board as [ls Hat].
  destruct (turn_black init_store init_board ls init_grid example_agents
              (Locals 0 0 None []) Hat init_grid6) as (mv & σ' & Hpick & _ & Hturn & Hat').
  { vm_compute. reflexivity. }
  { reflexivity. }
  { intros e. discriminate. }
  { discriminate. }
  simpl in Hpick. subst mv. unfold opened_store. rewrite Hturn. by exists ls.
Qed.

Lemma self_play_from_any_board_witness :
  ∃ n σ', self_play 90 init_board 0 opened_store = Ok (Some n) σ' ∧
          (n ≤ to_go opened_grid)%nat ∧ (to_go opened_grid ≤ 90)%nat ∧
          is_game_over init_board σ' = Ok true σ'.
Proof.
  apply (self_play_from_any_board opened_store init_board opened_grid 90).
  - apply opened_is_board.
  - apply grid6_moved, init_grid6.
  - lia.
Defined.

(** ** The other side of the board *)

Lemma cell_inverted g r c :
  grid6 g → 0 ≤ r < 6 → 0 ≤ c < 6 →
  cell (inverted g) r c = swap <$> cell g (5 - r) c.
Proof.
  intros Hg Hr Hc. pose proof (inverted_grid6 g Hg) as Hg'.
  rewrite !cell_lookup by (done || lia). rewrite !wrap_id by lia.
  destruct Hg as [Hlen Hrows]. unfold inverted.
  rewrite list_lookup_fmap, reverse_lookup by lia.
  rewrite Hlen. replace (6 - S (Z.to_nat r))%nat with (Z.to_nat (5 - r)) by lia.
  destruct (g !! Z.to_nat (5 - r)) as [ts|]; simpl; [|done].
  by rewrite list_lookup_fmap.
Qed.

Lemma swap_is_black t : swap t = "B" ↔ t = "W".
Proof. unfold swap. repeat case_bool_decide; naive_solver. Qed.

Lemma swap_is_white t : swap t = "W" ↔ t = "B".
Proof. unfold swap. repeat case_bool_decide; naive_solver. Qed.

Lemma cnt_swap_black ts : cnt "B" (swap <$> ts) = cnt "W" ts.
Proof.
  unfold cnt. induction ts as [|t ts IH]; [done|].
  rewrite fmap_cons, !filter_cons.
  pose proof (swap_is_black t).
  repeat case_decide; simpl; rewrite ?IH; try done; exfalso; tauto.
Qed.

Lemma cnt_swap_white ts : cnt "W" (swap <$> ts) = cnt "B" ts.
Proof.
  unfold cnt. induction ts as [|t ts IH]; [done|].
  rewrite fmap_cons, !filter_cons.
  pose proof (swap_is_white t).
  repeat case_decide; simpl; rewrite ?IH; try done; exfalso; tauto.
Qed.

Lemma six_rows (g : grid) :
  length g = 6%nat → ∃ r0 r1 r2 r3 r4 r5, g = [r0; r1; r2; r3; r4; r5].
Proof.
  intros Hlen.
  destruct g as [|r0 [|r1 [|r2 [|r3 [|r4 [|r5 [|]]]]]]]; simplify_eq/=.
  by eexists _, _, _, _, _, _.
Qed.

Lemma count_tile_inverted g :
  grid6 g →
  count_tile "B" (inverted g) = count_tile "W" g ∧
  count_tile "W" (inverted g) = count_tile "B" g.
Proof.
  intros [Hlen _]. destruct (six_rows g Hlen) as (r0 & r1 & r2 & r3 & r4 & r5 & ->).
  rewrite !count_tile_weigh. unfold inverted. cbn.
  rewrite !cnt_swap_black, !cnt_swap_white. lia.
Qed.

(** X7: [invert_board] puts on row [r] the cells of row [5 - r], each
    white pawn turned black and each black pawn white, any other cell as
    it was; the two numbers of pawns are exchanged. *)
Theorem invert_board_cells σ b g :
  is_board σ b g → grid6 g →
  ∃ σ' g', invert_board b true σ = Ok b σ' ∧
           is_board σ' b g' ∧ grid6 g' ∧
           (∀ r c, 0 ≤ r < 6 → 0 ≤ c < 6 →
                   cell g' r c = swap <$> cell g (5 - r) c) ∧
           count_tile BLACK_PAWN g' = count_tile WHITE_PAWN g ∧
           count_tile WHITE_PAWN g' = count_tile BLACK_PAWN g.
Proof.
  intros [ls Hat] Hg.
  destruct (invert_board_in_place σ b ls g Hat) as (σ' & Hrun & Hat' & _).
  destruct (count_tile_inverted g Hg) as [Hblack Hwhite].
  exists σ', (inverted g). split_and!; [done|by eexists|by apply inverted_grid6| |done..].
  intros r c Hr Hc. by apply cell_inverted.
Qed.

Lemma invert_board_cells_witness :
  ∃ σ' g', invert_board init_board true opened_store = Ok init_board σ' ∧
           is_board σ' init_board g' ∧ grid6 g' ∧
           (∀ r c, 0 ≤ r < 6 → 0 ≤ c < 6 →
                   cell g' r c = swap <$> cell opened_grid (5 - r) c) ∧
           count_tile BLACK_PAWN g' = count_tile WHITE_PAWN opened_grid ∧
           count_tile WHITE_PAWN g' = count_tile BLACK_PAWN opened_grid.
Proof.
  apply (invert_board_cells opened_store init_board opened_grid).
  - apply opened_is_board.
  - apply grid6_moved, init_grid6.
Defined.

Lemma legal_by_computation g src dst :
  bool_decide (legal g src dst) = true → legal g src dst.
Proof. apply bool_decide_eq_true. Qed.

Lemma mirror_pos (r c r' c' : Z) : (5 - r, c) = (r', c') ↔ (r, c) = (5 - r', c').
Proof. split; intros [= ??]; f_equal; lia. Qed.

(** X8: White's turn, seen on the board as it stands between turns.
    When White's agent, which is shown the inverted board, answers a move
    from a cell of the grid that the rule accepts there, the turn moves a
    white pawn one row up: the cell [(5 - sr, sc)] held a white pawn and
    is emptied, the cell [(5 - dr, dc)] holds a white pawn, every other
    cell is as it was, and [random_moves] is as it was. *)
Theorem white_turn_moves_white σ b g ag st mv :
  is_board σ b g → grid6 g →
  Nat.even (move st) = false →
  (∀ σ1, white_make_move ag (move st) b σ1 = Ok mv σ1) →
  in_grid mv.1 → legal (inverted g) mv.1 mv.2 →
  ∃ σ' g',
    turn ag b st σ =
      Ok (inl (Locals (S (move st)) (random_moves st) (Some White)
                 (asked st ++ [White]))) σ' ∧
    is_board σ' b g' ∧
    cell g (5 - mv.1.1) mv.1.2 = Some WHITE_PAWN ∧
    5 - mv.2.1 = 5 - mv.1.1 - 1 ∧
    ∀ r c, 0 ≤ r < 6 → 0 ≤ c < 6 →
      cell g' r c =
        if decide ((r, c) = (5 - mv.2.1, mv.2.2)) then Some WHITE_PAWN
        else if decide ((r, c) = (5 - mv.1.1, mv.1.2)) then Some EMPTY
        else cell g r c.
Proof.
  intros [ls Hat] Hg Hodd Hagent [Hsr Hsc] Hlegal. unfold ROW, COL in Hsr, Hsc.
  pose proof (inverted_grid6 g Hg) as Hg1.
  destruct (turn_white σ b ls g ag st mv Hat Hg Hodd Hagent
              (legal_readable _ _ _ Hlegal)) as (σ' & Hturn & Hat').
  rewrite state_after_legal in Hat' by done.
  pose proof Hlegal as (Hsrc & [Hdr Hdc] & Hrow & _). unfold ROW, COL in Hdr, Hdc.
  exists σ', (inverted (moved (inverted g) mv.1 mv.2)).
  split_and!; [done|by exists ls| |lia|].
  - rewrite cell_inverted in Hsrc by done.
    destruct (cell g (5 - mv.1.1) mv.1.2) as [t|]; [|done].
    simpl in Hsrc. injection Hsrc as Hsrc%swap_is_black. by subst t.
  - intros r c Hr Hc.
    rewrite cell_inverted by (done || by apply grid6_moved).
    rewrite cell_moved by (done || lia).
    rewrite !wrap_id by lia.
    destruct mv as [[sr sc] [dr dc]]. simpl in *.
    pose proof (mirror_pos r c dr dc) as Hmd.
    pose proof (mirror_pos r c sr sc) as Hms.
    destruct (decide ((5 - r, c) = (dr, dc))), (decide ((r, c) = (5 - dr, dc)));
      [done|exfalso; tauto|exfalso; tauto|].
    destruct (decide ((5 - r, c) = (sr, sc))), (decide ((r, c) = (5 - sr, sc)));
      [done|exfalso; tauto|exfalso; tauto|].
    rewrite cell_inverted by (done || lia).
    replace (5 - (5 - r)) with r by lia.
    destruct (cell g r c) as [t|]; simpl; [|done]. by rewrite swap_swap.
Qed.

Lemma white_turn_moves_white_witness :
  ∃ σ' g',
    turn (Agents (λ _ _, StillRunning) (λ _ _, ret ((1, 0), (2, 0)))) init_board
         (Locals 1 0 (Some Black) [Black]) opened_store =
      Ok (inl (Locals 2 0 (Some White) [Black; White])) σ' ∧
    is_board σ' init_board g' ∧
    cell opened_grid (5 - 1) 0 = Some WHITE_PAWN ∧
    5 - 2 = 5 - 1 - 1 ∧
    ∀ r c, 0 ≤ r < 6 → 0 ≤ c < 6 →
      cell g' r c =
        if decide ((r, c) = (5 - 2, 0)) then Some WHITE_PAWN
        else if decide ((r, c) = (5 - 1, 0)) then Some EMPTY
        else cell opened_grid r c.
Proof.
  apply (white_turn_moves_white opened_store init_board opened_grid
           (Agents (λ _ _, StillRunning) (λ _ _, ret ((1, 0), (2, 0))))
           (Locals 1 0 (Some Black) [Black]) ((1, 0), (2, 0))).
  - apply opened_is_board.
  - apply grid6_moved, init_grid6.
  - reflexivity.
  - reflexivity.
  - unfold in_grid, ROW, COL. simpl. lia.
  - apply legal_by_computation. vm_compute. reflexivity.
Defined.

(** ** The course of a match *)

Lemma ask_white_result ag b st σ r σ' :
  ask_white ag b st σ = Ok r σ' → ∃ mv, r = inl (mv, random_moves st).
Proof.
  unfold ask_white, bind, ret. intros Hrun.
  repeat case_match; simplify_eq. by eexists.
Qed.

Lemma ask_black_result ag b st σ r σ' :
  ask_black ag b st σ = Ok r σ' →
  (∃ mv rnd, r = inl (mv, rnd) ∧
             (rnd = random_moves st ∨ rnd = S (random_moves st))) ∨
  (∃ msg, r = inr (Returns (PStr msg))) ∨
  r = inr Blocks.
Proof.
  unfold ask_black, bind, ret. intros Hrun.
  repeat case_match; simplify_eq; eauto 10.
Qed.

Lemma turn_result ag b st σ r σ' :
  turn ag b st σ = Ok r σ' →
  (∃ rnd, r = inl (Locals (S (move st)) rnd (Some (side_to_move (move st)))
                     (asked st ++ [side_to_move (move st)])) ∧
          (rnd = random_moves st ∨
           (Nat.even (move st) = true ∧ rnd = S (random_moves st)))) ∨
  (∃ msg, Nat.even (move st) = true ∧
          r = inr (Returns (PStr msg),
                   Locals (move st) (random_moves st) (Some Black)
                     (asked st ++ [Black]))) ∨
  (∃ st', r = inr (Blocks, st')).
Proof.
  unfold turn, side_to_move. intros Hrun.
  destruct (Nat.even (move st)) eqn:Heven; simpl in Hrun.
  - unfold bind at 1 in Hrun.
    destruct (ask_black ag b st σ) as [r0 σ0|] eqn:Hask; [|done].
    destruct (ask_black_result _ _ _ _ _ _ Hask)
      as [(mv & rnd & -> & Hrnd)|[(msg & ->)| ->]].
    + left. exists rnd. unfold bind, ret in Hrun.
      repeat case_match; simplify_eq. split; [done|]. destruct Hrnd; auto.
    + right. left. exists msg. unfold ret in Hrun. by simplify_eq.
    + right. right. unfold ret in Hrun. simplify_eq. by eexists.
  - unfold bind at 1 in Hrun.
    destruct (ask_white ag b st σ) as [r0 σ0|] eqn:Hask; [|done].
    destruct (ask_white_result _ _ _ _ _ _ Hask) as (mv & ->).
    left. exists (random_moves st). unfold bind, ret in Hrun.
    repeat case_match; simplify_eq. auto.
Qed.

Lemma turns_taken_S n : turns_taken (S n) = turns_taken n ++ [side_to_move n].
Proof. unfold turns_taken. by rewrite seq_S, fmap_app. Qed.

Lemma play_loop_locals fuel ag b : ∀ st σ res st' σ',
  asked st = turns_taken (move st) →
  color st = match move st with O => None | S k => Some (side_to_move k) end →
  (2 * random_moves st ≤ move st + 1)%nat →
  play_loop fuel ag b st σ = Ok (Some (res, st')) σ' →
  (2 * random_moves st' ≤ move st' + 1)%nat ∧
  match res with
  | PBool v => asked st' = turns_taken (move st') ∧ v = Nat.odd (move st') ∧
               is_game_over b σ' = Ok true σ'
  | PStr _ => asked st' = turns_taken (S (move st')) ∧ Nat.even (move st') = true
  end.
Proof.
  induction fuel as [|fuel IH]; intros st σ res st' σ' Hasked Hcolor Hrnd Hrun.
  all: simpl in Hrun; unfold bind at 1 in Hrun.
  all: pose proof (readonly_is_game_over b σ) as Hro.
  all: destruct (is_game_over b σ) as [over σ0|] eqn:Hover; [subst σ0|done].
  all: assert (over = true → (2 * random_moves st' ≤ move st' + 1)%nat ∧
         match res with
         | PBool v => asked st' = turns_taken (move st') ∧ v = Nat.odd (move st') ∧
                      is_game_over b σ' = Ok true σ'
         | PStr _ => asked st' = turns_taken (S (move st')) ∧ Nat.even (move st') = true
         end) as Hdone.
  1, 3: intros ->; unfold ret in Hrun; simplify_eq; split; [done|];
        split_and!; [done| |done]; rewrite Hcolor;
        destruct (move st') as [|k]; [done|];
        unfold side_to_move; rewrite Nat.odd_succ;
        by destruct (Nat.even k).
  - destruct over; [by apply Hdone|done].
  - destruct over; [by apply Hdone|]. clear Hdone.
    unfold bind at 1 in Hrun.
    destruct (turn ag b st σ) as [r σ1|] eqn:Hturn; [|done].
    destruct (turn_result _ _ _ _ _ _ Hturn)
      as [(rnd & -> & Hstep)|[(msg & Heven & ->)|(st0 & ->)]].
    + eapply IH; [..|exact Hrun]; simpl.
      * by rewrite turns_taken_S, Hasked.
      * done.
      * destruct Hstep as [->|[Heven ->]]; [lia|].
        apply Nat.even_spec in Heven as [k Hk]. lia.
    + unfold ret in Hrun. simplify_eq. simpl. split; [done|].
      split; [|done]. rewrite turns_taken_S, Hasked.
      unfold side_to_move. by rewrite Heven.
    + done.
Qed.

(** X9: whatever the agents do, when [play] returns, the turns it has
    taken are Black, White, Black, ... in that order, and it has counted
    at most one random move for each of Black's turns.  When it returns a
    boolean the game is over on the board, and the boolean is true
    exactly when the number of turns taken is odd, that is when Black
    moved last; a failure string is returned during a turn of Black. *)
Theorem play_alternates fuel ag b σ res st σ' :
  play fuel ag b σ = Ok (Some (res, st)) σ' →
  (2 * random_moves st ≤ move st + 1)%nat ∧
  match res with
  | PBool v => asked st = turns_taken (move st) ∧ v = Nat.odd (move st) ∧
               is_game_over b σ' = Ok true σ'
  | PStr _ => asked st = turns_taken (S (move st)) ∧ Nat.even (move st) = true
  end.
Proof.
  intros Hrun. eapply (play_loop_locals fuel ag b (Locals 0 0 None [])); [..|exact Hrun].
  - done.
  - done.
  - simpl. lia.
Qed.

Lemma play_alternates_witness :
  ∃ res st σ',
    play 200 example_agents init_board init_store = Ok (Some (res, st)) σ' ∧
    (2 * random_moves st ≤ move st + 1)%nat ∧
    match res with
    | PBool v => asked st = turns_taken (move st) ∧ v = Nat.odd (move st) ∧
                 is_game_over init_board σ' = Ok true σ'
    | PStr _ => asked st = turns_taken (S (move st)) ∧ Nat.even (move st) = true
    end.
Proof.
  eexists _, _, _. split; [vm_compute; reflexivity|].
  apply (play_alternates 200 example_agents init_board init_store).
  vm_compute. reflexivity.
Defined.

Lemma to_go_inverted g :
  grid6 g → to_go (inverted g) = weigh (λ i, i) "W" 0 g.
Proof.
  intros [Hlen _]. destruct (six_rows g Hlen) as (r0 & r1 & r2 & r3 & r4 & r5 & ->).
  unfold to_go, inverted. cbn. rewrite !cnt_swap_black. lia.
Qed.

(** A move on the inverted board takes no black pawn of the board nearer
    to the last row. *)
Lemma to_go_white_move g src dst :
  grid6 g →
  (to_go (inverted (state_after (inverted g) src dst)) ≤ to_go g)%nat.
Proof.
  intros Hg. pose proof (inverted_grid6 g Hg) as Hg1.
  destruct (decide (legal (inverted g) src dst)) as [Hlegal|Hillegal].
  - rewrite state_after_legal by done.
    rewrite to_go_inverted by (by apply grid6_moved).
    rewrite <-(inverted_inverted g) at 2. rewrite to_go_inverted by done.
    pose proof (weigh_moved (λ i, i) "W" (inverted g) src dst Hg1 Hlegal) as Hw.
    change (holds (Some BLACK_PAWN) "W") with 0%nat in Hw.
    change (holds (Some EMPTY) "W") with 0%nat in Hw.
    cbv beta in Hw. lia.
  - rewrite state_after_illegal by done. by rewrite inverted_inverted.
Qed.

Lemma even_after_odd n : Nat.even n = false → Nat.even (S n) = true.
Proof. intros H. by rewrite Nat.even_succ, <-Nat.negb_even, H. Qed.

Lemma odd_after_even n : Nat.even n = true → Nat.even (S n) = false.
Proof. intros H. by rewrite Nat.even_succ, <-Nat.negb_even, H. Qed.

(** White's turn for an agent that leaves the store alone: the turn
    raises, or goes on with a board no nearer to its end for Black. *)
Lemma turn_white_any σ b ls g ag st :
  board_at σ b ls g → grid6 g →
  Nat.even (move st) = false →
  readonly (white_make_move ag (move st) b) →
  (∃ e σ', turn ag b st σ = Raise e σ') ∨
  (∃ st' σ' g', turn ag b st σ = Ok (inl st') σ' ∧
                Nat.even (move st') = true ∧
                board_at σ' b ls g' ∧ grid6 g' ∧ (to_go g' ≤ to_go g)%nat).
Proof.
  intros Hat Hg Hodd Hro.
  destruct (invert_board_in_place σ b ls g Hat) as (σ1 & Hinv1 & Hat1 & _).
  pose proof (inverted_grid6 g Hg) as Hg1.
  specialize (Hro σ1).
  destruct (white_make_move ag (move st) b σ1) as [mv σ1'|e σ1'] eqn:Hagent; subst σ1'.
  - destruct (turn_white_at σ b ls g ag st σ1 mv Hat Hg Hodd Hinv1 Hagent)
      as [Hmoves Hraises].
    destruct (cell (inverted g) mv.1.1 mv.1.2) as [t|] eqn:Hsrc.
    + right. destruct (Hmoves ltac:(by eexists)) as (σ' & Hturn & Hat').
      eexists _, σ', _. split_and!; [exact Hturn| |exact Hat'| |].
      * by apply even_after_odd.
      * by apply inverted_grid6, grid6_state_after.
      * by apply to_go_white_move.
    + left. eauto.
  - left. exists e, σ1. unfold turn. rewrite Hodd. simpl.
    erewrite bind_raise; [done|]. unfold ask_white.
    rewrite (bind_ok _ _ _ _ _ Hinv1). by rewrite (bind_raise _ _ _ _ _ Hagent).
Qed.

Lemma play_loop_finishes ag b fuel : ∀ st σ ls g,
  board_at σ b ls g → grid6 g →
  (∀ k g', ¬ leaves_queue_empty (black_job ag k g')) →
  (∀ k, readonly (white_make_move ag k b)) →
  (2 * to_go g + (if Nat.even (move st) then 0 else 1) ≤ fuel)%nat →
  finished (play_loop fuel ag b st σ).
Proof.
  induction fuel as [|fuel IH]; intros st σ ls g Hat Hg Hblack Hwhite Hfuel.
  all: simpl; rewrite (bind_ok _ _ _ _ _ (is_game_over_spec σ b g ltac:(by exists ls) Hg)).
  all: destruct (game_over g) eqn:Hover; [done|].
  all: pose proof (to_go_pos g Hg Hover) as Hpos.
  { destruct (Nat.even (move st)); lia. }
  destruct (Nat.even (move st)) eqn:Hside.
  - pose proof (Hblack (move st) g) as Hqueue.
    destruct (black_job ag (move st) g) as [| [e|] | [mv0|] | code] eqn:Hex;
      [|clear Hqueue|by destruct Hqueue| |by destruct Hqueue|].
    2: { destruct (turn_black_raised σ b ls g ag st e Hat Hside Hex) as (σ' & Hturn & _).
         by rewrite (bind_ok _ _ _ _ _ Hturn). }
    all: destruct (turn_black σ b ls g ag st Hat Hg Hover Hside)
           as (mv & σ' & _ & Hlegal & Hturn & Hat'); [by rewrite Hex|by rewrite Hex|].
    all: rewrite (bind_ok _ _ _ _ _ Hturn).
    all: pose proof (to_go_moved g _ _ Hg Hover Hlegal) as Hstep.
    all: eapply IH; [exact Hat'|by apply grid6_moved|done|done|].
    all: change (move (Locals (S (move st)) _ _ _)) with (S (move st)).
    all: rewrite (odd_after_even _ Hside); lia.
  - destruct (turn_white_any σ b ls g ag st Hat Hg Hside (Hwhite _))
      as [(e & σ' & Hturn)|(st' & σ' & g' & Hturn & Hnext & Hat' & Hg' & Hle)].
    + by rewrite (bind_raise _ _ _ _ _ Hturn).
    + rewrite (bind_ok _ _ _ _ _ Hturn).
      eapply IH; [exact Hat'|done|done|done|]. rewrite Hnext. lia.
Qed.

(** X10: on a fully populated 6x6 board, when Black's process never ends
    with code 0 or 1 and nothing queued, and every call of White's agent
    returns or raises without writing to the store, [play] comes to an
    end whatever the two agents answer: the loop is left, by a return or
    by an exception, within [2 * d] passes, where [d], at most 90, is the
    number of rows between the black pawns and the last row, summed over
    the pawns. *)
Theorem play_finishes fuel ag b σ g :
  is_board σ b g → grid6 g →
  (∀ k g', ¬ leaves_queue_empty (black_job ag k g')) →
  (∀ k, readonly (white_make_move ag k b)) →
  (2 * to_go g ≤ fuel)%nat →
  (to_go g ≤ 90)%nat ∧ finished (play fuel ag b σ).
Proof.
  intros [ls Hat] Hg Hblack Hwhite Hfuel. split; [by apply to_go_bound|].
  apply (play_loop_finishes ag b fuel _ σ ls g); [done..|].
  simpl. lia.
Qed.

Lemma play_finishes_witness :
  (to_go init_grid ≤ 90)%nat ∧ finished (play 180 example_agents init_board init_store).
Proof.
  apply (play_finishes 180 example_agents init_board init_store init_grid).
  - apply init_is_board.
  - apply init_grid6.
  - intros k g' Hempty. exact Hempty.
  - intros k σ. reflexivity.
  - vm_compute. lia.
Defined.

(** ** The end of the game after a move *)

Lemma count_moved g src dst :
  grid6 g → legal g src dst →
  count_tile "B" (moved g src dst) = count_tile "B" g ∧
  (count_tile "W" (moved g src dst) + holds (cell g dst.1 dst.2) "W"
   = count_tile "W" g)%nat.
Proof.
  intros Hg Hlegal. split.
  - pose proof (weigh_moved (λ _, 1%nat) "B" g src dst Hg Hlegal) as Hw.
    rewrite <-!count_tile_weigh in Hw.
    rewrite (legal_dst_free g src dst Hlegal) in Hw.
    change (holds (Some BLACK_PAWN) "B") with 1%nat in Hw.
    change (holds (Some EMPTY) "B") with 0%nat in Hw. lia.
  - pose proof (weigh_moved (λ _, 1%nat) "W" g src dst Hg Hlegal) as Hw.
    rewrite <-!count_tile_weigh in Hw.
    change (holds (Some BLACK_PAWN) "W") with 0%nat in Hw.
    change (holds (Some EMPTY) "W") with 0%nat in Hw. lia.
Qed.

Lemma game_over_false g :
  grid6 g → game_over g = false →
  (∀ c, 0 ≤ c < 6 → cell g 5 c ≠ Some "B") ∧
  (∀ c, 0 ≤ c < 6 → cell g 0 c ≠ Some "W") ∧
  count_tile "B" g ≠ 0%nat ∧ count_tile "W" g ≠ 0%nat.
Proof.
  intros Hg Hover. unfold game_over in Hover. rewrite !orb_false_iff in Hover.
  destruct Hover as [[[Hlast Hfirst] Hblack%Nat.eqb_neq] Hwhite%Nat.eqb_neq].
  split_and!; [| |done..].
  - intros c Hc Hcell. assert (reached "B" g 5 = true) as Heq; [|congruence].
    apply reached_true; [done|lia|]. by exists c.
  - intros c Hc Hcell. assert (reached "W" g 0 = true) as Heq; [|congruence].
    apply reached_true; [done|lia|]. by exists c.
Qed.

(** X11: while the game is on, an accepted move ends it exactly when the
    pawn lands on row 5 or takes the last white pawn. *)
Theorem move_ends_game σ b g src dst :
  is_board σ b g → grid6 g →
  is_game_over b σ = Ok false σ →
  is_valid_move b src dst σ = Ok true σ →
  ∃ σ' v, state_change b src dst true σ = Ok b σ' ∧
          is_game_over b σ' = Ok v σ' ∧
          (v = true ↔
             dst.1 = 5 ∨
             (cell g dst.1 dst.2 = Some WHITE_PAWN ∧ count_tile WHITE_PAWN g = 1%nat)).
Proof.
  intros Hb Hg Hover Hvalid. pose proof Hb as [ls Hat].
  rewrite (is_game_over_spec σ b g) in Hover by done. injection Hover as Hover.
  rewrite (is_valid_move_spec σ b g) in Hvalid by done.
  destruct (cell g src.1 src.2) as [t|] eqn:Hsrc; [|done].
  injection Hvalid as Hlegal%bool_decide_eq_true.
  destruct (state_change_in_place σ b ls g src dst Hat Hg ltac:(by rewrite Hsrc))
    as (σ' & Hrun & Hat' & _).
  rewrite state_after_legal in Hat' by done.
  pose proof (grid6_moved g src dst Hg) as Hg'.
  exists σ', (game_over (moved g src dst)). split_and!; [done| |].
  { apply is_game_over_spec; [by exists ls|done]. }
  destruct (game_over_false g Hg Hover) as (Hlast & Hfirst & Hblack & Hwhite).
  destruct (count_moved g src dst Hg Hlegal) as [HB HW].
  pose proof (legal_source_row g src dst Hg Hover Hlegal) as Hsr.
  pose proof Hlegal as (_ & [Hdr Hdc] & Hrow & _). unfold ROW, COL in Hdr, Hdc.
  pose proof (proj1 (cell_is_Some g src.1 src.2 Hg) (legal_readable _ _ _ Hlegal))
    as [_ Hsc].
  pose proof (wrap_in_range _ Hsc) as Hwc.
  rewrite game_over_true by done. unfold BLACK_PAWN, WHITE_PAWN.
  rewrite HB. split.
  - intros [(c & Hc & Hcell)|[(c & Hc & Hcell)|[Hzero|Hzero]]].
    + rewrite cell_moved in Hcell by (done || lia).
      destruct (decide ((5, c) = dst)) as [<-|_]; [by left|].
      destruct (decide ((5, c) = (wrap src.1, wrap src.2))); [done|].
      by destruct (Hlast c Hc).
    + rewrite cell_moved in Hcell by (done || lia).
      destruct (decide ((0, c) = dst)); [done|].
      destruct (decide ((0, c) = (wrap src.1, wrap src.2))); [done|].
      by destruct (Hfirst c Hc).
    + done.
    + right. unfold holds in HW. case_decide; [split; [done|lia]|lia].
  - intros [Hrow5|[Hcap Hone]].
    + left. exists dst.2. split; [done|].
      rewrite <-Hrow5. by apply cell_moved_dst.
    + right. right. right. unfold holds in HW. rewrite decide_True in HW by done. lia.
Qed.

Lemma move_ends_game_witness :
  ∃ σ' v, state_change init_board (1, 0) (2, 0) true init_store = Ok init_board σ' ∧
          is_game_over init_board σ' = Ok v σ' ∧
          (v = true ↔
             2 = 5 ∨
             (cell init_grid 2 0 = Some WHITE_PAWN ∧
              count_tile WHITE_PAWN init_grid = 1%nat)).
Proof.
  apply (move_ends_game init_store init_board init_grid (1, 0) (2, 0)).
  - apply init_is_board.
  - apply init_grid6.
  - vm_compute. reflexivity.
  - vm_compute. reflexivity.
Defined.

(** ** Black's turn with a move the rule accepts *)

(** X12: on Black's turn, when the process hands over a move that the
    rule accepts, that move is the one applied and [random_moves] is as
    it was.  The rule accepts sources written with a negative index, so
    this includes a pawn taken from column 5 to column 0. *)
Theorem black_turn_accepts σ b g ag st mv :
  is_board σ b g → grid6 g →
  is_game_over b σ = Ok false σ →
  Nat.even (move st) = true →
  black_job ag (move st) g = Exited0 (Some mv) →
  is_valid_move b mv.1 mv.2 σ = Ok true σ →
  ∃ σ',
    turn ag b st σ =
      Ok (inl (Locals (S (move st)) (random_moves st) (Some Black)
                 (asked st ++ [Black]))) σ' ∧
    is_board σ' b (moved g mv.1 mv.2).
Proof.
  intros Hb Hg Hover Heven Hex Hvalid. pose proof Hb as [ls Hat].
  rewrite (is_game_over_spec σ b g) in Hover by done. injection Hover as Hover.
  rewrite (is_valid_move_spec σ b g) in Hvalid by done.
  destruct (cell g mv.1.1 mv.1.2) as [t|] eqn:Hsrc; [|done].
  injection Hvalid as Hlegal%bool_decide_eq_true.
  destruct (turn_black σ b ls g ag st Hat Hg Hover Heven)
    as (mv' & σ' & Hpick & _ & Hturn & Hat').
  { intros e. by rewrite Hex. }
  { by rewrite Hex. }
  rewrite Hex in Hpick, Hturn. simpl in Hpick, Hturn.
  rewrite bool_decide_eq_true_2 in Hpick, Hturn by done. subst mv'.
  exists σ'. split; [done|by exists ls].
Qed.

Lemma black_turn_accepts_witness :
  ∃ σ',
    turn (Agents (λ _ _, Exited0 (Some ((1, -1), (2, 0)))) (λ _ _, ret MOVE_NONE))
         init_board (Locals 0 0 None []) init_store =
      Ok (inl (Locals 1 0 (Some Black) [Black])) σ' ∧
    is_board σ' init_board (moved init_grid (1, -1) (2, 0)).
Proof.
  apply (black_turn_accepts init_store init_board init_grid
           (Agents (λ _ _, Exited0 (Some ((1, -1), (2, 0)))) (λ _ _, ret MOVE_NONE))
           (Locals 0 0 None []) ((1, -1), (2, 0))).
  - apply init_is_board.
  - apply init_grid6.
  - vm_compute. reflexivity.
  - reflexivity.
  - reflexivity.
  - vm_compute. reflexivity.
Defined.

(** ** [print_state] *)

Lemma string_length_append (s1 s2 : string) :
  String.length (s1 +:+ s2) = (String.length s1 + String.length s2)%nat.
Proof. induction s1 as [|a s1 IH]; simpl; [done|]. by rewrite IH. Qed.

Lemma render_tile_length t :
  String.length t = 1%nat → String.length (render_tile t) = 1%nat.
Proof. intros. unfold render_tile. by case_bool_decide. Qed.

Lemma render_row_length ts :
  length ts = 6%nat → Forall (λ t, String.length t = 1%nat) ts →
  String.length (render_row ts) = 37%nat.
Proof.
  intros Hlen Hone.
  destruct ts as [|a [|b [|c [|d [|e [|f [|]]]]]]]; simplify_eq/=.
  repeat (apply Forall_cons in Hone as [?%render_tile_length Hone]).
  unfold render_row. cbn [fmap list_fmap str_join].
  rewrite !string_length_append. cbn [String.length].
  repeat match goal with H : String.length _ = _ |- _ => rewrite H; clear H end.
  reflexivity.
Qed.

Lemma print_lines_run (g : grid) i out :
  run_pure (Rt := Empty_set)
    (λ _ ts out, inl (out ++ [horizontal_rule; render_row ts])) i g out
  = inl (out ++ concat ((λ ts, [horizontal_rule; render_row ts]) <$> g)).
Proof.
  revert i out. induction g as [|ts g IH]; intros i out; simpl.
  - by rewrite app_nil_r.
  - rewrite IH. by rewrite <-app_assoc.
Qed.

Lemma print_state_spec σ b g :
  is_board σ b g → print_state b σ = Ok (board_lines g) σ.
Proof.
  intros Hb. destruct (load_outer_board _ _ _ Hb) as (ls & Hload & _ & _ & HF).
  unfold print_state.
  erewrite bind_ok; last first.
  { eapply (for_in_readonly _ _ _
      (λ _ ts out, inl (out ++ [horizontal_rule; render_row ts])));
      [exact Hload|exact HF|].
    intros r l ts out Hl Hts Hlts. simpl in Hlts.
    by rewrite (bind_ok _ _ _ _ _ (load_row_lookup _ _ _ Hlts)). }
  by rewrite print_lines_run.
Qed.

Lemma board_lines_length g : length (board_lines g) = (2 * length g + 1)%nat.
Proof.
  unfold board_lines. rewrite length_app. simpl.
  induction g as [|ts g IH]; csimpl in *; lia.
Qed.

Lemma board_lines_lookup g r ts :
  g !! r = Some ts →
  board_lines g !! (2 * r)%nat = Some horizontal_rule ∧
  board_lines g !! (2 * r + 1)%nat = Some (render_row ts).
Proof.
  unfold board_lines. revert r. induction g as [|ts' g IH]; intros [|r] Hr; simplify_eq/=.
  - done.
  - replace (r + S (r + 0))%nat with (S (2 * r)) by lia.
    replace (r + S (r + 0) + 1)%nat with (S (2 * r + 1)) by lia.
    simpl. by apply IH.
Qed.

(** X13: [print_state] of a fully populated 6x6 board of one-character
    cells writes 13 lines, each 37 characters wide: the rule on the even
    lines and the rows between them, an empty cell shown as a blank.  It
    writes nothing to the store. *)
Theorem print_state_aligned σ b g :
  is_board σ b g → grid6 g →
  Forall (Forall (λ t, String.length t = 1%nat)) g →
  ∃ lines, print_state b σ = Ok lines σ ∧
           length lines = 13%nat ∧
           Forall (λ l, String.length l = 37%nat) lines ∧
           lines !! 12%nat = Some horizontal_rule ∧
           ∀ r ts, g !! r = Some ts →
                   lines !! (2 * r)%nat = Some horizontal_rule ∧
                   lines !! (2 * r + 1)%nat =
                     Some ("|  " +:+ str_join "  |  " (render_tile <$> ts) +:+ "  |").
Proof.
  intros Hb [Hlen Hrows] Hone.
  exists (board_lines g). split_and!.
  - by apply print_state_spec.
  - rewrite board_lines_length, Hlen. done.
  - unfold board_lines. apply Forall_app. split; [|by repeat constructor].
    apply Forall_concat, Forall_fmap, Forall_forall. intros ts Hts. simpl.
    repeat constructor.
    apply render_row_length.
    + by apply (proj1 (Forall_forall (λ ts, length ts = 6%nat) g) Hrows).
    + by apply (proj1 (Forall_forall _ g) Hone).
  - destruct (six_rows g Hlen) as (r0 & r1 & r2 & r3 & r4 & r5 & ->). done.
  - intros r ts Hr. by apply board_lines_lookup.
Qed.

Lemma print_state_aligned_witness :
  ∃ lines, print_state init_board init_store = Ok lines init_store ∧
           length lines = 13%nat ∧
           Forall (λ l, String.length l = 37%nat) lines ∧
           lines !! 12%nat = Some horizontal_rule ∧
           ∀ r ts, init_grid !! r = Some ts →
                   lines !! (2 * r)%nat = Some horizontal_rule ∧
                   lines !! (2 * r + 1)%nat =
                     Some ("|  " +:+ str_join "  |  " (render_tile <$> ts) +:+ "  |").
Proof.
  apply (print_state_aligned init_store init_board init_grid).
  - apply init_is_board.
  - apply init_grid6.
  - repeat constructor.
Defined.

(** ** [test_move] *)

Lemma board_at_keeps σ σ' b ls g bc lsc :
  board_at σ b ls g → keeps_others bc lsc σ σ' →
  b ≠ bc → (∀ l, l ∈ ls → l ∉ lsc) →
  board_at σ' b ls g.
Proof.
  intros (Hb & Hnd & HF) [Ho Hr] Hne Hdisj. split_and!; [by apply Ho|done|].
  apply Forall2_same_length_lookup. split; [by eapply Forall2_length|].
  intros i l ts Hl Hts. apply Hr.
  - apply Hdisj. by apply (list_elem_of_lookup_2 ls i l).
  - exact (Forall2_lookup_lr _ _ _ _ _ _ HF Hl Hts).
Qed.

Lemma touches_only_keeps b ls σ σ' : touches_only b ls σ σ' → keeps_others b ls σ σ'.
Proof.
  intros [Ho Hr]. split.
  - intros o x Hne Hx. by rewrite Ho.
  - intros l x Hl Hx. by rewrite Hr.
Qed.

Lemma inverting_agent_confined : confined inverting_agent.
Proof.
  intros b ls g σ Hat.
  destruct (invert_board_in_place σ b ls g Hat) as (σ' & Hrun & _ & Htouch).
  unfold inverting_agent. rewrite (bind_ok _ _ _ _ _ Hrun). simpl.
  by apply touches_only_keeps.
Qed.

Lemma wrap_test_ok {A} (func : M A) σ a σ' :
  func σ = Ok a σ' → wrap_test func σ = Ok (Passed a) σ'.
Proof. intros H. unfold wrap_test, try_except. by rewrite (bind_ok _ _ _ _ _ H). Qed.

Lemma wrap_test_raise {A} (func : M A) σ e σ' :
  func σ = Raise e σ' →
  wrap_test func σ = if is_Exception e then Ok (Failed e) σ' else Raise e σ'.
Proof. intros H. unfold wrap_test, try_except. by rewrite (bind_raise _ _ _ _ _ H). Qed.

(** X14: [test_move] leaves the caller's board as it was and judges the
    agent's move on that board: the agent is handed a deep copy, and
    whatever it writes to the copy, the verdict is the one
    [is_valid_move] gives on the board as it stood before the agent ran,
    and-ed with the time check.  An exception of the agent that derives
    from [Exception], and the [IndexError] of [is_valid_move], become the
    failure string formatted from it; an exception of the agent that does
    not derive from [Exception] is raised to the caller.  (For an agent
    that writes to no object but the board it is given, and for a run
    the timeout does not interrupt.) *)
Theorem test_move_judges_original make_move in_time σ b g :
  is_board σ b g → grid6 g → confined make_move →
  ∃ bc σ1,
    deepcopy b σ = Ok bc σ1 ∧ is_board σ1 bc g ∧
    match make_move bc σ1 with
    | Ok mv σ2 =>
        is_board σ2 b g ∧
        test_move make_move in_time b σ =
          Ok (match is_valid_move b mv.1 mv.2 σ with
              | Ok v _ => Passed (v && in_time)
              | Raise _ _ => Failed IndexError
              end) σ2
    | Raise e σ2 =>
        is_board σ2 b g ∧
        test_move make_move in_time b σ =
          if is_Exception e then Ok (Failed e) σ2 else Raise e σ2
    end.
Proof.
  intros Hb Hg Hconf. pose proof Hb as [ls Hat].
  destruct (deepcopy_spec σ b ls g Hat)
    as (bc & lsc & σ1 & Hcopy & Hfresh & Hrows & Hext & Hatc).
  pose proof (board_at_extends _ _ _ _ _ Hext Hat) as Hat1.
  assert (b ≠ bc) as Hne.
  { intros ->. destruct Hat as [Hsome _]. congruence. }
  assert (∀ l, l ∈ ls → l ∉ lsc) as Hdisj.
  { intros l Hl Hl'. specialize (Hrows l Hl').
    destruct Hat as (_ & _ & HF).
    apply list_elem_of_lookup in Hl as [i Hi].
    destruct (Forall2_lookup_l _ _ _ _ _ HF Hi) as (ts & _ & Hts).
    simpl in Hts. congruence. }
  specialize (Hconf bc lsc g σ1 Hatc).
  exists bc, σ1. split; [done|]. split; [by eexists|].
  unfold test_move.
  destruct (make_move bc σ1) as [mv σ2|e σ2] eqn:Hagent.
  - pose proof (board_at_keeps _ _ _ _ _ _ _ Hat1 Hconf Hne Hdisj) as Hat2.
    split; [by exists ls|].
    rewrite (is_valid_move_spec σ b g) by done.
    destruct (cell g mv.1.1 mv.1.2) as [t|] eqn:Hsrc.
    + apply wrap_test_ok. unfold test_move_body.
      rewrite (bind_ok _ _ _ _ _ Hcopy), (bind_ok _ _ _ _ _ Hagent).
      unfold bind. rewrite (is_valid_move_spec σ2 b g) by (done || by exists ls).
      by rewrite Hsrc.
    + change (Ok (Failed IndexError) σ2)
        with (if is_Exception IndexError
              then Ok (Failed (A := bool) IndexError) σ2 else Raise IndexError σ2).
      apply wrap_test_raise. unfold test_move_body.
      rewrite (bind_ok _ _ _ _ _ Hcopy), (bind_ok _ _ _ _ _ Hagent).
      unfold bind. rewrite (is_valid_move_spec σ2 b g) by (done || by exists ls).
      by rewrite Hsrc.
  - pose proof (board_at_keeps _ _ _ _ _ _ _ Hat1 Hconf Hne Hdisj) as Hat2.
    split; [by exists ls|].
    apply wrap_test_raise. unfold test_move_body.
    by rewrite (bind_ok _ _ _ _ _ Hcopy), (bind_raise _ _ _ _ _ Hagent).
Qed.

Lemma test_move_judges_original_witness :
  ∃ bc σ1,
    deepcopy init_board init_store = Ok bc σ1 ∧ is_board σ1 bc init_grid ∧
    match inverting_agent bc σ1 with
    | Ok mv σ2 =>
        is_board σ2 init_board init_grid ∧
        test_move inverting_agent true init_board init_store =
          Ok (match is_valid_move init_board mv.1 mv.2 init_store with
              | Ok v _ => Passed (v && true)
              | Raise _ _ => Failed IndexError
              end) σ2
    | Raise e σ2 =>
        is_board σ2 init_board init_grid ∧
        test_move inverting_agent true init_board init_store =
          if is_Exception e then Ok (Failed e) σ2 else Raise e σ2
    end.
Proof.
  apply (test_move_judges_original inverting_agent true init_store init_board init_grid).
  - apply init_is_board.
  - apply init_grid6.
  - apply inverting_agent_confined.
Defined.

(** ** Inverting in place, shared rows included *)

Lemma occurrences_snoc l ls x :
  occurrences l (ls ++ [x]) = (occurrences l ls + (if decide (x = l) then 1 else 0))%nat.
Proof.
  unfold occurrences. rewrite filter_app, length_app, filter_cons, filter_nil.
  by case_decide.
Qed.

Lemma occurrences_reverse l ls : occurrences l (reverse ls) = occurrences l ls.
Proof. unfold occurrences. by rewrite reverse_Permutation. Qed.

Lemma swap_row_twice (ts : list string) : swap <$> (swap <$> ts) = ts.
Proof.
  rewrite <-list_fmap_compose. rewrite <-(list_fmap_id ts) at 2.
  apply list_fmap_ext. intros _ t _. apply swap_swap.
Qed.

Lemma flips_S k ts : flips (S k) ts = swap <$> flips k ts.
Proof.
  unfold flips. rewrite Nat.even_succ, <-Nat.negb_even.
  destruct (Nat.even k); simpl; [done|]. by rewrite swap_row_twice.
Qed.

Lemma flips_twice k ts : flips k (flips k ts) = ts.
Proof. unfold flips. destruct (Nat.even k); [done|apply swap_row_twice]. Qed.

(** The two loops of [invert_board] on any list of row objects: a row
    object has its colours exchanged once for each of its occurrences. *)
Lemma invert_rows_shared σ b L :
  outers σ !! b = Some L →
  (∀ l, l ∈ L → is_Some (rows σ !! l)) →
  ∃ σ', for_in (Rt := Empty_set) (load_outer b) (λ r row _,
          for_in (load_row row)
            (λ c tile _, invert_tile b r c tile;;; ret (inl ())) ()) () σ
          = Ok (inl ()) σ' ∧
        outers σ' = outers σ ∧
        ∀ l, rows σ' !! l = flips (occurrences l L) <$> rows σ !! l.
Proof.
  intros Hb Hrows.
  set (Inv := λ (r : nat) (_ : unit) (σ' : store),
    outers σ' = outers σ ∧
    ∀ l, rows σ' !! l = flips (occurrences l (take r L)) <$> rows σ !! l).
  destruct (for_in_inv (Rt := Empty_set) Inv (load_outer b) (λ r row _,
      for_in (load_row row)
        (λ c tile _, invert_tile b r c tile;;; ret (inl ())) ()) L () σ)
    as ([] & σ' & Hrun & Ho & Hr).
  - unfold load_outer. by rewrite Hb.
  - intros r [] σ' [Ho Hr]. exists L. split; [|done].
    unfold load_outer. by rewrite Ho, Hb.
  - intros r l [] σ' [Ho Hr] Hl.
    destruct (Hrows l (list_elem_of_lookup_2 _ _ _ Hl)) as [ts Hts].
    destruct (invert_row σ' b L r l (flips (occurrences l (take r L)) ts))
      as (σ'' & Hrun & Ho' & Hr').
    { by rewrite Ho. }
    { done. }
    { by rewrite Hr, Hts. }
    exists (), σ''. split; [done|]. split; [congruence|].
    intros l'. rewrite Hr', (take_S_r _ _ _ Hl), occurrences_snoc.
    destruct (decide (l = l')) as [<-|Hne].
    + rewrite lookup_insert_eq, Hts. simpl.
      by rewrite Nat.add_1_r, flips_S.
    + rewrite lookup_insert_ne, Hr by done. by rewrite Nat.add_0_r.
  - split; [done|]. intros l. simpl. unfold flips, occurrences. simpl.
    by destruct (rows σ !! l).
  - exists σ'. split_and!; [done..|].
    intros l. rewrite Hr. by rewrite take_ge.
Qed.

Lemma invert_board_shared σ b L :
  outers σ !! b = Some L →
  (∀ l, l ∈ L → is_Some (rows σ !! l)) →
  ∃ σ', invert_board b true σ = Ok b σ' ∧
        outers σ' = <[b := reverse L]> (outers σ) ∧
        ∀ l, rows σ' !! l = flips (occurrences l L) <$> rows σ !! l.
Proof.
  intros Hb Hrows.
  set (σ1 := Store (<[b := reverse L]> (outers σ)) (rows σ)).
  destruct (invert_rows_shared σ1 b (reverse L)) as (σ2 & Hrun & Ho & Hr).
  { simpl. apply lookup_insert_eq. }
  { intros l Hl. apply Hrows. by apply elem_of_reverse. }
  exists σ2. split_and!; [|done|].
  - unfold invert_board. simpl. unfold bind at 1. unfold ret at 1.
    unfold bind at 1. unfold reverse_in_place at 1.
    unfold bind at 1. unfold load_outer at 1. rewrite Hb. simpl.
    unfold store_outer. fold σ1.
    unfold invert_tile in Hrun. by rewrite (bind_ok _ _ _ _ _ Hrun).
  - intros l. rewrite Hr. by rewrite occurrences_reverse.
Qed.

(** X15: inverting a board in place twice leaves the store exactly as
    it was.  This needs no assumption on the shape of the board: it holds
    for boards of any size and for boards in which one row object stands
    in several places, whose colours a single inversion exchanges once
    for each place. *)
Theorem invert_board_twice_in_place σ b L :
  outers σ !! b = Some L →
  (∀ l, l ∈ L → is_Some (rows σ !! l)) →
  (invert_board b true;;; invert_board b true) σ = Ok b σ.
Proof.
  intros Hb Hrows.
  destruct (invert_board_shared σ b L Hb Hrows) as (σ1 & Hrun1 & Ho1 & Hr1).
  destruct (invert_board_shared σ1 b (reverse L)) as (σ2 & Hrun2 & Ho2 & Hr2).
  { rewrite Ho1. apply lookup_insert_eq. }
  { intros l Hl. apply (proj1 (elem_of_reverse _ _)) in Hl. rewrite Hr1.
    destruct (Hrows l Hl) as [ts ->]. by eexists. }
  rewrite (bind_ok _ _ _ _ _ Hrun1), Hrun2. f_equal.
  destruct σ as [os rs], σ2 as [os2 rs2]. simpl in *. f_equal.
  - rewrite Ho2, Ho1, insert_insert_eq, reverse_involutive. by apply insert_id.
  - apply map_eq. intros l. rewrite Hr2, Hr1, occurrences_reverse.
    destruct (rs !! l) as [ts|]; simpl; [|done]. by rewrite flips_twice.
Qed.

Lemma invert_board_twice_in_place_witness :
  (invert_board 1%positive true;;; invert_board 1%positive true) shared_store
    = Ok 1%positive shared_store.
Proof.
  apply (invert_board_twice_in_place shared_store 1%positive (replicate 6 2%positive)).
  - reflexivity.
  - intros l Hl. apply elem_of_replicate in Hl as [-> _]. by eexists.
Defined.

Lemma occurrences_replicate l k : occurrences l (replicate k l) = k.
Proof.
  unfold occurrences. induction k as [|k IH]; simpl; [done|].
  rewrite filter_cons, decide_True by done. simpl. by rewrite IH.
Qed.

Lemma occurrences_replicate_ne l' l k :
  l' ≠ l → occurrences l' (replicate k l) = 0%nat.
Proof.
  intros Hne. unfold occurrences. induction k as [|k IH]; simpl; [done|].
  rewrite filter_cons, decide_False by (by intros ->). exact IH.
Qed.

Lemma reverse_replicate {A} (x : A) k : reverse (replicate k x) = replicate k x.
Proof.
  induction k as [|k IH]; [done|].
  simpl. rewrite reverse_cons, IH.
  clear IH. induction k as [|k IH]; simpl; [done|]. by rewrite IH.
Qed.

(** X16: a board made of one row object repeated an even number of
    times, as [[row] * 6] builds it, is not inverted by [invert_board]:
    the colours of the one row are exchanged once for each place it
    stands in, and the store ends as it was. *)
Theorem invert_board_repeated_row σ b l ts k :
  outers σ !! b = Some (replicate k l) →
  rows σ !! l = Some ts →
  Nat.even k = true →
  invert_board b true σ = Ok b σ.
Proof.
  intros Hb Hl Heven.
  destruct (invert_board_shared σ b (replicate k l) Hb) as (σ' & Hrun & Ho & Hr).
  { intros l' Hl'. apply elem_of_replicate in Hl' as [-> _]. by eexists. }
  rewrite Hrun. f_equal.
  destruct σ as [os rs], σ' as [os' rs']. simpl in *. f_equal.
  - rewrite Ho, reverse_replicate. by apply insert_id.
  - apply map_eq. intros l'. rewrite Hr.
    destruct (decide (l' = l)) as [->|Hne].
    + rewrite occurrences_replicate, Hl. unfold flips. by rewrite Heven.
    + rewrite occurrences_replicate_ne by done.
      unfold flips. simpl. by destruct (rs !! l').
Qed.

Lemma invert_board_repeated_row_witness :
  invert_board 1%positive true shared_store = Ok 1%positive shared_store.
Proof.
  apply (invert_board_repeated_row shared_store 1%positive 2%positive
           (chars "BW_BW_") 6).
  - reflexivity.
  - reflexivity.
  - reflexivity.
Defined.

(** ** The end of the game from the other side *)

Lemma existsb_swap_black ts :
  existsb (λ x, bool_decide (x = "B")) (swap <$> ts)
  = existsb (λ x, bool_decide (x = "W")) ts.
Proof.
  induction ts as [|t ts IH]; [done|]. rewrite fmap_cons. simpl. rewrite IH.
  f_equal. pose proof (swap_is_black t) as Hsw.
  repeat case_bool_decide; try done; exfalso; tauto.
Qed.

Lemma existsb_swap_white ts :
  existsb (λ x, bool_decide (x = "W")) (swap <$> ts)
  = existsb (λ x, bool_decide (x = "B")) ts.
Proof.
  induction ts as [|t ts IH]; [done|]. rewrite fmap_cons. simpl. rewrite IH.
  f_equal. pose proof (swap_is_white t) as Hsw.
  repeat case_bool_decide; try done; exfalso; tauto.
Qed.

Lemma game_over_inverted g : grid6 g → game_over (inverted g) = game_over g.
Proof.
  intros Hg. destruct (count_tile_inverted g Hg) as [Hblack Hwhite].
  unfold game_over. rewrite Hblack, Hwhite.
  destruct Hg as [Hlen _].
  destruct (six_rows g Hlen) as (r0 & r1 & r2 & r3 & r4 & r5 & ->).
  assert (reached "B" (inverted [r0; r1; r2; r3; r4; r5]) 5
          = reached "W" [r0; r1; r2; r3; r4; r5] 0) as ->.
  { unfold reached, inverted. cbn. apply existsb_swap_black. }
  assert (reached "W" (inverted [r0; r1; r2; r3; r4; r5]) 0
          = reached "B" [r0; r1; r2; r3; r4; r5] 5) as ->.
  { unfold reached, inverted. cbn. apply existsb_swap_white. }
  generalize (reached "W" [r0; r1; r2; r3; r4; r5] 0).
  generalize (reached "B" [r0; r1; r2; r3; r4; r5] 5).
  generalize (count_tile "W" [r0; r1; r2; r3; r4; r5] =? 0)%nat.
  generalize (count_tile "B" [r0; r1; r2; r3; r4; r5] =? 0)%nat.
  by intros [] [] [] [].
Qed.

(** X17: [is_game_over] gives the same answer on a board and on its
    inversion, so checking it in Black's orientation only, as [play]
    does, loses nothing. *)
Theorem is_game_over_inverted σ b g v :
  is_board σ b g → grid6 g →
  is_game_over b σ = Ok v σ →
  ∃ σ', invert_board b true σ = Ok b σ' ∧ is_game_over b σ' = Ok v σ'.
Proof.
  intros [ls Hat] Hg Hover.
  rewrite (is_game_over_spec σ b g) in Hover by (done || by exists ls).
  injection Hover as <-.
  destruct (invert_board_in_place σ b ls g Hat) as (σ' & Hrun & Hat' & _).
  exists σ'. split; [done|].
  rewrite (is_game_over_spec σ' b (inverted g));
    [|by eexists|by apply inverted_grid6].
  by rewrite game_over_inverted.
Qed.

Lemma is_game_over_inverted_witness :
  ∃ σ', invert_board init_board true opened_store = Ok init_board σ' ∧
        is_game_over init_board σ' = Ok false σ'.
Proof.
  apply (is_game_over_inverted opened_store init_board opened_grid false).
  - apply opened_is_board.
  - apply grid6_moved, init_grid6.
  - vm_compute. reflexivity.
Defined.

(** ** Boards that share nothing *)

